(** * A simple car simulator on mbed: the five periodic tasks of [main.cpp]

    The program runs five threads over a handful of global variables:
    [readInputs] (25 Hz), [calcAverageSpeed] (5 Hz), [displayToLCD] (2 Hz),
    [cruiseControl] (20 Hz) and [simulateCar] (25 Hz).  Each thread is a
    [while(true)] loop whose body locks one or two mutexes, updates the
    globals and sleeps.  One iteration of such a loop is embedded here as a
    computation in a small state-and-log monad: the state is the record of
    the globals, the log lists the mutex operations and the assignments in
    program order.  A run of the system is a sequence of such iterations,
    in any order and with any switch readings; an iteration is atomic.

    The arithmetic of the program ([float], [double], [int] and the
    conversions between them that C++ inserts) is an interface, [Arith].
    The tasks are written once over that interface and run on its
    instance [IEEE], the binary32/binary64 arithmetic of the target.

    The first part of the file holds the definitions: the program, the
    arithmetic, and the vocabulary of the properties.  The second part
    holds the proofs: what holds for every arithmetic (the law of each
    task, who writes which variable under which mutex, manual driving with
    the switches held), the interleavings of the threads on the mutexes,
    and the properties of the program on the target's arithmetic
    (convergence of the cruise control from rest, absence of overflow and
    NaN, the speed bounds, the average of the window, the odometer). *)

From Stdlib Require Import ZArith QArith Qabs Bool List Lia SpecFloat.
Import ListNotations.
Local Open Scope Z_scope.

(** ** Constants of [main.cpp] *)

Definition MIN_SPEED : Z := 0.
Definition MAX_SPEED : Z := 300.
Definition LEGAL_SPEED : Z := 142.
Definition CRUISE_SPEED : Z := 80.
Definition CRUISE_BIAS : Q := 1 # 10.
Definition FRICTION : Q := 1 # 1000.
Definition FRICTION_BIAS : Q := 8 # 10.

(** Strict comparison of rationals as a boolean. *)
Definition Qltb (a b : Q) : bool := negb (Qle_bool b a).

(** ** The arithmetic interface

    [flt] and [dbl] stand for the C++ types [float] and [double].  An
    [int] operand of a mixed expression is converted by [int2f] or
    [int2d], a [float] operand of a [double] expression by [f2d], and an
    assignment of a [double] to a [float] variable by [d2f].  [lit] is a
    decimal floating literal, of type [double] in C++.  [f2int] is the
    conversion of a [float] to [int] that [push_back] on a
    [std::deque<int>] performs.  [fval] is not an operation of the
    program: it is the rational number a [float] denotes, [None] for an
    infinity or a NaN, and is used to state properties. *)

Class Arith : Type := {
  flt : Type;
  dbl : Type;
  int2f : Z -> flt;
  int2d : Z -> dbl;
  lit : Q -> dbl;
  f2d : flt -> dbl;
  d2f : dbl -> flt;
  f2int : flt -> Z;
  fadd : flt -> flt -> flt;
  fsub : flt -> flt -> flt;
  fdiv : flt -> flt -> flt;
  fltb : flt -> flt -> bool;
  dadd : dbl -> dbl -> dbl;
  dsub : dbl -> dbl -> dbl;
  dmul : dbl -> dbl -> dbl;
  ddiv : dbl -> dbl -> dbl;
  dltb : dbl -> dbl -> bool;
  fval : flt -> option Q
}.

(** ** Mutexes, variables and the log of one loop iteration *)

Inductive mutex : Type := engineMutex | portMutex | avgSpeedMutex.

Inductive var : Type :=
| v_ignition | v_cruise_mode | v_accel | v_brakes | v_current_speed
| v_average_speed | v_odometry | v_avg_speed_queue
| v_engine_indicator | v_cruising_indicator | v_speeding_indicator | v_lcd.

Inductive event : Type :=
| Lock (m : mutex)
| Unlock (m : mutex)
| Store (x : var)
| Sleep (ms : Z).

Definition mutex_eqb (a b : mutex) : bool :=
  match a, b with
  | engineMutex, engineMutex | portMutex, portMutex
  | avgSpeedMutex, avgSpeedMutex => true
  | _, _ => false
  end.

Definition var_eqb (a b : var) : bool :=
  match a, b with
  | v_ignition, v_ignition | v_cruise_mode, v_cruise_mode
  | v_accel, v_accel | v_brakes, v_brakes
  | v_current_speed, v_current_speed | v_average_speed, v_average_speed
  | v_odometry, v_odometry | v_avg_speed_queue, v_avg_speed_queue
  | v_engine_indicator, v_engine_indicator
  | v_cruising_indicator, v_cruising_indicator
  | v_speeding_indicator, v_speeding_indicator | v_lcd, v_lcd => true
  | _, _ => false
  end.

Section Program.

Context {A : Arith}.

(** ** The globals *)

Record state : Type := mkState {
  ignition : bool;
  cruise_mode : bool;
  accel : flt;
  brakes : flt;
  current_speed : flt;
  average_speed : flt;
  odometry : flt;
  avg_speed_queue : list Z;          (* std::deque<int> *)
  engine_indicator : bool;           (* LED1 *)
  cruising_indicator : bool;         (* LED2 *)
  speeding_indicator : bool;         (* LED3 *)
  lcd : option (flt * flt)           (* the values printed on rows 0 and 1 *)
}.

(** The initialisers of lines 36-45; the LEDs start off and the display
    is cleared by [main]. *)
Definition init : state :=
  mkState false false (int2f 0) (int2f 0) (int2f 0) (int2f 0) (int2f 0)
          [] false false false None.

(** ** The monad: state passing with a log *)

Definition task (X : Type) : Type := state -> X * state * list event.

Definition ret {X} (x : X) : task X := fun s => (x, s, []).

Definition bind {X Y} (c : task X) (k : X -> task Y) : task Y :=
  fun s =>
    let '(x, s1, l1) := c s in
    let '(y, s2, l2) := k x s1 in
    (y, s2, l1 ++ l2).

Definition exec {X} (c : task X) (s : state) : state := snd (fst (c s)).
Definition log {X} (c : task X) (s : state) : list event := snd (c s).

Definition get {X} (field : state -> X) : task X := fun s => (field s, s, []).
Definition emit (e : event) : task unit := fun s => (tt, s, [e]).
Definition skip : task unit := ret tt.
Definition lock (m : mutex) : task unit := emit (Lock m).
Definition unlock (m : mutex) : task unit := emit (Unlock m).
Definition sleep_for (ms : Z) : task unit := emit (Sleep ms).

Definition assign (x : var) (upd : state -> state) : task unit :=
  fun s => (tt, upd s, [Store x]).

Definition set_ignition (v : bool) : task unit :=
  assign v_ignition (fun s =>
    mkState v (cruise_mode s) (accel s) (brakes s) (current_speed s)
      (average_speed s) (odometry s) (avg_speed_queue s) (engine_indicator s)
      (cruising_indicator s) (speeding_indicator s) (lcd s)).

Definition set_cruise_mode (v : bool) : task unit :=
  assign v_cruise_mode (fun s =>
    mkState (ignition s) v (accel s) (brakes s) (current_speed s)
      (average_speed s) (odometry s) (avg_speed_queue s) (engine_indicator s)
      (cruising_indicator s) (speeding_indicator s) (lcd s)).

Definition set_accel (v : flt) : task unit :=
  assign v_accel (fun s =>
    mkState (ignition s) (cruise_mode s) v (brakes s) (current_speed s)
      (average_speed s) (odometry s) (avg_speed_queue s) (engine_indicator s)
      (cruising_indicator s) (speeding_indicator s) (lcd s)).

Definition set_brakes (v : flt) : task unit :=
  assign v_brakes (fun s =>
    mkState (ignition s) (cruise_mode s) (accel s) v (current_speed s)
      (average_speed s) (odometry s) (avg_speed_queue s) (engine_indicator s)
      (cruising_indicator s) (speeding_indicator s) (lcd s)).

Definition set_current_speed (v : flt) : task unit :=
  assign v_current_speed (fun s =>
    mkState (ignition s) (cruise_mode s) (accel s) (brakes s) v
      (average_speed s) (odometry s) (avg_speed_queue s) (engine_indicator s)
      (cruising_indicator s) (speeding_indicator s) (lcd s)).

Definition set_average_speed (v : flt) : task unit :=
  assign v_average_speed (fun s =>
    mkState (ignition s) (cruise_mode s) (accel s) (brakes s) (current_speed s)
      v (odometry s) (avg_speed_queue s) (engine_indicator s)
      (cruising_indicator s) (speeding_indicator s) (lcd s)).

Definition set_odometry (v : flt) : task unit :=
  assign v_odometry (fun s =>
    mkState (ignition s) (cruise_mode s) (accel s) (brakes s) (current_speed s)
      (average_speed s) v (avg_speed_queue s) (engine_indicator s)
      (cruising_indicator s) (speeding_indicator s) (lcd s)).

Definition set_avg_speed_queue (v : list Z) : task unit :=
  assign v_avg_speed_queue (fun s =>
    mkState (ignition s) (cruise_mode s) (accel s) (brakes s) (current_speed s)
      (average_speed s) (odometry s) v (engine_indicator s)
      (cruising_indicator s) (speeding_indicator s) (lcd s)).

Definition set_engine_indicator (v : bool) : task unit :=
  assign v_engine_indicator (fun s =>
    mkState (ignition s) (cruise_mode s) (accel s) (brakes s) (current_speed s)
      (average_speed s) (odometry s) (avg_speed_queue s) v
      (cruising_indicator s) (speeding_indicator s) (lcd s)).

Definition set_cruising_indicator (v : bool) : task unit :=
  assign v_cruising_indicator (fun s =>
    mkState (ignition s) (cruise_mode s) (accel s) (brakes s) (current_speed s)
      (average_speed s) (odometry s) (avg_speed_queue s) (engine_indicator s)
      v (speeding_indicator s) (lcd s)).

Definition set_speeding_indicator (v : bool) : task unit :=
  assign v_speeding_indicator (fun s =>
    mkState (ignition s) (cruise_mode s) (accel s) (brakes s) (current_speed s)
      (average_speed s) (odometry s) (avg_speed_queue s) (engine_indicator s)
      (cruising_indicator s) v (lcd s)).

Definition set_lcd (v : option (flt * flt)) : task unit :=
  assign v_lcd (fun s =>
    mkState (ignition s) (cruise_mode s) (accel s) (brakes s) (current_speed s)
      (average_speed s) (odometry s) (avg_speed_queue s) (engine_indicator s)
      (cruising_indicator s) (speeding_indicator s) v).

(** [pop_front] and [push_back] of the deque. *)
Definition pop_front : task unit :=
  fun s => set_avg_speed_queue (tl (avg_speed_queue s)) s.

Definition push_back (x : Z) : task unit :=
  fun s => set_avg_speed_queue (avg_speed_queue s ++ [x]) s.

End Program.

Declare Scope task_scope.
Delimit Scope task_scope with task.
Notation "x <- c1 ;; c2" := (bind c1 (fun x => c2))
  (at level 61, c1 at next level, right associativity) : task_scope.
Notation "c1 ;; c2" := (bind c1 (fun _ => c2))
  (at level 61, right associativity) : task_scope.
Notation "'when' b 'then' c" := (if b then c else skip)
  (at level 60, c at level 60) : task_scope.

Declare Scope arith_scope.
Delimit Scope arith_scope with ar.
Infix "+f" := fadd (at level 50, left associativity) : arith_scope.
Infix "-f" := fsub (at level 50, left associativity) : arith_scope.
Infix "/f" := fdiv (at level 40, left associativity) : arith_scope.
Infix "<f" := fltb (at level 70, no associativity) : arith_scope.
Infix "+d" := dadd (at level 50, left associativity) : arith_scope.
Infix "-d" := dsub (at level 50, left associativity) : arith_scope.
Infix "*d" := dmul (at level 40, left associativity) : arith_scope.
Infix "/d" := ddiv (at level 40, left associativity) : arith_scope.
Infix "<d" := dltb (at level 70, no associativity) : arith_scope.

Section Tasks.

Context {A : Arith}.
Local Open Scope task_scope.
Local Open Scope arith_scope.

(** ** The five tasks: one iteration of each [while(true)] loop

    The value a task reads from [par_port] in an iteration is an argument
    of that iteration. *)

(** [readInputs], lines 67-82. *)
Definition readInputs (engine_sw accel_sw brakes_sw : bool) : task unit :=
  lock portMutex ;;
  set_ignition engine_sw ;;
  ign <- get ignition ;;
  set_engine_indicator ign ;;
  cm <- get cruise_mode ;;
  (when negb cm then
     (set_accel (int2f (Z.b2z accel_sw)) ;;
      set_brakes (int2f (Z.b2z brakes_sw)))) ;;
  unlock portMutex ;;
  sleep_for 40.

(** The sum of line 96-99: [float sum(0)] and [sum += *it] over the deque. *)
Definition queue_sum (q : list Z) : flt :=
  fold_left (fun sum x => sum +f int2f x) q (int2f 0).

(** [calcAverageSpeed], lines 92-106. *)
Definition calcAverageSpeed : task unit :=
  lock avgSpeedMutex ;;
  q <- get avg_speed_queue ;;
  set_average_speed (queue_sum q /f int2f (Z.of_nat (length q))) ;;
  avg <- get average_speed ;;
  set_speeding_indicator (int2f LEGAL_SPEED <f avg) ;;
  unlock avgSpeedMutex ;;
  sleep_for 200.

(** [displayToLCD], lines 115-130. *)
Definition displayToLCD : task unit :=
  lock avgSpeedMutex ;;
  lock portMutex ;;
  avg <- get average_speed ;;
  odo <- get odometry ;;
  set_lcd (Some (avg, odo)) ;;
  unlock avgSpeedMutex ;;
  unlock portMutex ;;
  sleep_for 500.

(** [cruiseControl], lines 143-170. *)
Definition cruiseControl (cc_sw : bool) : task unit :=
  lock portMutex ;;
  set_cruise_mode cc_sw ;;
  ign <- get ignition ;;
  cm <- get cruise_mode ;;
  set_cruising_indicator (if ign then cm else false) ;;
  (when cm && ign then
     (cs <- get current_speed ;;
      if int2d CRUISE_SPEED +d lit FRICTION_BIAS <d f2d cs then
        set_accel (int2f 0) ;;
        set_brakes (d2f (f2d ((cs -f int2f CRUISE_SPEED) /f int2f CRUISE_SPEED)
                         +d lit CRUISE_BIAS))
      else if f2d cs <d int2d CRUISE_SPEED +d lit FRICTION_BIAS then
        set_accel (d2f (f2d ((int2f CRUISE_SPEED -f cs) /f int2f CRUISE_SPEED)
                        +d lit CRUISE_BIAS)) ;;
        set_brakes (int2f 0)
      else
        set_accel (int2f 0) ;;
        set_brakes (int2f 0))) ;;
  unlock portMutex ;;
  sleep_for 50.

(** [simulateCar], lines 182-209, block by block. *)

(** Lines 186-192: the pedals. *)
Definition apply_pedals : task unit :=
  ign <- get ignition ;;
  if ign then
    cs <- get current_speed ;;
    a <- get accel ;;
    b <- get brakes ;;
    set_current_speed (cs +f (a -f b))
  else
    set_accel (int2f 0) ;;
    cs <- get current_speed ;;
    a <- get accel ;;
    b <- get brakes ;;
    set_current_speed (d2f (f2d cs +d (f2d a -d lit (5 # 10) *d f2d b))).

(** Line 195: drag. *)
Definition apply_drag : task unit :=
  cs <- get current_speed ;;
  set_current_speed (d2f (f2d cs -d lit FRICTION *d f2d cs)).

(** Lines 197-198: the two clamps. *)
Definition clamp_speed : task unit :=
  cs <- get current_speed ;;
  (when cs <f int2f MIN_SPEED then set_current_speed (int2f MIN_SPEED)) ;;
  cs <- get current_speed ;;
  when int2f MAX_SPEED <f cs then set_current_speed (int2f MAX_SPEED).

(** Lines 199-202: the queue of previous speeds. *)
Definition record_speed : task unit :=
  q <- get avg_speed_queue ;;
  (when (3 <? length q)%nat then pop_front) ;;
  cs <- get current_speed ;;
  push_back (f2int cs).

(** Line 204: odometry. *)
Definition integrate_odometry : task unit :=
  odo <- get odometry ;;
  cs <- get current_speed ;;
  set_odometry (d2f (f2d odo +d f2d cs *d lit 1 /d lit 25)).

Definition simulateCar : task unit :=
  lock avgSpeedMutex ;;
  apply_pedals ;;
  apply_drag ;;
  clamp_speed ;;
  record_speed ;;
  integrate_odometry ;;
  unlock avgSpeedMutex ;;
  sleep_for 40.

(** ** Runs of the system: a sequence of loop iterations *)

Inductive cycle : Type :=
| ReadInputs (engine_sw accel_sw brakes_sw : bool)
| CalcAverageSpeed
| DisplayToLCD
| CruiseControl (cc_sw : bool)
| SimulateCar.

Definition body (c : cycle) : task unit :=
  match c with
  | ReadInputs e a b => readInputs e a b
  | CalcAverageSpeed => calcAverageSpeed
  | DisplayToLCD => displayToLCD
  | CruiseControl cc => cruiseControl cc
  | SimulateCar => simulateCar
  end.

Definition run (cs : list cycle) (s : state) : state :=
  fold_left (fun s c => exec (body c) s) cs s.

End Tasks.

(** ** The IEEE 754 instance: binary32 for [float], binary64 for [double]

    Both types are [spec_float]; the format is a parameter of each
    operation.  Every operation rounds to nearest, ties to even. *)

Module IEEE.

Definition prec32 : Z := 24.
Definition emax32 : Z := 128.
Definition prec64 : Z := 53.
Definition emax64 : Z := 1024.

Definition INT_MIN : Z := - 2 ^ 31.
Definition INT_MAX : Z := 2 ^ 31 - 1.

(** Rounding of a floating-point value to a format: the conversions
    [float] to [double] (exact) and [double] to [float]. *)
Definition round_to (prec emax : Z) (x : spec_float) : spec_float :=
  match x with
  | S754_finite s m e => binary_round prec emax s m e
  | _ => x
  end.

Definition of_Z (prec emax : Z) (z : Z) : spec_float :=
  binary_normalize prec emax z 0 false.

(** A decimal literal [n/d] is the binary64 number nearest to it: the
    correctly rounded quotient of the two integers. *)
Definition literal (q : Q) : spec_float :=
  SFdiv prec64 emax64 (of_Z prec64 emax64 (Qnum q))
                      (of_Z prec64 emax64 (Zpos (Qden q))).

(** [float] to [int]: truncation toward zero.  The conversion of a NaN
    or of a value out of the range of [int] is undefined in C++; the
    run-time routine of the target returns 0 for a NaN and saturates. *)
Definition to_int (x : spec_float) : Z :=
  match x with
  | S754_zero _ | S754_nan => 0
  | S754_infinity s => if s then INT_MIN else INT_MAX
  | S754_finite s m e =>
      let t := match e with
               | Zneg p => Z.shiftr (Zpos m) (Zpos p)
               | _ => Z.shiftl (Zpos m) e
               end in
      Z.max INT_MIN (Z.min INT_MAX (cond_Zopp s t))
  end.

(** The rational number a finite binary float denotes. *)
Definition to_Q (x : spec_float) : option Q :=
  match x with
  | S754_zero _ => Some 0%Q
  | S754_finite s m e =>
      Some match e with
           | Zneg p => Qmake (cond_Zopp s (Zpos m)) (Pos.pow 2 p)
           | _ => inject_Z (cond_Zopp s (Zpos m) * 2 ^ e)
           end
  | _ => None
  end.

#[export] Instance arith : Arith := {|
  flt := spec_float;
  dbl := spec_float;
  int2f := of_Z prec32 emax32;
  int2d := of_Z prec64 emax64;
  lit := literal;
  f2d := round_to prec64 emax64;
  d2f := round_to prec32 emax32;
  f2int := to_int;
  fadd := SFadd prec32 emax32;
  fsub := SFsub prec32 emax32;
  fdiv := SFdiv prec32 emax32;
  fltb := SFltb;
  dadd := SFadd prec64 emax64;
  dsub := SFsub prec64 emax64;
  dmul := SFmul prec64 emax64;
  ddiv := SFdiv prec64 emax64;
  dltb := SFltb;
  fval := to_Q
|}.

End IEEE.

(** * What the tasks compute, and the vocabulary of the properties *)

Section Derived.

Context {A : Arith}.
Local Open Scope arith_scope.

(** The speed after the pedals (lines 186-192), after drag (line 195) and
    after the clamps (lines 197-198). *)
Definition pedal_speed (s : state) : flt :=
  if ignition s then current_speed s +f (accel s -f brakes s)
  else d2f (f2d (current_speed s)
            +d (f2d (int2f 0) -d lit (5 # 10) *d f2d (brakes s))).

Definition drag (c : flt) : flt := d2f (f2d c -d lit FRICTION *d f2d c).

Definition clamp (c : flt) : flt :=
  let c1 := if c <f int2f MIN_SPEED then int2f MIN_SPEED else c in
  if int2f MAX_SPEED <f c1 then int2f MAX_SPEED else c1.

Definition next_speed (s : state) : flt := clamp (drag (pedal_speed s)).

(** The deque after lines 199-202. *)
Definition enqueue (q : list Z) (x : Z) : list Z :=
  (if (3 <? length q)%nat then tl q else q) ++ [x].

Definition next_odometry (odo c : flt) : flt :=
  d2f (f2d odo +d f2d c *d lit 1 /d lit 25).

(** The pedal commands of lines 152-164 as a function of the speed. *)
Definition cruise_commands (cs : flt) : flt * flt :=
  if int2d CRUISE_SPEED +d lit FRICTION_BIAS <d f2d cs then
    (int2f 0,
     d2f (f2d ((cs -f int2f CRUISE_SPEED) /f int2f CRUISE_SPEED)
          +d lit CRUISE_BIAS))
  else if f2d cs <d int2d CRUISE_SPEED +d lit FRICTION_BIAS then
    (d2f (f2d ((int2f CRUISE_SPEED -f cs) /f int2f CRUISE_SPEED)
          +d lit CRUISE_BIAS),
     int2f 0)
  else (int2f 0, int2f 0).

(** The variables a log assigns, and the mutexes it takes while holding
    others: [nested held l] lists the pairs [(h, m)] such that [m] is
    locked while [h] is held. *)
Definition writes (l : list event) : list var :=
  flat_map (fun e => match e with Store x => [x] | _ => [] end) l.

Definition written (x : var) (c : cycle) (s : state) : bool :=
  existsb (var_eqb x) (writes (log (body c) s)).

Fixpoint nested (held : list mutex) (l : list event) : list (mutex * mutex) :=
  match l with
  | [] => []
  | Lock m :: r => map (fun h => (h, m)) held ++ nested (m :: held) r
  | Unlock m :: r =>
      nested (filter (fun h => negb (mutex_eqb h m)) held) r
  | _ :: r => nested held r
  end.

Definition lock_order (c : cycle) (s : state) : list (mutex * mutex) :=
  nested [] (log (body c) s).

(** The claim as the specification words it: a cycle that assigns a pedal
    command is an input sampler cycle with the cruise mode off, or a
    cruise controller cycle with the cruise mode (as just read) on. *)
Definition pedals_single_writer : Prop :=
  forall (c : cycle) (s : state),
    written v_accel c s || written v_brakes c s = true ->
    match c with
    | ReadInputs _ _ _ => cruise_mode s = false
    | CruiseControl cc_sw => cc_sw = true
    | _ => False
    end.

(** The last [n] elements of a list. *)
Definition lastn {X : Type} (n : nat) (l : list X) : list X :=
  skipn (length l - n) l.

(** The speeds the integrator leaves after the clamps, one per
    [SimulateCar] cycle of a run, oldest first. *)
Fixpoint samples (cs : list cycle) (s : state) : list flt :=
  match cs with
  | [] => []
  | c :: r =>
      let s' := exec (body c) s in
      match c with
      | SimulateCar => current_speed s' :: samples r s'
      | _ => samples r s'
      end
  end.

(** An entry of the window equals a speed when they denote the same
    number. *)
Definition same_number (x : Z) (c : flt) : Prop :=
  match fval c with
  | Some v => inject_Z x == v
  | None => False
  end.

(** The claim as the specification words it, for a run of at least four
    integrator cycles: the window holds four entries and they are the four
    most recent speeds. *)
Definition window_holds_speeds (cs : list cycle) : Prop :=
  let q := avg_speed_queue (run cs init) in
  length q = 4%nat /\ Forall2 same_number q (lastn 4 (samples cs init)).

(** The mutex operations of a log. *)
Definition lock_ops (l : list event) : list event :=
  filter (fun e => match e with Lock _ | Unlock _ => true | _ => false end) l.

(** The five threads that [main] starts (lines 223-227). *)
Inductive thread : Type :=
| thread2Hz | thread5Hz | thread20Hz | threadSim | thread25Hz.

Definition thread_of (c : cycle) : thread :=
  match c with
  | ReadInputs _ _ _ => thread25Hz
  | CalcAverageSpeed => thread5Hz
  | DisplayToLCD => thread2Hz
  | CruiseControl _ => thread20Hz
  | SimulateCar => threadSim
  end.

(** The mutex operations of one iteration of each thread's loop. *)
Definition locking (t : thread) : list event :=
  match t with
  | thread2Hz => [Lock avgSpeedMutex; Lock portMutex;
                  Unlock avgSpeedMutex; Unlock portMutex]
  | thread5Hz | threadSim => [Lock avgSpeedMutex; Unlock avgSpeedMutex]
  | thread20Hz | thread25Hz => [Lock portMutex; Unlock portMutex]
  end.

(** The claim as the specification words it: whenever a task takes a
    mutex while it holds another, it holds the input domain's
    ([portMutex]) and takes the motion domain's ([avgSpeedMutex]). *)
Definition input_before_motion : Prop :=
  forall (c : cycle) (s : state) (p : mutex * mutex),
    In p (lock_order c s) -> p = (portMutex, avgSpeedMutex).

(** The ignition is on, the cruise mode is on and the car is at rest. *)
Definition start_cruise : state :=
  mkState true true (int2f 0) (int2f 0) (int2f 0) (int2f 0) (int2f 0)
          [] true true false None.

(** One iteration of the cruise controller, with the cruise switch on,
    followed by one iteration of the integrator. *)
Definition cruise_cycle (s : state) : state :=
  run [CruiseControl true; SimulateCar] s.

Definition speed_after (n : nat) : flt :=
  current_speed (Nat.iter n cruise_cycle start_cruise).

(** The speed after a [cruise_cycle] as a function of the speed before. *)
Definition cruise_step (c : flt) : flt :=
  clamp (drag (c +f (fst (cruise_commands c) -f snd (cruise_commands c)))).

(** The band of half-width [FRICTION_BIAS] around [CRUISE_SPEED], and an
    overshoot of less than [d] beyond its upper edge. *)
Definition in_band (x : flt) : Prop :=
  match fval x with
  | Some v => (inject_Z CRUISE_SPEED - FRICTION_BIAS <= v
               /\ v <= inject_Z CRUISE_SPEED + FRICTION_BIAS)%Q
  | None => False
  end.

Definition overshoot (d : Q) (x : flt) : Prop :=
  match fval x with
  | Some v => (inject_Z CRUISE_SPEED + FRICTION_BIAS < v
               /\ v < inject_Z CRUISE_SPEED + FRICTION_BIAS + d)%Q
  | None => False
  end.

(** At cycle [n] the speed is in the band, or it overshoots the band by
    less than 1/100 and is back in the band at the next cycle. *)
Definition settled (n : nat) : Prop :=
  in_band (speed_after n) \/
  (overshoot (1 # 100) (speed_after n) /\ in_band (speed_after (S n))).

(** C3 as the specification words it: from some cycle on the speed is
    within [FRICTION_BIAS] of [CRUISE_SPEED] at every cycle. *)
Definition stays_in_band : Prop :=
  exists N, forall n, (N <= n)%nat -> in_band (speed_after n).

(** The speed of a state is a number in [[MIN_SPEED, MAX_SPEED]]. *)
Definition speed_in_range (s : state) : Prop :=
  match fval (current_speed s) with
  | Some v => (inject_Z MIN_SPEED <= v <= inject_Z MAX_SPEED)%Q
  | None => False
  end.

(** An iteration of each thread with every switch off. *)
Definition idle (t : thread) : cycle :=
  match t with
  | thread25Hz => ReadInputs false false false
  | thread5Hz => CalcAverageSpeed
  | thread2Hz => DisplayToLCD
  | thread20Hz => CruiseControl false
  | threadSim => SimulateCar
  end.

(** The mutexes held at each assignment of a log, and at each sleep,
    given those held at its start. *)
Fixpoint stores_under (held : list mutex) (l : list event)
  : list (var * list mutex) :=
  match l with
  | [] => []
  | Lock m :: r => stores_under (m :: held) r
  | Unlock m :: r =>
      stores_under (filter (fun h => negb (mutex_eqb h m)) held) r
  | Store x :: r => (x, held) :: stores_under held r
  | Sleep _ :: r => stores_under held r
  end.

Fixpoint sleeps_under (held : list mutex) (l : list event)
  : list (Z * list mutex) :=
  match l with
  | [] => []
  | Lock m :: r => sleeps_under (m :: held) r
  | Unlock m :: r =>
      sleeps_under (filter (fun h => negb (mutex_eqb h m)) held) r
  | Store _ :: r => sleeps_under held r
  | Sleep ms :: r => (ms, held) :: sleeps_under held r
  end.

(** The number of integrator cycles of a run. *)
Definition integrations (cs : list cycle) : nat :=
  length (filter (fun c => match c with SimulateCar => true | _ => false end)
                 cs).

(** The driver holds the ignition, accelerator and brake switches at
    [e], [a] and [b] and leaves the cruise switch off: what the input
    sampler and the cruise controller read in a cycle. *)
Definition holding (e a b : bool) (c : cycle) : bool :=
  match c with
  | ReadInputs e' a' b' => Bool.eqb e e' && Bool.eqb a a' && Bool.eqb b b'
  | CruiseControl cc => negb cc
  | _ => true
  end.

(** The speed after an integrator cycle as a function of the speed
    before (lines 186-198), when the pedal commands are the switch values
    [a] and [b] and the ignition is [e]. *)
Definition manual_step (e a b : bool) (c : flt) : flt :=
  clamp (drag
    (if e then c +f (int2f (Z.b2z a) -f int2f (Z.b2z b))
     else d2f (f2d c +d (f2d (int2f 0)
                         -d lit (5 # 10) *d f2d (int2f (Z.b2z b)))))).

(** What a run with the switches held maintains: the ignition and the
    brake command are the switch values, the cruise mode is off, and the
    accelerator command is the switch value or, with the ignition off,
    the 0 the integrator stores. *)
Definition held_state (e a b : bool) (s : state) : Prop :=
  ignition s = e /\ cruise_mode s = false /\
  brakes s = int2f (Z.b2z b) /\
  (accel s = int2f (Z.b2z a) \/ (e = false /\ accel s = int2f 0)).

(** The ignition switch is off and the cruise switch is on. *)
Definition cruise_without_ignition (c : cycle) : bool :=
  match c with
  | ReadInputs e _ _ => negb e
  | CruiseControl cc => cc
  | _ => true
  end.

End Derived.

(** ** Interleavings of the five threads on the two mutexes

    A configuration gives, for each thread, how many mutex operations of
    its current iteration it has done.  A thread holds a mutex when it
    has locked and not yet unlocked it; [Lock m] can be done when no
    thread holds [m]; after its last operation a thread starts its next
    iteration. *)

Record config : Type := mkConfig {
  at2Hz : nat; at5Hz : nat; at20Hz : nat; atSim : nat; at25Hz : nat
}.

Definition all_threads : list thread :=
  [thread2Hz; thread5Hz; thread20Hz; threadSim; thread25Hz].

Definition position (cfg : config) (t : thread) : nat :=
  match t with
  | thread2Hz => at2Hz cfg
  | thread5Hz => at5Hz cfg
  | thread20Hz => at20Hz cfg
  | threadSim => atSim cfg
  | thread25Hz => at25Hz cfg
  end.

Definition set_position (cfg : config) (t : thread) (n : nat) : config :=
  match t with
  | thread2Hz => mkConfig n (at5Hz cfg) (at20Hz cfg) (atSim cfg) (at25Hz cfg)
  | thread5Hz => mkConfig (at2Hz cfg) n (at20Hz cfg) (atSim cfg) (at25Hz cfg)
  | thread20Hz => mkConfig (at2Hz cfg) (at5Hz cfg) n (atSim cfg) (at25Hz cfg)
  | threadSim => mkConfig (at2Hz cfg) (at5Hz cfg) (at20Hz cfg) n (at25Hz cfg)
  | thread25Hz => mkConfig (at2Hz cfg) (at5Hz cfg) (at20Hz cfg) (atSim cfg) n
  end.

(** Whether a thread that has done the operations [done] holds [m]. *)
Fixpoint holds_after (m : mutex) (done : list event) (held : bool) : bool :=
  match done with
  | [] => held
  | Lock m' :: r => holds_after m r (held || mutex_eqb m m')
  | Unlock m' :: r => holds_after m r (held && negb (mutex_eqb m m'))
  | _ :: r => holds_after m r held
  end.

Definition holds (cfg : config) (t : thread) (m : mutex) : bool :=
  holds_after m (firstn (position cfg t) (locking t)) false.

Definition free (cfg : config) (m : mutex) : bool :=
  forallb (fun t => negb (holds cfg t m)) all_threads.

Definition next_op (cfg : config) (t : thread) : option event :=
  nth_error (locking t) (position cfg t).

Definition enabled (cfg : config) (t : thread) : bool :=
  match next_op cfg t with
  | Some (Lock m) => free cfg m
  | Some _ => true
  | None => false
  end.

Definition advance (cfg : config) (t : thread) : config :=
  let n := S (position cfg t) in
  set_position cfg t (if (n =? length (locking t))%nat then 0%nat else n).

Definition start : config := mkConfig 0 0 0 0 0.

Inductive reachable : config -> Prop :=
| reach_start : reachable start
| reach_step (cfg : config) (t : thread) :
    reachable cfg -> enabled cfg t = true -> reachable (advance cfg t).

Definition in_range (cfg : config) : bool :=
  forallb (fun t => (position cfg t <? length (locking t))%nat) all_threads.

(** A schedule names the thread that is given the processor at each
    step; a thread that waits for a mutex does not move. *)
Fixpoint schedule (ts : list thread) (cfg : config) : config :=
  match ts with
  | [] => cfg
  | t :: r => schedule r (if enabled cfg t then advance cfg t else cfg)
  end.

(** At most one thread holds a given mutex. *)
Definition exclusive (cfg : config) : bool :=
  forallb (fun m =>
    (length (filter (fun t => holds cfg t m) all_threads) <=? 1)%nat)
    [engineMutex; portMutex; avgSpeedMutex].

(** A thread can run, or it waits for a mutex whose holder can run, or
    whose holder waits for a mutex whose holder can run, and so on for
    at most [n] waits: the thread is in no cycle of threads waiting for
    one another. *)
Fixpoint unblocks (n : nat) (cfg : config) (t : thread) : bool :=
  enabled cfg t ||
  match n with
  | O => false
  | S n' =>
      match next_op cfg t with
      | Some (Lock m) =>
          existsb (fun u => holds cfg u m && unblocks n' cfg u) all_threads
      | _ => false
      end
  end.

(** ** The mean of a window *)

(** The arithmetic mean of a list of integers. *)
Definition mean (q : list Z) : Q :=
  inject_Z (fold_right Z.add 0%Z q) / inject_Z (Z.of_nat (length q)).

(** ** Magnitudes of binary floating-point numbers

    A number is [small K] when it is a zero or a finite number below
    [2 ^ K] in absolute value, [narrow prec] when its mantissa has at most
    [prec] digits. *)

(** A zero or a finite number of magnitude below [2 ^ K]. *)
Definition small (K : Z) (x : spec_float) : Prop :=
  match x with
  | S754_zero _ => True
  | S754_finite _ m e => Zpos (digits2_pos m) + e <= K
  | _ => False
  end.

(** The mantissa of a finite number has at most [prec] digits. *)
Definition narrow (prec : Z) (x : spec_float) : Prop :=
  match x with
  | S754_finite _ m _ => Zpos m < 2 ^ prec
  | _ => True
  end.

(** Rounding: from a non-negative mantissa of magnitude below [2 ^ K]
    the result is a zero or a finite number of magnitude below
    [2 ^ (K + 1)], with a mantissa of at most [prec] digits. *)
Definition rounded (prec : Z) (sx : bool) (K : Z) (x : spec_float) : Prop :=
  match x with
  | S754_zero s => s = sx
  | S754_finite s m e =>
      s = sx /\ Zpos (digits2_pos m) + e <= K /\ Zpos m < 2 ^ prec
  | _ => False
  end.

(** The value of a number that is not negative, in units of [2 ^ k]. *)
Definition scaled (k : Z) (x : spec_float) : Z :=
  match x with
  | S754_finite _ m e => Zpos m * 2 ^ (e - k)
  | _ => 0
  end.

(** A zero, or a positive number in the canonical form of the format
    and within its range. *)
Definition regular (prec emax : Z) (x : spec_float) : Prop :=
  match x with
  | S754_zero _ => True
  | S754_finite s m e =>
      s = false /\ e = fexp prec emax (Zpos (digits2_pos m) + e) /\ e <= emax - prec
  | _ => False
  end.

(** A positive number with its exponent not below [k]. *)
Definition positive_above (k : Z) (x : spec_float) : Prop :=
  match x with
  | S754_zero _ => True
  | S754_finite s _ e => s = false /\ k <= e
  | _ => False
  end.

(** ** The target's arithmetic *)

Section IEEEDerived.

Existing Instance IEEE.arith.
Local Open Scope arith_scope.

Definition sf_eqb (x y : spec_float) : bool :=
  match x, y with
  | S754_zero a, S754_zero b => Bool.eqb a b
  | S754_infinity a, S754_infinity b => Bool.eqb a b
  | S754_nan, S754_nan => true
  | S754_finite a m e, S754_finite b m' e' =>
      Bool.eqb a b && Pos.eqb m m' && Z.eqb e e'
  | _, _ => false
  end.

(** The first [n] speeds of the closed loop from [x]. *)
Fixpoint trajectory (n : nat) (x : flt) : list flt :=
  match n with
  | O => []
  | S n => x :: trajectory n (cruise_step x)
  end.

(** From cycle 729 on the speed repeats with period 136. *)
Definition settling_time : nat := 729.

Definition period : nat := 136.

(** The speed at cycle [settling_time], and the [period] speeds that
    repeat from there on. *)
Definition orbit_head : flt :=
  Eval vm_compute in Nat.iter settling_time cruise_step (int2f 0).

Definition orbit : list flt :=
  Eval vm_compute in trajectory period orbit_head.

Definition in_bandb (x : flt) : bool :=
  match fval x with
  | Some v => Qle_bool (inject_Z CRUISE_SPEED - FRICTION_BIAS) v
              && Qle_bool v (inject_Z CRUISE_SPEED + FRICTION_BIAS)
  | None => false
  end.

Definition overshootb (d : Q) (x : flt) : bool :=
  match fval x with
  | Some v => Qltb (inject_Z CRUISE_SPEED + FRICTION_BIAS) v
              && Qltb v (inject_Z CRUISE_SPEED + FRICTION_BIAS + d)
  | None => false
  end.

Definition settledb (x : flt) : bool :=
  in_bandb x || (overshootb (1 # 100) x && in_bandb (cruise_step x)).

(** A speed the clamps let through: not negative, a [float], and not
    above [MAX_SPEED]. *)
Definition speed_ok (c : flt) : Prop :=
  match c with
  | S754_zero _ => True
  | S754_finite s m e =>
      s = false /\ Zpos m < 2 ^ IEEE.prec32 /\ (int2f MAX_SPEED <f c) = false
  | _ => False
  end.

(** What every run maintains on the target: the pedal commands are
    below [2 ^ 12] in absolute value and the speed passed the clamps. *)
Record tame (s : state) : Prop := mkTame {
  tame_accel : small 12 (accel s);
  tame_brakes : small 12 (brakes s);
  tame_speed : speed_ok (current_speed s)
}.

(** What every run maintains on the target besides [tame]: the window
    holds at most four entries, each between 0 and 300. *)
Record windowed (s : state) : Prop := mkWindowed {
  windowed_tame : tame s;
  windowed_length : (length (avg_speed_queue s) <= 4)%nat;
  windowed_entries : Forall (fun x => 0 <= x <= 300) (avg_speed_queue s)
}.

(** The check of one quotient of the averager on the target: the sum
    [sum] of [n] entries gives a number between 0 and 300, within
    [2 ^ -16] of [sum / n], and greater than [LEGAL_SPEED] exactly when
    [sum / n] is. *)
Definition average_ok (n sum : Z) : bool :=
  let avg := int2f sum /f int2f n in
  match fval avg with
  | Some v =>
      Qle_bool 0 v && Qle_bool v 300
      && Qle_bool (Qabs (v - inject_Z sum / inject_Z n)) (1 # 65536)
      && Bool.eqb (int2f LEGAL_SPEED <f avg) (LEGAL_SPEED * n <? sum)
  | None => false
  end.

(** The sums of [n] entries between 0 and 300. *)
Definition sums_up_to (n : Z) : list Z :=
  map Z.of_nat (seq 0 (Z.to_nat (300 * n + 1))).

(** The exponent of the least positive [double]: every finite number of
    the two formats is a multiple of [2 ^ unit_exp]. *)
Definition unit_exp : Z := emin IEEE.prec64 IEEE.emax64.

(** The odometer on the target: a zero or a positive [float], not above
    [2 ^ 34]. *)
Definition odometer_ok (o : flt) : Prop :=
  regular IEEE.prec32 IEEE.emax32 o /\
  scaled unit_exp o <= 2 ^ (34 - unit_exp).

(** What every run maintains on the target besides [tame]. *)
Record metered (s : state) : Prop := mkMetered {
  metered_tame : tame s;
  metered_odometry : odometer_ok (odometry s)
}.

(** C5 as the specification words it: on a non-empty window an iteration
    of the averager sets [average_speed] to the arithmetic mean of the
    entries, and the speeding indicator to whether it is greater than
    [LEGAL_SPEED]. *)
Definition average_is_the_mean : Prop :=
  forall s : state,
    avg_speed_queue s <> [] ->
    let s' := exec calcAverageSpeed s in
    exists v,
      fval (average_speed s') = Some v /\
      (v == mean (avg_speed_queue s))%Q /\
      (speeding_indicator s' = true <-> (inject_Z LEGAL_SPEED < v)%Q).

(** C8 as the specification words it: in every integrator cycle of every
    run the odometer increases by exactly the speed of that cycle times
    1/25, and does not decrease. *)
Definition odometry_adds_speed_exactly : Prop :=
  forall cs : list cycle,
    let s := run cs init in
    let s' := exec simulateCar s in
    exists o o' c,
      fval (odometry s) = Some o /\
      fval (odometry s') = Some o' /\
      fval (current_speed s') = Some c /\
      (o' == o + c * (1 # 25))%Q /\
      (o <= o')%Q.

(** A speed that denotes a number below [k]. *)
Definition below (k : Q) (c : flt) : Prop :=
  exists v, fval c = Some v /\ (v < k)%Q.

Definition belowb (k : Q) (c : flt) : bool :=
  match fval c with
  | Some v => Qltb v k
  | None => false
  end.

(** The second check of a quotient of the averager on the target: the
    number it gives is [sum / n] itself when [n] is not 3 or divides
    [sum], and the comparison of the program with [LEGAL_SPEED] is the
    comparison of that number with 142. *)
Definition average_exact_ok (n sum : Z) : bool :=
  let avg := int2f sum /f int2f n in
  match fval avg with
  | Some v =>
      (if negb (n =? 3) || (sum mod 3 =? 0)
       then Qeq_bool v (inject_Z sum / inject_Z n)
       else true)
      && Bool.eqb (int2f LEGAL_SPEED <f avg) (Qltb (inject_Z LEGAL_SPEED) v)
  | None => false
  end.

End IEEEDerived.

(** * Comparison of rationals *)

Lemma Qltb_true (a b : Q) : Qltb a b = true <-> (a < b)%Q.
Proof.
  unfold Qltb; rewrite negb_true_iff, <- not_true_iff_false, Qle_bool_iff.
  split; [apply Qnot_le_lt | apply Qlt_not_le].
Qed.

Lemma Qltb_false (a b : Q) : Qltb a b = false <-> (b <= a)%Q.
Proof.
  unfold Qltb; rewrite negb_false_iff, Qle_bool_iff; reflexivity.
Qed.

(** * Properties that hold for every arithmetic *)

(** Unfolds the monad and the blocks of a task, leaving the arithmetic
    and the list operations folded. *)
Ltac run_task :=
  cbv [exec log bind ret get emit skip lock unlock sleep_for assign
       set_ignition set_cruise_mode set_accel set_brakes set_current_speed
       set_average_speed set_odometry set_avg_speed_queue
       set_engine_indicator set_cruising_indicator set_speeding_indicator
       set_lcd pop_front push_back
       readInputs calcAverageSpeed displayToLCD cruiseControl simulateCar
       apply_pedals apply_drag clamp_speed record_speed integrate_odometry
       ignition cruise_mode accel brakes current_speed average_speed
       odometry avg_speed_queue engine_indicator cruising_indicator
       speeding_indicator lcd fst snd negb andb].

Section Generic.

Context {A : Arith}.
Local Open Scope arith_scope.

(** ** What one iteration of each task computes *)

Lemma exec_apply_pedals (s : state) :
  exec apply_pedals s =
  mkState (ignition s) (cruise_mode s)
    (if ignition s then accel s else int2f 0) (brakes s) (pedal_speed s)
    (average_speed s) (odometry s) (avg_speed_queue s) (engine_indicator s)
    (cruising_indicator s) (speeding_indicator s) (lcd s).
Proof.
  destruct s as [ign cm a b cs av od q e c sp l].
  unfold pedal_speed; destruct ign; reflexivity.
Qed.

Lemma exec_simulateCar (s : state) :
  exec simulateCar s =
  mkState (ignition s) (cruise_mode s)
    (if ignition s then accel s else int2f 0) (brakes s) (next_speed s)
    (average_speed s) (next_odometry (odometry s) (next_speed s))
    (enqueue (avg_speed_queue s) (f2int (next_speed s)))
    (engine_indicator s) (cruising_indicator s) (speeding_indicator s) (lcd s).
Proof.
  destruct s as [ign cm a b cs av od q e c sp l].
  unfold next_speed, clamp, enqueue, next_odometry, pedal_speed, drag.
  destruct ign; run_task;
    (destruct (_ <f int2f MIN_SPEED); run_task;
     destruct (int2f MAX_SPEED <f _); run_task;
     destruct (3 <? length q)%nat; reflexivity).
Qed.

Lemma exec_cruiseControl (cc_sw : bool) (s : state) :
  exec (cruiseControl cc_sw) s =
  let on := cc_sw && ignition s in
  mkState (ignition s) cc_sw
    (if on then fst (cruise_commands (current_speed s)) else accel s)
    (if on then snd (cruise_commands (current_speed s)) else brakes s)
    (current_speed s) (average_speed s) (odometry s) (avg_speed_queue s)
    (engine_indicator s) (if ignition s then cc_sw else false)
    (speeding_indicator s) (lcd s).
Proof.
  destruct s as [ign cm a b cs av od q e c sp l].
  unfold cruise_commands.
  destruct cc_sw, ign; run_task; try reflexivity.
  destruct (_ <d f2d cs); [reflexivity|].
  destruct (f2d cs <d _); reflexivity.
Qed.

Lemma exec_readInputs (e_sw a_sw b_sw : bool) (s : state) :
  exec (readInputs e_sw a_sw b_sw) s =
  mkState e_sw (cruise_mode s)
    (if cruise_mode s then accel s else int2f (Z.b2z a_sw))
    (if cruise_mode s then brakes s else int2f (Z.b2z b_sw))
    (current_speed s) (average_speed s) (odometry s) (avg_speed_queue s)
    e_sw (cruising_indicator s) (speeding_indicator s) (lcd s).
Proof.
  destruct s as [ign cm a b cs av od q e c sp l].
  destruct cm; reflexivity.
Qed.

Lemma exec_calcAverageSpeed (s : state) :
  exec calcAverageSpeed s =
  let avg := queue_sum (avg_speed_queue s)
             /f int2f (Z.of_nat (length (avg_speed_queue s))) in
  mkState (ignition s) (cruise_mode s) (accel s) (brakes s) (current_speed s)
    avg (odometry s) (avg_speed_queue s) (engine_indicator s)
    (cruising_indicator s) (int2f LEGAL_SPEED <f avg) (lcd s).
Proof. destruct s; reflexivity. Qed.

Lemma exec_displayToLCD (s : state) :
  exec displayToLCD s =
  mkState (ignition s) (cruise_mode s) (accel s) (brakes s) (current_speed s)
    (average_speed s) (odometry s) (avg_speed_queue s) (engine_indicator s)
    (cruising_indicator s) (speeding_indicator s)
    (Some (average_speed s, odometry s)).
Proof. destruct s; reflexivity. Qed.

(** ** The log of one iteration of each task *)

Lemma log_readInputs (e_sw a_sw b_sw : bool) (s : state) :
  log (readInputs e_sw a_sw b_sw) s =
  [Lock portMutex; Store v_ignition; Store v_engine_indicator]
  ++ (if cruise_mode s then [] else [Store v_accel; Store v_brakes])
  ++ [Unlock portMutex; Sleep 40].
Proof. destruct s as [ign cm a b cs av od q e c sp l]; destruct cm; reflexivity. Qed.

Lemma log_calcAverageSpeed (s : state) :
  log calcAverageSpeed s =
  [Lock avgSpeedMutex; Store v_average_speed; Store v_speeding_indicator;
   Unlock avgSpeedMutex; Sleep 200].
Proof. reflexivity. Qed.

Lemma log_displayToLCD (s : state) :
  log displayToLCD s =
  [Lock avgSpeedMutex; Lock portMutex; Store v_lcd;
   Unlock avgSpeedMutex; Unlock portMutex; Sleep 500].
Proof. reflexivity. Qed.

Lemma log_cruiseControl (cc_sw : bool) (s : state) :
  log (cruiseControl cc_sw) s =
  [Lock portMutex; Store v_cruise_mode; Store v_cruising_indicator]
  ++ (if cc_sw && ignition s then [Store v_accel; Store v_brakes] else [])
  ++ [Unlock portMutex; Sleep 50].
Proof.
  destruct s as [ign cm a b cs av od q e c sp l].
  destruct cc_sw, ign; run_task; try reflexivity.
  destruct (_ <d f2d cs); [reflexivity|].
  destruct (f2d cs <d _); reflexivity.
Qed.

Lemma log_simulateCar (s : state) :
  log simulateCar s =
  [Lock avgSpeedMutex]
  ++ (if ignition s then [] else [Store v_accel])
  ++ [Store v_current_speed; Store v_current_speed]
  ++ (if drag (pedal_speed s) <f int2f MIN_SPEED
      then [Store v_current_speed] else [])
  ++ (if int2f MAX_SPEED <f
           (if drag (pedal_speed s) <f int2f MIN_SPEED
            then int2f MIN_SPEED else drag (pedal_speed s))
      then [Store v_current_speed] else [])
  ++ (if (3 <? length (avg_speed_queue s))%nat
      then [Store v_avg_speed_queue] else [])
  ++ [Store v_avg_speed_queue; Store v_odometry;
      Unlock avgSpeedMutex; Sleep 40].
Proof.
  destruct s as [ign cm a b cs av od q e c sp l].
  unfold pedal_speed, drag.
  destruct ign; run_task;
    (destruct (_ <f int2f MIN_SPEED); run_task;
     destruct (int2f MAX_SPEED <f _); run_task;
     destruct (3 <? length q)%nat; reflexivity).
Qed.

Lemma lock_order_cases (c : cycle) (s : state) :
  lock_order c s =
  match c with
  | DisplayToLCD => [(avgSpeedMutex, portMutex)]
  | _ => []
  end.
Proof.
  unfold lock_order; destruct c; cbn [body].
  - rewrite log_readInputs; destruct (cruise_mode s); reflexivity.
  - reflexivity.
  - reflexivity.
  - rewrite log_cruiseControl; destruct (cc_sw && ignition s); reflexivity.
  - rewrite log_simulateCar.
    destruct (ignition s), (drag (pedal_speed s) <f int2f MIN_SPEED),
      (int2f MAX_SPEED <f _), (3 <? length (avg_speed_queue s))%nat;
      reflexivity.
Qed.

(** ** The cruise controller's proportional law *)

(** C2.  In an iteration of the cruise controller that reads the cruise
    switch as on while the ignition is on, the pedal commands are set by
    the proportional law: with the threshold [CRUISE_SPEED + FRICTION_BIAS],
    above it the accelerator is 0 and the brake is
    [(speed - CRUISE_SPEED) / CRUISE_SPEED + CRUISE_BIAS]; below it the
    accelerator is [(CRUISE_SPEED - speed) / CRUISE_SPEED + CRUISE_BIAS]
    and the brake is 0; otherwise both are 0. *)
Theorem cruise_proportional_law (s : state) :
  ignition s = true ->
  let s' := exec (cruiseControl true) s in
  let cs := current_speed s in
  let threshold := int2d CRUISE_SPEED +d lit FRICTION_BIAS in
  cruise_mode s' = true /\
  if threshold <d f2d cs then
    accel s' = int2f 0 /\
    brakes s' = d2f (f2d ((cs -f int2f CRUISE_SPEED) /f int2f CRUISE_SPEED)
                     +d lit CRUISE_BIAS)
  else if f2d cs <d threshold then
    accel s' = d2f (f2d ((int2f CRUISE_SPEED -f cs) /f int2f CRUISE_SPEED)
                    +d lit CRUISE_BIAS) /\
    brakes s' = int2f 0
  else
    accel s' = int2f 0 /\ brakes s' = int2f 0.
Proof.
  intros Hign s' cs threshold; subst s'.
  rewrite exec_cruiseControl; cbn [cruise_mode accel brakes andb].
  rewrite Hign; unfold cruise_commands; fold cs; fold threshold.
  split; [reflexivity|].
  destruct (threshold <d f2d cs); [split; reflexivity|].
  destruct (f2d cs <d threshold); split; reflexivity.
Qed.

(** ** Braking with the ignition off *)

(** C7.  With the ignition off, the pedal block of the integrator sets
    the accelerator to 0 whatever it was, and adds [0 - 0.5 * brakes] to
    the speed; drag and the clamps then apply to that speed. *)
Theorem ignition_off_braking (s : state) :
  ignition s = false ->
  let s1 := exec apply_pedals s in
  accel s1 = int2f 0 /\
  current_speed s1 =
    d2f (f2d (current_speed s)
         +d (f2d (int2f 0) -d lit (5 # 10) *d f2d (brakes s))) /\
  accel (exec simulateCar s) = int2f 0 /\
  current_speed (exec simulateCar s) = clamp (drag (current_speed s1)).
Proof.
  intros Hign s1; subst s1.
  rewrite exec_apply_pedals, exec_simulateCar.
  cbn [accel current_speed]; unfold next_speed, pedal_speed.
  rewrite Hign; repeat split.
Qed.

(** ** Who assigns the pedal commands *)

Lemma written_accel (c : cycle) (s : state) :
  written v_accel c s =
  match c with
  | ReadInputs _ _ _ => negb (cruise_mode s)
  | CruiseControl cc_sw => cc_sw && ignition s
  | SimulateCar => negb (ignition s)
  | _ => false
  end.
Proof.
  unfold written; destruct c; cbn [body].
  - rewrite log_readInputs; destruct (cruise_mode s); reflexivity.
  - reflexivity.
  - reflexivity.
  - rewrite log_cruiseControl; destruct (cc_sw && ignition s); reflexivity.
  - rewrite log_simulateCar.
    destruct (ignition s), (drag (pedal_speed s) <f int2f MIN_SPEED),
      (int2f MAX_SPEED <f _), (3 <? length (avg_speed_queue s))%nat;
      reflexivity.
Qed.

Lemma written_brakes (c : cycle) (s : state) :
  written v_brakes c s =
  match c with
  | ReadInputs _ _ _ => negb (cruise_mode s)
  | CruiseControl cc_sw => cc_sw && ignition s
  | _ => false
  end.
Proof.
  unfold written; destruct c; cbn [body].
  - rewrite log_readInputs; destruct (cruise_mode s); reflexivity.
  - reflexivity.
  - reflexivity.
  - rewrite log_cruiseControl; destruct (cc_sw && ignition s); reflexivity.
  - rewrite log_simulateCar.
    destruct (ignition s), (drag (pedal_speed s) <f int2f MIN_SPEED),
      (int2f MAX_SPEED <f _), (3 <? length (avg_speed_queue s))%nat;
      reflexivity.
Qed.

(** C9, amended.  [accel] is assigned by the input sampler exactly in the
    cycles where the cruise mode is off, by the cruise controller exactly
    in the cycles where it reads the cruise switch as on with the ignition
    on, and by the integrator exactly in the cycles where the ignition is
    off; [brakes] is assigned by the first two only, under the same
    conditions; the averager and the display never assign either. *)
Theorem pedal_writers (c : cycle) (s : state) :
  written v_accel c s =
    match c with
    | ReadInputs _ _ _ => negb (cruise_mode s)
    | CruiseControl cc_sw => cc_sw && ignition s
    | SimulateCar => negb (ignition s)
    | CalcAverageSpeed | DisplayToLCD => false
    end /\
  written v_brakes c s =
    match c with
    | ReadInputs _ _ _ => negb (cruise_mode s)
    | CruiseControl cc_sw => cc_sw && ignition s
    | SimulateCar | CalcAverageSpeed | DisplayToLCD => false
    end.
Proof.
  rewrite written_accel, written_brakes; destruct c; split; reflexivity.
Qed.

(** ** The window of previous speeds *)

Lemma lastn_length {X : Type} (n : nat) (l : list X) :
  length (lastn n l) = Nat.min n (length l).
Proof. unfold lastn; rewrite length_skipn; lia. Qed.

Lemma lastn_app_lastn {X : Type} (n : nat) (l l2 : list X) :
  lastn n (lastn n l ++ l2) = lastn n (l ++ l2).
Proof.
  unfold lastn.
  destruct (Nat.le_gt_cases (length l) n) as [Hle|Hgt].
  - replace (length l - n)%nat with 0%nat by lia; reflexivity.
  - rewrite !length_app, length_skipn.
    replace (length l - (length l - n) + length l2 - n)%nat
      with (length l2) by lia.
    replace (length l + length l2 - n)%nat
      with (length l2 + (length l - n))%nat by lia.
    rewrite <- skipn_skipn, (skipn_app (length l - n)).
    replace (length l - n - length l)%nat with 0%nat by lia.
    reflexivity.
Qed.

Lemma enqueue_lastn (q : list Z) (x : Z) :
  (length q <= 4)%nat -> enqueue q x = lastn 4 (q ++ [x]).
Proof.
  intros Hq; unfold enqueue, lastn.
  do 5 (destruct q as [|? q]; [reflexivity|]).
  cbn in Hq; lia.
Qed.

Lemma queue_of_body (c : cycle) (s : state) :
  avg_speed_queue (exec (body c) s) =
  match c with
  | SimulateCar =>
      enqueue (avg_speed_queue s) (f2int (current_speed (exec (body c) s)))
  | _ => avg_speed_queue s
  end.
Proof.
  destruct c; cbn [body].
  - rewrite exec_readInputs; reflexivity.
  - rewrite exec_calcAverageSpeed; reflexivity.
  - rewrite exec_displayToLCD; reflexivity.
  - rewrite exec_cruiseControl; reflexivity.
  - rewrite exec_simulateCar; reflexivity.
Qed.

Lemma queue_of_run (cs : list cycle) (s : state) :
  (length (avg_speed_queue s) <= 4)%nat ->
  avg_speed_queue (run cs s) =
  lastn 4 (avg_speed_queue s ++ map f2int (samples cs s)).
Proof.
  revert s; induction cs as [|c r IH]; intros s Hq.
  - cbn; rewrite app_nil_r; unfold lastn.
    replace (length (avg_speed_queue s) - 4)%nat with 0%nat by lia.
    reflexivity.
  - change (run (c :: r) s) with (run r (exec (body c) s)).
    pose proof (queue_of_body c s) as Hb.
    assert (Hq' : (length (avg_speed_queue (exec (body c) s)) <= 4)%nat).
    { rewrite Hb; destruct c; try exact Hq.
      rewrite enqueue_lastn, lastn_length by exact Hq; lia. }
    rewrite (IH _ Hq'), Hb.
    destruct c; try reflexivity.
    rewrite enqueue_lastn by exact Hq.
    cbn [samples map].
    rewrite lastn_app_lastn, <- app_assoc; reflexivity.
Qed.

(** C4, amended.  After any run from the initial state the window holds
    the integer parts ([int] conversions) of the most recent speeds left
    by the integrator, oldest first: as many as there were integrator
    cycles, and the last four once there were four or more. *)
Theorem speed_window (cs : list cycle) :
  let q := avg_speed_queue (run cs init) in
  let xs := samples cs init in
  length q = Nat.min 4 (length xs) /\
  q = map f2int (lastn 4 xs).
Proof.
  intros q xs; subst q xs.
  rewrite queue_of_run by (cbn; lia).
  cbn [init avg_speed_queue app].
  split.
  - rewrite lastn_length, length_map; reflexivity.
  - unfold lastn; rewrite length_map, skipn_map; reflexivity.
Qed.

(** ** The order in which the mutexes are taken *)

Lemma lock_ops_of_body (c : cycle) (s : state) :
  lock_ops (log (body c) s) = locking (thread_of c).
Proof.
  destruct c; cbn [body thread_of].
  - rewrite log_readInputs; destruct (cruise_mode s); reflexivity.
  - reflexivity.
  - reflexivity.
  - rewrite log_cruiseControl; destruct (cc_sw && ignition s); reflexivity.
  - rewrite log_simulateCar.
    destruct (ignition s), (drag (pedal_speed s) <f int2f MIN_SPEED),
      (int2f MAX_SPEED <f _), (3 <? length (avg_speed_queue s))%nat;
      reflexivity.
Qed.

(** ** Cruise control in closed loop *)

Lemma cruise_cycle_speed (s : state) :
  ignition s = true ->
  ignition (cruise_cycle s) = true /\
  current_speed (cruise_cycle s) = cruise_step (current_speed s).
Proof.
  intros Hign; unfold cruise_cycle, run; cbn [fold_left body].
  rewrite exec_simulateCar, exec_cruiseControl; cbv zeta.
  cbn [ignition current_speed]; split; [exact Hign|].
  unfold next_speed, pedal_speed, cruise_step.
  cbn [ignition accel brakes current_speed andb]; rewrite Hign; reflexivity.
Qed.

Lemma speed_after_iter (n : nat) :
  speed_after n = Nat.iter n cruise_step (int2f 0).
Proof.
  unfold speed_after.
  assert (H : ignition (Nat.iter n cruise_cycle start_cruise) = true /\
              current_speed (Nat.iter n cruise_cycle start_cruise) =
              Nat.iter n cruise_step (int2f 0)).
  { induction n as [|n [IHi IHs]]; [split; reflexivity|].
    rewrite !Nat.iter_succ; destruct (cruise_cycle_speed _ IHi) as [Hi Hs].
    split; [exact Hi | rewrite Hs, IHs; reflexivity]. }
  apply H.
Qed.

(** ** Which task changes which variable *)

(** X8.  Apart from the pedal commands, every variable has one writer:
    an iteration of a task other than the input sampler leaves the
    ignition and its indicator as they were; other than the cruise
    controller, the cruise mode and its indicator; other than the
    integrator, the speed, the odometer and the window; other than the
    averager, the average speed and the speeding indicator; other than
    the display task, the display. *)
Theorem tasks_keep_to_their_variables (c : cycle) (s : state) :
  let s' := exec (body c) s in
  (thread_of c <> thread25Hz ->
     ignition s' = ignition s /\ engine_indicator s' = engine_indicator s) /\
  (thread_of c <> thread20Hz ->
     cruise_mode s' = cruise_mode s /\
     cruising_indicator s' = cruising_indicator s) /\
  (thread_of c <> threadSim ->
     current_speed s' = current_speed s /\ odometry s' = odometry s /\
     avg_speed_queue s' = avg_speed_queue s) /\
  (thread_of c <> thread5Hz ->
     average_speed s' = average_speed s /\
     speeding_indicator s' = speeding_indicator s) /\
  (thread_of c <> thread2Hz -> lcd s' = lcd s).
Proof.
  intros s'; subst s'; destruct c; cbn [body thread_of];
    rewrite ?exec_readInputs, ?exec_calcAverageSpeed, ?exec_displayToLCD,
      ?exec_cruiseControl, ?exec_simulateCar; cbv zeta;
    repeat split; try reflexivity; congruence.
Qed.

(** ** The indicators *)

Lemma indicators_of_body (c : cycle) (s : state) :
  engine_indicator s = ignition s ->
  (cruising_indicator s = true -> cruise_mode s = true) ->
  engine_indicator (exec (body c) s) = ignition (exec (body c) s) /\
  (cruising_indicator (exec (body c) s) = true ->
   cruise_mode (exec (body c) s) = true).
Proof.
  intros He Hc; destruct c; cbn [body];
    rewrite ?exec_readInputs, ?exec_calcAverageSpeed, ?exec_displayToLCD,
      ?exec_cruiseControl, ?exec_simulateCar; cbv zeta;
    cbn [engine_indicator ignition cruising_indicator cruise_mode];
    split; try assumption; try reflexivity.
  destruct (ignition s); [trivial | discriminate].
Qed.

Lemma indicators_of_run (cs : list cycle) (s : state) :
  engine_indicator s = ignition s ->
  (cruising_indicator s = true -> cruise_mode s = true) ->
  engine_indicator (run cs s) = ignition (run cs s) /\
  (cruising_indicator (run cs s) = true -> cruise_mode (run cs s) = true).
Proof.
  revert s; induction cs as [|c r IH]; intros s He Hc; [split; assumption|].
  change (run (c :: r) s) with (run r (exec (body c) s)).
  destruct (indicators_of_body c s He Hc) as [He' Hc'].
  apply IH; assumption.
Qed.

(** X9.  After any run from the initial state the engine indicator
    shows the ignition, and the cruising indicator is on only if the
    cruise mode is on; an iteration of the cruise controller sets the
    cruising indicator to the ignition and the cruise switch together.
    Between two such iterations the indicator is not updated: after the
    ignition is switched off it stays on until the cruise controller runs
    again. *)
Theorem indicators_follow_switches :
  (forall cs : list cycle,
      let s := run cs init in
      engine_indicator s = ignition s /\
      (cruising_indicator s = true -> cruise_mode s = true) /\
      (forall cc : bool,
          cruising_indicator (exec (cruiseControl cc) s) = ignition s && cc))
  /\
  (let s := run [ReadInputs true false false; CruiseControl true;
                 ReadInputs false false false] init in
   ignition s = false /\ cruising_indicator s = true).
Proof.
  split.
  - intros cs s; subst s.
    destruct (indicators_of_run cs init eq_refl) as [He Hc];
      [discriminate|].
    split; [exact He | split; [exact Hc|]].
    intros cc; rewrite exec_cruiseControl; cbv zeta.
    cbn [cruising_indicator]; destruct (ignition (run cs init)); reflexivity.
  - unfold run; cbn [fold_left body].
    rewrite exec_readInputs, exec_cruiseControl, exec_readInputs.
    split; reflexivity.
Qed.

(** ** The brake switch with the ignition off and the cruise switch on *)

Lemma frozen_brakes_body (c : cycle) (s : state) :
  ignition s = false -> cruise_mode s = true ->
  cruise_without_ignition c = true ->
  let s' := exec (body c) s in
  ignition s' = false /\ cruise_mode s' = true /\ brakes s' = brakes s /\
  (accel s' = accel s \/ accel s' = int2f 0).
Proof.
  intros Hi Hm Hc s'; subst s'; destruct c; cbn [body];
    rewrite ?exec_readInputs, ?exec_calcAverageSpeed, ?exec_displayToLCD,
      ?exec_cruiseControl, ?exec_simulateCar; cbv zeta;
    cbn [ignition cruise_mode brakes accel]; cbn in Hc;
    rewrite ?Hi, ?Hm; cbn [andb].
  - destruct engine_sw; [discriminate|]; auto.
  - auto.
  - auto.
  - subst cc_sw; auto.
  - auto.
Qed.

(** X10.  While the ignition is off and the cruise switch is on, the
    brake switch has no effect: the input sampler does not read the
    pedals, because the cruise mode is on, and the cruise controller does
    not set them, because the ignition is off.  Through any run the brake
    command keeps its value, and the accelerator command keeps its value
    or is the 0 the integrator stores. *)
Theorem brake_switch_ignored (cs : list cycle) (s : state) :
  ignition s = false -> cruise_mode s = true ->
  forallb cruise_without_ignition cs = true ->
  brakes (run cs s) = brakes s /\
  (accel (run cs s) = accel s \/ accel (run cs s) = int2f 0).
Proof.
  revert s; induction cs as [|c r IH]; intros s Hi Hm Hcs; [auto|].
  cbn [forallb] in Hcs; apply andb_true_iff in Hcs; destruct Hcs as [Hc Hr].
  change (run (c :: r) s) with (run r (exec (body c) s)).
  destruct (frozen_brakes_body c s Hi Hm Hc) as [Hi' [Hm' [Hb Ha]]].
  destruct (IH _ Hi' Hm' Hr) as [Hb' Ha'].
  split; [congruence|].
  destruct Ha' as [Ha'|Ha']; [|right; exact Ha'].
  destruct Ha as [Ha|Ha]; [left | right]; congruence.
Qed.

(** ** Manual driving with the switches held *)

Lemma integrations_cons (c : cycle) (cs : list cycle) :
  integrations (c :: cs) =
  match c with
  | SimulateCar => S (integrations cs)
  | _ => integrations cs
  end.
Proof. destruct c; reflexivity. Qed.

Lemma held_body (e a b : bool) (c : cycle) (s : state) :
  held_state e a b s -> holding e a b c = true ->
  held_state e a b (exec (body c) s) /\
  current_speed (exec (body c) s) =
  match c with
  | SimulateCar => manual_step e a b (current_speed s)
  | _ => current_speed s
  end.
Proof.
  intros [Hi [Hm [Hb Ha]]] Hc; unfold held_state; destruct c; cbn [body];
    rewrite ?exec_readInputs, ?exec_calcAverageSpeed, ?exec_displayToLCD,
      ?exec_cruiseControl, ?exec_simulateCar; cbv zeta;
    cbn [ignition cruise_mode brakes accel current_speed]; cbn in Hc;
    rewrite ?Hm.
  - apply andb_true_iff in Hc; destruct Hc as [Hc Hc3].
    apply andb_true_iff in Hc; destruct Hc as [Hc1 Hc2].
    apply eqb_prop in Hc1, Hc2, Hc3; subst; repeat split; auto.
  - repeat split; auto.
  - repeat split; auto.
  - apply negb_true_iff in Hc; subst cc_sw; cbn [andb]; repeat split; auto.
  - split.
    + rewrite Hi; destruct e; [tauto|].
      repeat split; auto.
    + unfold next_speed, manual_step, pedal_speed; rewrite Hi, Hb.
      destruct e; [|reflexivity].
      destruct Ha as [Ha|[Ha _]]; [rewrite Ha; reflexivity | discriminate].
Qed.

Lemma held_run (e a b : bool) (cs : list cycle) (s : state) :
  held_state e a b s -> forallb (holding e a b) cs = true ->
  held_state e a b (run cs s) /\
  current_speed (run cs s) =
  Nat.iter (integrations cs) (manual_step e a b) (current_speed s).
Proof.
  revert s; induction cs as [|c r IH]; intros s Hs Hcs; [split; trivial|].
  cbn [forallb] in Hcs; apply andb_true_iff in Hcs; destruct Hcs as [Hc Hr].
  change (run (c :: r) s) with (run r (exec (body c) s)).
  destruct (held_body e a b c s Hs Hc) as [Hs' Hv].
  destruct (IH _ Hs' Hr) as [Hs'' Hv'].
  split; [exact Hs''|].
  rewrite Hv', Hv, integrations_cons; destruct c; try reflexivity.
  rewrite Nat.iter_succ_r; reflexivity.
Qed.

Lemma held_after_readInputs (e a b : bool) (s : state) :
  cruise_mode s = false ->
  held_state e a b (exec (readInputs e a b) s) /\
  current_speed (exec (readInputs e a b) s) = current_speed s.
Proof.
  intros Hm; rewrite exec_readInputs; unfold held_state.
  cbn [ignition cruise_mode brakes accel current_speed]; rewrite Hm.
  repeat split; auto.
Qed.

Lemma manual_run_speed (e a b : bool) (cs : list cycle) (s : state) :
  cruise_mode s = false -> forallb (holding e a b) cs = true ->
  current_speed (run (ReadInputs e a b :: cs) s) =
  Nat.iter (integrations cs) (manual_step e a b) (current_speed s).
Proof.
  intros Hm Hcs.
  change (run (ReadInputs e a b :: cs) s)
    with (run cs (exec (readInputs e a b) s)).
  destruct (held_after_readInputs e a b s Hm) as [Hs Hv].
  destruct (held_run e a b cs _ Hs Hcs) as [_ H]; rewrite H, Hv; reflexivity.
Qed.

(** X11.  With the cruise mode off and the switches held, the ignition
    switch on or the accelerator switch off (so that the input sampler
    and the integrator never store different values in [accel]), the
    speed depends on the number of integrator cycles only: after an
    iteration of the input sampler and any run of the five tasks, in any
    order, the speed is the speed before with [manual_step] applied once
    per integrator cycle; the ignition and the brake command are the
    switch values and the cruise mode is still off. *)
Theorem held_switches_drive_the_speed
    (e a b : bool) (cs : list cycle) (s : state) :
  e || negb a = true ->
  cruise_mode s = false -> forallb (holding e a b) cs = true ->
  let s' := run (ReadInputs e a b :: cs) s in
  current_speed s' =
    Nat.iter (integrations cs) (manual_step e a b) (current_speed s) /\
  ignition s' = e /\ cruise_mode s' = false /\
  brakes s' = int2f (Z.b2z b).
Proof.
  intros _ Hm Hcs s'; subst s'; split; [apply manual_run_speed; assumption|].
  change (run (ReadInputs e a b :: cs) s)
    with (run cs (exec (readInputs e a b) s)).
  destruct (held_after_readInputs e a b s Hm) as [Hs _].
  destruct (held_run e a b cs _ Hs Hcs) as [[Hi [Hm' [Hb _]]] _]; auto.
Qed.

(** ** The mutexes held at the assignments and at the sleeps *)

Lemma stores_under_body (c : cycle) (s : state) (x : var) (held : list mutex) :
  In (x, held) (stores_under [] (log (body c) s)) ->
  match c with
  | ReadInputs _ _ _ =>
      held = [portMutex] /\
      (x = v_ignition \/ x = v_engine_indicator \/
       (cruise_mode s = false /\ (x = v_accel \/ x = v_brakes)))
  | CruiseControl cc =>
      held = [portMutex] /\
      (x = v_cruise_mode \/ x = v_cruising_indicator \/
       (cc && ignition s = true /\ (x = v_accel \/ x = v_brakes)))
  | CalcAverageSpeed =>
      held = [avgSpeedMutex] /\
      (x = v_average_speed \/ x = v_speeding_indicator)
  | DisplayToLCD => held = [portMutex; avgSpeedMutex] /\ x = v_lcd
  | SimulateCar =>
      held = [avgSpeedMutex] /\
      (x = v_current_speed \/ x = v_avg_speed_queue \/ x = v_odometry \/
       (ignition s = false /\ x = v_accel))
  end.
Proof.
  destruct c; cbn [body].
  - rewrite log_readInputs; destruct (cruise_mode s); cbn;
      intros H; repeat (destruct H as [H|H]; [inversion H; subst; tauto|]);
      contradiction.
  - rewrite log_calcAverageSpeed; cbn;
      intros H; repeat (destruct H as [H|H]; [inversion H; subst; tauto|]);
      contradiction.
  - rewrite log_displayToLCD; cbn;
      intros H; repeat (destruct H as [H|H]; [inversion H; subst; tauto|]);
      contradiction.
  - rewrite log_cruiseControl; destruct (cc_sw && ignition s); cbn;
      intros H; repeat (destruct H as [H|H]; [inversion H; subst; tauto|]);
      contradiction.
  - rewrite log_simulateCar.
    destruct (ignition s), (drag (pedal_speed s) <f int2f MIN_SPEED),
      (int2f MAX_SPEED <f _), (3 <? length (avg_speed_queue s))%nat; cbn;
      intros H; repeat (destruct H as [H|H]; [inversion H; subst; tauto|]);
      contradiction.
Qed.

(** X12.  Every assignment of every task is made with a mutex held,
    and all the assignments to a variable other than [accel] are made
    under the same mutexes.  [accel] is the exception: the integrator
    assigns it holding [avgSpeedMutex] only, the input sampler holding
    [portMutex] only, and the threads of the two can hold their mutexes
    at the same time, so no mutex orders these two assignments. *)
Theorem assignments_and_their_mutexes :
  (forall (c : cycle) (s : state) (x : var) (held : list mutex),
      In (x, held) (stores_under [] (log (body c) s)) -> held <> []) /\
  (forall (c1 c2 : cycle) (s1 s2 : state) (x : var) (h1 h2 : list mutex),
      In (x, h1) (stores_under [] (log (body c1) s1)) ->
      In (x, h2) (stores_under [] (log (body c2) s2)) ->
      x <> v_accel -> h1 = h2) /\
  (forall s : state,
      ignition s = false ->
      In (v_accel, [avgSpeedMutex]) (stores_under [] (log simulateCar s))) /\
  (forall (e a b : bool) (s : state),
      cruise_mode s = false ->
      In (v_accel, [portMutex]) (stores_under [] (log (readInputs e a b) s))) /\
  (exists ts : list thread,
      holds (schedule ts start) threadSim avgSpeedMutex = true /\
      holds (schedule ts start) thread25Hz portMutex = true).
Proof.
  split; [|split; [|split; [|split]]].
  - intros c s x held H; apply stores_under_body in H.
    destruct c; destruct H as [H _]; subst held; discriminate.
  - intros c1 c2 s1 s2 x h1 h2 H1 H2 Hx.
    apply stores_under_body in H1; apply stores_under_body in H2.
    destruct c1, c2; destruct H1 as [E1 H1], H2 as [E2 H2]; subst h1 h2;
      try reflexivity; exfalso;
      repeat match goal with
             | H : _ \/ _ |- _ => destruct H
             | H : _ /\ _ |- _ => destruct H
             end; subst; try discriminate; contradiction.
  - intros s Hi; rewrite log_simulateCar, Hi; left; reflexivity.
  - intros e a b s Hm; rewrite log_readInputs, Hm; cbn; auto.
  - exists [threadSim; thread25Hz]; split; reflexivity.
Qed.

(** X13.  Every iteration of a task sleeps once, as its last
    operation, with no mutex held: 40 ms in the input sampler and in the
    integrator, 200 ms in the averager, 500 ms in the display task and
    50 ms in the cruise controller. *)
Theorem sleeps_hold_no_mutex (c : cycle) (s : state) :
  let ms := match c with
            | ReadInputs _ _ _ => 40
            | CalcAverageSpeed => 200
            | DisplayToLCD => 500
            | CruiseControl _ => 50
            | SimulateCar => 40
            end in
  sleeps_under [] (log (body c) s) = [(ms, [])] /\
  last (log (body c) s) (Sleep 0) = Sleep ms.
Proof.
  destruct c; cbn [body].
  - rewrite log_readInputs; destruct (cruise_mode s); split; reflexivity.
  - split; reflexivity.
  - split; reflexivity.
  - rewrite log_cruiseControl; destruct (cc_sw && ignition s);
      split; reflexivity.
  - rewrite log_simulateCar.
    destruct (ignition s), (drag (pedal_speed s) <f int2f MIN_SPEED),
      (int2f MAX_SPEED <f _), (3 <? length (avg_speed_queue s))%nat;
      split; reflexivity.
Qed.

Lemma enqueue_Forall (P : Z -> Prop) (q : list Z) (x : Z) :
  Forall P q -> P x -> Forall P (enqueue q x).
Proof.
  intros Hq Hx; unfold enqueue; apply Forall_app; split; [|auto].
  destruct (3 <? length q)%nat; [|exact Hq].
  destruct q; [exact Hq | inversion Hq; assumption].
Qed.

Lemma window_filled_body (c : cycle) (s : state) :
  avg_speed_queue s <> [] -> avg_speed_queue (exec (body c) s) <> [].
Proof.
  intros Hne; rewrite queue_of_body; destruct c; try exact Hne.
  unfold enqueue; intros H; apply app_eq_nil in H; destruct H; discriminate.
Qed.

Lemma window_filled_run (cs : list cycle) (s : state) :
  avg_speed_queue s <> [] -> avg_speed_queue (run cs s) <> [].
Proof.
  revert s; induction cs as [|c r IH]; intros s Hne; [exact Hne|].
  apply (IH (exec (body c) s)), window_filled_body, Hne.
Qed.

Lemma window_filled (cs1 cs2 : list cycle) (s : state) :
  avg_speed_queue (run (cs1 ++ SimulateCar :: cs2) s) <> [].
Proof.
  unfold run; rewrite fold_left_app; cbn [fold_left]; apply window_filled_run.
  cbn [body]; rewrite exec_simulateCar; cbn [avg_speed_queue].
  unfold enqueue; intros H; apply app_eq_nil in H; destruct H; discriminate.
Qed.

End Generic.

(** * Interleavings of the five threads *)

Lemma in_range_advance (cfg : config) (t : thread) :
  in_range cfg = true -> in_range (advance cfg t) = true.
Proof.
  destruct cfg as [a b c d e].
  destruct a as [|[|[|[|a]]]], b as [|[|b]], c as [|[|c]], d as [|[|d]],
    e as [|[|e]]; try discriminate; intros _; destruct t; reflexivity.
Qed.

Lemma reachable_in_range (cfg : config) :
  reachable cfg -> in_range cfg = true.
Proof.
  induction 1 as [|cfg t _ IH _]; [reflexivity|].
  apply in_range_advance, IH.
Qed.

Lemma in_range_enabled (cfg : config) :
  in_range cfg = true -> existsb (enabled cfg) all_threads = true.
Proof.
  destruct cfg as [a b c d e].
  destruct a as [|[|[|[|a]]]], b as [|[|b]], c as [|[|c]], d as [|[|d]],
    e as [|[|e]]; try discriminate; intros _; reflexivity.
Qed.

Lemma no_deadlock (cfg : config) :
  reachable cfg -> exists t, enabled cfg t = true.
Proof.
  intros Hr.
  pose proof (in_range_enabled cfg (reachable_in_range cfg Hr)) as He.
  apply existsb_exists in He; destruct He as [t [_ Ht]]; exists t; exact Ht.
Qed.

Lemma schedule_reachable (ts : list thread) (cfg : config) :
  reachable cfg -> reachable (schedule ts cfg).
Proof.
  revert cfg; induction ts as [|t r IH]; intros cfg Hr; [exact Hr|].
  cbn [schedule]; apply IH.
  destruct (enabled cfg t) eqn:He; [apply reach_step; assumption | exact Hr].
Qed.

Lemma exclusive_advance (cfg : config) (t : thread) :
  in_range cfg = true -> exclusive cfg = true -> enabled cfg t = true ->
  exclusive (advance cfg t) = true.
Proof.
  destruct cfg as [a b c d e].
  destruct a as [|[|[|[|a]]]], b as [|[|b]], c as [|[|c]], d as [|[|d]],
    e as [|[|e]]; try discriminate; intros _;
    destruct t; cbv; intros; congruence.
Qed.

Lemma mutual_exclusion (cfg : config) :
  reachable cfg -> exclusive cfg = true.
Proof.
  induction 1 as [|cfg t Hr IH He]; [reflexivity|].
  apply exclusive_advance; [apply reachable_in_range| |]; assumption.
Qed.

Lemma in_range_unblocks (cfg : config) (t : thread) :
  in_range cfg = true -> exclusive cfg = true -> unblocks 2 cfg t = true.
Proof.
  destruct cfg as [a b c d e].
  destruct a as [|[|[|[|a]]]], b as [|[|b]], c as [|[|c]], d as [|[|d]],
    e as [|[|e]]; try discriminate; intros _;
    destruct t; cbv; intros; congruence.
Qed.

(** The bound of two waits is reached: after the display thread has
    taken [avgSpeedMutex] and the input thread [portMutex], the averager
    waits for the display thread, which waits for the input thread. *)
Example wait_chain :
  schedule [thread2Hz; thread25Hz] start = mkConfig 1 0 0 0 1 /\
  unblocks 1 (mkConfig 1 0 0 0 1) thread5Hz = false /\
  unblocks 2 (mkConfig 1 0 0 0 1) thread5Hz = true.
Proof. repeat split. Qed.

(** C10, amended.  The only task that takes a mutex while it holds
    another is the display task, and it takes the motion domain's mutex
    ([avgSpeedMutex]) first and the input domain's ([portMutex]) second.
    The mutex operations of an iteration of each task are those of
    [locking], whatever the state and the switches; and under every
    schedule of the five threads every thread can run or waits, through
    at most two mutexes, for a thread that can run: the mutexes cannot
    deadlock. *)
Theorem lock_order_motion_then_input :
  (forall (A : Arith) (c : cycle) (s : state),
      lock_order c s =
      match c with
      | DisplayToLCD => [(avgSpeedMutex, portMutex)]
      | _ => []
      end) /\
  (forall (A : Arith) (c : cycle) (s : state),
      lock_ops (log (body c) s) = locking (thread_of c)) /\
  (forall (ts : list thread) (t : thread),
      unblocks 2 (schedule ts start) t = true).
Proof.
  split; [|split].
  - intros A c s; apply lock_order_cases.
  - intros A c s; apply lock_ops_of_body.
  - intros ts t.
    assert (Hr : reachable (schedule ts start))
      by apply schedule_reachable, reach_start.
    apply in_range_unblocks;
      [apply reachable_in_range | apply mutual_exclusion]; exact Hr.
Qed.

(** * Sums and means of integers *)

Section Means.

Local Open Scope Q_scope.

Lemma sum_bounds (k : Z) (q : list Z) :
  Forall (fun x => (0 <= x <= k)%Z) q ->
  (0 <= fold_right Z.add 0 q <= k * Z.of_nat (length q))%Z.
Proof.
  induction 1 as [|x r Hx _ IH]; [cbn; lia|].
  cbn [fold_right length]; rewrite Nat2Z.inj_succ; lia.
Qed.

Lemma sum_upper (k : Z) (q : list Z) :
  Forall (fun x => (x <= k)%Z) q ->
  (fold_right Z.add 0 q <= k * Z.of_nat (length q))%Z.
Proof.
  induction 1 as [|x r Hx _ IH]; [cbn; lia|].
  cbn [fold_right length]; rewrite Nat2Z.inj_succ; lia.
Qed.

Lemma mean_le (k : Z) (q : list Z) :
  q <> [] -> (fold_right Z.add 0 q <= k * Z.of_nat (length q))%Z ->
  mean q <= inject_Z k.
Proof.
  intros Hne Hs; unfold mean.
  assert (Hn : (0 < Z.of_nat (length q))%Z)
    by (destruct q; [contradiction | cbn [length]; lia]).
  apply Qle_shift_div_r.
  - rewrite <- (Zlt_Qlt 0); exact Hn.
  - rewrite <- inject_Z_mult, <- Zle_Qle; exact Hs.
Qed.

End Means.

(** * Properties of the program on the target's arithmetic *)

Section IEEEArith.

Existing Instance IEEE.arith.

(** ** Cruise control converges to a periodic orbit *)

Lemma sf_eqb_eq (x y : spec_float) : sf_eqb x y = true -> x = y.
Proof.
  destruct x, y; cbn; try discriminate; try reflexivity.
  - intros H; apply eqb_prop in H; congruence.
  - intros H; apply eqb_prop in H; congruence.
  - rewrite !andb_true_iff; intros [[H1 H2] H3].
    apply eqb_prop in H1; apply Pos.eqb_eq in H2; apply Z.eqb_eq in H3.
    congruence.
Qed.

Lemma in_bandb_sound (x : flt) : in_bandb x = true -> in_band x.
Proof.
  unfold in_bandb, in_band; destruct (fval x); [|discriminate].
  rewrite andb_true_iff, !Qle_bool_iff; trivial.
Qed.

Lemma overshootb_sound (d : Q) (x : flt) :
  overshootb d x = true -> overshoot d x.
Proof.
  unfold overshootb, overshoot; destruct (fval x); [|discriminate].
  rewrite andb_true_iff, !Qltb_true; trivial.
Qed.

Lemma orbit_reached :
  Nat.iter settling_time cruise_step (int2f 0) = orbit_head.
Proof. vm_compute; reflexivity. Qed.

Lemma orbit_period : Nat.iter period cruise_step orbit_head = orbit_head.
Proof. vm_compute; reflexivity. Qed.

Lemma orbit_entered : In orbit_head orbit.
Proof. left; reflexivity. Qed.

Lemma orbit_closed :
  forallb (fun x => existsb (sf_eqb (cruise_step x)) orbit) orbit = true.
Proof. vm_compute; reflexivity. Qed.

Lemma orbit_settled : forallb settledb orbit = true.
Proof. vm_compute; reflexivity. Qed.

Lemma In_orbit (x : flt) : existsb (sf_eqb x) orbit = true -> In x orbit.
Proof.
  intros H; apply existsb_exists in H; destruct H as [y [Hy He]].
  apply sf_eqb_eq in He; subst y; exact Hy.
Qed.

Lemma orbit_invariant (k : nat) :
  In (Nat.iter (k + settling_time) cruise_step (int2f 0)) orbit.
Proof.
  induction k as [|k IH].
  - change (0 + settling_time)%nat with settling_time.
    rewrite orbit_reached; exact orbit_entered.
  - change (S k + settling_time)%nat with (S (k + settling_time)).
    rewrite Nat.iter_succ.
    pose proof orbit_closed as Hc; rewrite forallb_forall in Hc.
    apply In_orbit, Hc, IH.
Qed.

(** C3, amended.  From rest, with the ignition and the cruise mode on, the speed
    under the cruise controller and the integrator settles: from cycle
    729 on, at every cycle the speed is within [FRICTION_BIAS] of
    [CRUISE_SPEED], or it overshoots that band by less than 1/100 and is
    back inside it at the next cycle; no overshoot lasts two cycles. *)
Theorem cruise_control_settles :
  exists N, forall n, (N <= n)%nat -> settled n.
Proof.
  exists settling_time; intros n Hn.
  replace n with ((n - settling_time) + settling_time)%nat by lia.
  pose proof (orbit_invariant (n - settling_time)) as Hin.
  pose proof orbit_settled as Hs; rewrite forallb_forall in Hs.
  specialize (Hs _ Hin); unfold settled.
  rewrite !speed_after_iter, Nat.iter_succ.
  unfold settledb in Hs.
  apply orb_true_iff in Hs; destruct Hs as [Hs|Hs].
  - left; apply in_bandb_sound, Hs.
  - apply andb_true_iff in Hs; destruct Hs as [Ho Hb].
    right; split; [apply overshootb_sound, Ho | apply in_bandb_sound, Hb].
Qed.

Lemma orbit_periodic (k : nat) :
  Nat.iter (k * period + settling_time) cruise_step (int2f 0) = orbit_head.
Proof.
  induction k as [|k IH].
  - change (0 * period + settling_time)%nat with settling_time.
    exact orbit_reached.
  - replace (S k * period + settling_time)%nat
      with (period + (k * period + settling_time))%nat by lia.
    rewrite Nat.iter_add, IH; exact orbit_period.
Qed.

(** X1.  The overshoot never dies out: after any cycle [N] there is a
    cycle at which the speed is above the band, by less than 1/100. *)
Theorem overshoot_recurs (N : nat) :
  exists n, (N <= n)%nat /\ overshoot (1 # 100) (speed_after n).
Proof.
  exists (13 + (N * period + settling_time))%nat; split.
  - unfold period, settling_time; lia.
  - rewrite speed_after_iter, Nat.iter_add, orbit_periodic.
    apply overshootb_sound; vm_compute; reflexivity.
Qed.

(** ** No spontaneous motion *)

Lemma rest_invariant (ts : list thread) (s : state) :
  ignition s = false -> cruise_mode s = false ->
  accel s = S754_zero false -> brakes s = S754_zero false ->
  current_speed s = S754_zero false -> odometry s = S754_zero false ->
  current_speed (run (map idle ts) s) = S754_zero false /\
  odometry (run (map idle ts) s) = S754_zero false.
Proof.
  revert s; induction ts as [|t r IH]; intros s Hi Hm Ha Hb Hc Ho;
    [split; assumption|].
  cbn [map]; change (run (idle t :: map idle r) s)
    with (run (map idle r) (exec (body (idle t)) s)).
  destruct s as [ign cm a b cs av od q e c sp l]; cbn in Hi, Hm, Ha, Hb, Hc, Ho.
  subst; apply IH; destruct t; cbn [idle body];
    rewrite ?exec_readInputs, ?exec_calcAverageSpeed, ?exec_displayToLCD,
      ?exec_cruiseControl, ?exec_simulateCar; reflexivity.
Qed.

(** X4.  With every switch off the car stays at rest under every
    schedule: the speed and the odometer remain 0. *)
Theorem rest_stays_at_rest (ts : list thread) :
  current_speed (run (map idle ts) init) = int2f 0 /\
  odometry (run (map idle ts) init) = int2f 0.
Proof. apply rest_invariant; reflexivity. Qed.

(** ** The average of an empty window *)

Lemma average_of_empty (s : state) :
  avg_speed_queue s = [] ->
  average_speed (exec calcAverageSpeed s) = S754_nan /\
  speeding_indicator (exec calcAverageSpeed s) = false.
Proof.
  intros Hq; rewrite exec_calcAverageSpeed; cbv zeta.
  cbn [average_speed speeding_indicator]; rewrite Hq; split; reflexivity.
Qed.

(** C6 fails on the code.  Before the first integrator cycle the window
    is empty, and an iteration of the averager divides zero by zero:
    [average_speed] becomes a NaN, not 0.  The speeding indicator is off,
    because a NaN compares false with [LEGAL_SPEED]. *)
Theorem average_of_empty_window_is_nan :
  let s' := exec calcAverageSpeed init in
  avg_speed_queue init = [] /\
  average_speed s' = S754_nan /\
  fval (average_speed s') = None /\
  speeding_indicator s' = false.
Proof. repeat split. Qed.

(** X7.  On the target, the windows 150, 150, 150, 150 and
    100, 150, 150, 150 give the averages 150 (indicator on) and 137.5
    (indicator off). *)
Lemma average_on_target :
  let s1 := exec calcAverageSpeed
              (mkState true false (int2f 0) (int2f 0) (int2f 150) (int2f 0)
                 (int2f 0) [150; 150; 150; 150] true false false None) in
  let s2 := exec calcAverageSpeed
              (mkState true false (int2f 0) (int2f 0) (int2f 150) (int2f 0)
                 (int2f 0) [100; 150; 150; 150] true false false None) in
  fval (average_speed s1) = Some (9830400 # 65536) /\
  speeding_indicator s1 = true /\
  fval (average_speed s2) = Some (9011200 # 65536) /\
  speeding_indicator s2 = false.
Proof. vm_compute; repeat split. Qed.

(** ** Counterexamples to the specification's wording *)

(** C4 as worded fails: with the accelerator switch on, the first four
    speeds are 0.999, 1.997001, ... and the window holds 0, 1, 2, 3. *)
Lemma window_entries_are_truncated :
  avg_speed_queue
    (run [ReadInputs true true false;
          SimulateCar; SimulateCar; SimulateCar; SimulateCar] init)
  = [0; 1; 2; 3] /\
  ~ window_holds_speeds
      [ReadInputs true true false;
       SimulateCar; SimulateCar; SimulateCar; SimulateCar].
Proof.
  split; [vm_compute; reflexivity|].
  intros [_ H]; vm_compute in H.
  inversion H as [|x y q r Hxy _]; subst.
  vm_compute in Hxy; discriminate.
Qed.

(** C9 as worded fails: with the ignition off the integrator assigns
    [accel]. *)
Lemma integrator_assigns_accel : ~ pedals_single_writer.
Proof. intros H; exact (H SimulateCar init eq_refl). Qed.

(** C10 as worded fails: the display task holds the motion domain's
    mutex when it takes the input domain's. *)
Lemma display_locks_motion_first : ~ input_before_motion.
Proof.
  intros H.
  specialize (H DisplayToLCD init (avgSpeedMutex, portMutex) (or_introl eq_refl)).
  discriminate.
Qed.

(** C3 as worded fails: the speed leaves the band again after every
    cycle [N], 13 cycles after a return to the head of the orbit. *)
Lemma band_is_left_forever : ~ stays_in_band.
Proof.
  intros [N H].
  specialize (H (13 + (N * period + settling_time))%nat
                ltac:(unfold period, settling_time; lia)).
  rewrite speed_after_iter, Nat.iter_add, orbit_periodic in H.
  vm_compute in H.
  destruct H as [_ H]; apply H; reflexivity.
Qed.

(** C5 as worded fails: after the speeds 0.999, 1.997 and 1.995 the
    window holds 0, 1, 1, whose mean 2/3 is not a [float]; the averager
    stores 11184811 / 2 ^ 24. *)
Lemma mean_is_rounded :
  let s := run [ReadInputs true true false; SimulateCar; SimulateCar;
                ReadInputs true false false; SimulateCar] init in
  avg_speed_queue s = [0; 1; 1] /\
  average_speed (exec calcAverageSpeed s) = S754_finite false 11184811 (-24) /\
  ~ average_is_the_mean.
Proof.
  split; [vm_compute; reflexivity|].
  split; [vm_compute; reflexivity|].
  intros H.
  specialize (H (run [ReadInputs true true false; SimulateCar; SimulateCar;
                      ReadInputs true false false; SimulateCar] init)
                ltac:(vm_compute; discriminate)).
  destruct H as [v [Hv [Hm _]]].
  vm_compute in Hv; injection Hv as Hv; subst v.
  vm_compute in Hm; discriminate.
Qed.

(** C8 as worded fails: in the first cycle with the accelerator switch on
    the speed becomes 16760439 / 2 ^ 24 and the odometer
    10726681 / 2 ^ 28, which is not that speed times 1/25. *)
Lemma odometry_increase_is_rounded :
  let s := run [ReadInputs true true false] init in
  odometry s = S754_zero false /\
  current_speed (exec simulateCar s) = S754_finite false 16760439 (-24) /\
  odometry (exec simulateCar s) = S754_finite false 10726681 (-28) /\
  ~ odometry_adds_speed_exactly.
Proof.
  split; [vm_compute; reflexivity|].
  split; [vm_compute; reflexivity|].
  split; [vm_compute; reflexivity|].
  intros H; specialize (H [ReadInputs true true false]); cbv zeta in H.
  destruct H as [o [o' [c [Ho [Ho' [Hc [He _]]]]]]].
  vm_compute in Ho, Ho', Hc.
  injection Ho as Ho; injection Ho' as Ho'; injection Hc as Hc; subst o o' c.
  vm_compute in He; discriminate.
Qed.

(** ** The theorems with a hypothesis, at a concrete state *)

Lemma cruise_proportional_law_at_rest :
  ignition start_cruise = true /\
  accel (exec (cruiseControl true) start_cruise)
  = S754_finite false 9227469 (-23) /\
  brakes (exec (cruiseControl true) start_cruise) = S754_zero false.
Proof.
  split; [reflexivity|].
  pose proof (cruise_proportional_law start_cruise eq_refl) as H.
  cbv zeta in H; destruct H as [_ H].
  exact H.
Defined.

(** The ignition is switched off at the speed 1.997 with both pedal
    switches pressed: the accelerator command goes from 1 to 0, and the
    pedal block takes 0.5, half the brake command, off the speed. *)
Lemma ignition_off_braking_while_moving :
  let s := run [ReadInputs true true false; SimulateCar; SimulateCar;
                ReadInputs false true true] init in
  ignition s = false /\
  accel s = int2f 1 /\ brakes s = int2f 1 /\
  fval (current_speed s) = Some (16752059 # 8388608) /\
  accel (exec apply_pedals s) = int2f 0 /\
  fval (current_speed (exec apply_pedals s)) = Some (12557755 # 8388608) /\
  accel (exec simulateCar s) = int2f 0 /\
  current_speed (exec simulateCar s) =
    clamp (drag (current_speed (exec apply_pedals s))).
Proof.
  intros s.
  assert (Hi : ignition s = false) by reflexivity.
  destruct (ignition_off_braking s Hi) as [H1 [H2 [H3 H4]]].
  split; [exact Hi|].
  split; [reflexivity|].
  split; [reflexivity|].
  split; [reflexivity|].
  split; [exact H1|].
  split; [rewrite H2; reflexivity|].
  split; [exact H3 | exact H4].
Defined.

End IEEEArith.

(** * Magnitudes of binary floating-point numbers

    Bounds on what the operations of [SpecFloat] return, enough to show
    that the program never overflows and never produces a NaN.  A number
    is [small K] when it is a zero or a finite number below [2 ^ K] in
    absolute value. *)

Section Magnitude.

Variables prec emax : Z.
Hypothesis prec_pos : 0 < prec.
Hypothesis emax_big : 2 <= emax.

Lemma digits2_pos_size (m : positive) : digits2_pos m = Pos.size m.
Proof. induction m; cbn; congruence. Qed.

Lemma digits2_upper (m : positive) : Zpos m < 2 ^ Zpos (digits2_pos m).
Proof.
  rewrite digits2_pos_size, <- Pos2Z.inj_pow; apply Pos2Z.pos_lt_pos, Pos.size_gt.
Qed.

Lemma digits2_lower (m : positive) : 2 ^ Zpos (digits2_pos m) <= 2 * Zpos m.
Proof.
  rewrite digits2_pos_size, <- Pos2Z.inj_pow.
  change (2 * Zpos m) with (Zpos m~0); apply Pos2Z.pos_le_pos, Pos.size_le.
Qed.

Lemma Zdigits2_nonneg (x : Z) : 0 <= Zdigits2 x.
Proof. destruct x; cbn; lia. Qed.

Lemma Zdigits2_upper (x : Z) : 0 <= x -> x < 2 ^ Zdigits2 x.
Proof.
  destruct x as [|m|m]; intros H; [reflexivity | apply digits2_upper | lia].
Qed.

(** A non-negative number below [2 ^ k] has at most [k] digits. *)
Lemma Zdigits2_le (x k : Z) : 0 <= k -> 0 <= x < 2 ^ k -> Zdigits2 x <= k.
Proof.
  intros Hk [H0 Hx]; destruct x as [|m|m]; [exact Hk | | lia].
  cbn [Zdigits2].
  destruct (Z.le_gt_cases (Zpos (digits2_pos m)) k) as [H|H]; [exact H|].
  pose proof (digits2_lower m) as Hl.
  assert (2 ^ (k + 1) <= 2 ^ Zpos (digits2_pos m))
    by (apply Z.pow_le_mono_r; lia).
  rewrite Z.pow_add_r in H1 by lia; lia.
Qed.

Lemma Zdigits2_succ (x : Z) : 0 <= x -> Zdigits2 (x + 1) <= Zdigits2 x + 1.
Proof.
  intros H; pose proof (Zdigits2_upper x H); pose proof (Zdigits2_nonneg x).
  apply Zdigits2_le; [lia|].
  rewrite Z.pow_add_r by lia; lia.
Qed.

Lemma Zdigits2_mono (x y : Z) : 0 <= x <= y -> Zdigits2 x <= Zdigits2 y.
Proof.
  intros [H0 Hxy]; apply Zdigits2_le; [apply Zdigits2_nonneg|].
  pose proof (Zdigits2_upper y); lia.
Qed.

(** ** Shifting right *)

Lemma shr_1_m (mrs : shr_record) :
  0 <= shr_m mrs -> shr_m (shr_1 mrs) = shr_m mrs / 2.
Proof.
  destruct mrs as [m r s]; cbn [shr_m]; intros H.
  destruct m as [|p|p]; [reflexivity | | lia].
  destruct p as [p|p|]; cbn [shr_1 shr_m].
  - rewrite Pos2Z.inj_xI, Z.mul_comm, Z.div_add_l by lia; reflexivity.
  - rewrite Pos2Z.inj_xO, Z.mul_comm, Z.div_mul by lia; reflexivity.
  - reflexivity.
Qed.

Lemma iter_pos_shr_m (p : positive) (mrs : shr_record) :
  0 <= shr_m mrs ->
  shr_m (iter_pos shr_1 p mrs) = shr_m mrs / 2 ^ Zpos p.
Proof.
  revert mrs; induction p as [p IH|p IH|]; intros mrs H; cbn [iter_pos].
  - assert (H1 : 0 <= shr_m (shr_1 mrs))
      by (rewrite shr_1_m by exact H; apply Z.div_pos; lia).
    assert (H2 : 0 <= shr_m (iter_pos shr_1 p (shr_1 mrs)))
      by (rewrite IH by exact H1; apply Z.div_pos; lia).
    rewrite IH, IH, shr_1_m by assumption.
    rewrite !Z.div_div by lia.
    f_equal; replace (Zpos p~1) with (1 + Zpos p + Zpos p) by lia.
    rewrite !Z.pow_add_r by lia; change (2 ^ 1) with 2; ring.
  - assert (H2 : 0 <= shr_m (iter_pos shr_1 p mrs))
      by (rewrite IH by exact H; apply Z.div_pos; lia).
    rewrite IH, IH by assumption.
    rewrite Z.div_div by lia.
    f_equal; replace (Zpos p~0) with (Zpos p + Zpos p) by lia.
    rewrite Z.pow_add_r by lia; ring.
  - rewrite shr_1_m by exact H; reflexivity.
Qed.

Lemma shr_m_of_loc (m : Z) (l : location) : shr_m (shr_record_of_loc m l) = m.
Proof. destruct l as [|[| |]]; reflexivity. Qed.

Lemma fexp_ge (x : Z) : x - prec <= fexp prec emax x /\ emin prec emax <= fexp prec emax x.
Proof. unfold fexp; lia. Qed.

Lemma fexp_le (x b : Z) :
  x - prec <= b -> emin prec emax <= b -> fexp prec emax x <= b.
Proof. unfold fexp; lia. Qed.

(** What [shr_fexp] returns: the exponent, a mantissa below [2 ^ prec],
    and a magnitude that has not grown. *)
Lemma shr_fexp_bounds (m e : Z) (l : location) :
  0 <= m ->
  let '(mrs, e') := shr_fexp prec emax m e l in
  e' = Z.max e (fexp prec emax (Zdigits2 m + e)) /\
  0 <= shr_m mrs < 2 ^ prec /\
  Zdigits2 (shr_m mrs) + e' <= Z.max (Zdigits2 m + e) e'.
Proof.
  intros Hm; unfold shr_fexp, shr.
  pose proof (Zdigits2_upper m Hm) as Hup.
  pose proof (Zdigits2_nonneg m) as Hd.
  pose proof (fexp_ge (Zdigits2 m + e)) as [Hf _].
  destruct (fexp prec emax (Zdigits2 m + e) - e) as [|p|p] eqn:Hn.
  - rewrite shr_m_of_loc; split; [lia|]; split; [|lia].
    split; [exact Hm|].
    apply Z.lt_le_trans with (1 := Hup), Z.pow_le_mono_r; lia.
  - rewrite iter_pos_shr_m, shr_m_of_loc by (rewrite shr_m_of_loc; exact Hm).
    assert (Hq : 0 <= m / 2 ^ Zpos p) by (apply Z.div_pos; lia).
    destruct (Z.le_gt_cases (Zdigits2 m) (Zpos p)) as [Hsmall|Hbig].
    + assert (Hz : m / 2 ^ Zpos p = 0).
      { apply Z.div_small; split; [exact Hm|].
        apply Z.lt_le_trans with (1 := Hup), Z.pow_le_mono_r; lia. }
      rewrite Hz; cbn [Zdigits2]; split; [lia|]; split; [|lia].
      split; [lia | apply Z.pow_pos_nonneg; lia].
    + assert (Hlt : m / 2 ^ Zpos p < 2 ^ (Zdigits2 m - Zpos p)).
      { apply Z.div_lt_upper_bound; [lia|].
        rewrite <- Z.pow_add_r by lia.
        replace (Zpos p + (Zdigits2 m - Zpos p)) with (Zdigits2 m) by lia.
        exact Hup. }
      split; [lia|]; split.
      * split; [exact Hq|].
        apply Z.lt_le_trans with (1 := Hlt), Z.pow_le_mono_r; lia.
      * pose proof (Zdigits2_le (m / 2 ^ Zpos p) (Zdigits2 m - Zpos p)
                      ltac:(lia) (conj Hq Hlt)).
        lia.
  - rewrite shr_m_of_loc; split; [lia|]; split; [|lia].
    split; [exact Hm|].
    apply Z.lt_le_trans with (1 := Hup), Z.pow_le_mono_r; lia.
Qed.

Lemma round_nearest_even_bounds (m : Z) (l : location) :
  m <= round_nearest_even m l <= m + 1.
Proof.
  destruct l as [|[| |]]; cbn [round_nearest_even]; try lia.
  destruct (Z.even m); lia.
Qed.

Lemma binary_round_aux_bounds (sx : bool) (mx ex : Z) (lx : location) (K : Z) :
  0 <= mx -> Zdigits2 mx + ex <= K -> ex <= K ->
  emin prec emax <= K -> K < emax -> ex <= emax - prec ->
  rounded prec sx (K + 1) (binary_round_aux prec emax sx mx ex lx).
Proof.
  intros Hm HK HeK Hemin HKmax Hex; unfold binary_round_aux.
  pose proof (shr_fexp_bounds mx ex lx Hm) as H1.
  destruct (shr_fexp prec emax mx ex lx) as [mrs1 e1].
  destruct H1 as [He1 [[Hm1 Hm1p] Hd1]].
  pose proof (round_nearest_even_bounds (shr_m mrs1) (loc_of_shr_record mrs1)) as Hr.
  set (m2 := round_nearest_even (shr_m mrs1) (loc_of_shr_record mrs1)) in *.
  assert (Hm2 : 0 <= m2) by lia.
  pose proof (shr_fexp_bounds m2 e1 loc_Exact Hm2) as H2.
  destruct (shr_fexp prec emax m2 e1 loc_Exact) as [mrs2 e2].
  destruct H2 as [He2 [[Hm3 Hm3p] Hd2]].
  assert (Hdm2 : Zdigits2 m2 <= Zdigits2 (shr_m mrs1) + 1).
  { apply Z.le_trans with (Zdigits2 (shr_m mrs1 + 1));
      [apply Zdigits2_mono; lia | apply Zdigits2_succ; exact Hm1]. }
  pose proof (fexp_le (Zdigits2 mx + ex) K ltac:(lia) Hemin) as Hf1.
  assert (He1K : e1 <= K) by lia.
  pose proof (fexp_le (Zdigits2 m2 + e1) (K + 1) ltac:(lia) ltac:(lia)) as Hf2.
  assert (He2K : e2 <= K + 1) by lia.
  assert (Hemin' : emin prec emax <= emax - prec) by (unfold emin; lia).
  pose proof (fexp_le (Zdigits2 mx + ex) (emax - prec) ltac:(lia) Hemin') as Hg1.
  pose proof (fexp_le (Zdigits2 m2 + e1) (emax - prec) ltac:(lia) Hemin') as Hg2.
  destruct (shr_m mrs2) as [|m|m] eqn:Hm3e; cbn [rounded]; [reflexivity | | lia].
  replace (e2 <=? emax - prec) with true by (symmetry; apply Z.leb_le; lia).
  cbn [rounded Zdigits2] in *; repeat split; lia.
Qed.

(** ** Shifting left *)

Lemma iter_xO_digits (m d : positive) :
  digits2_pos (Pos.iter xO m d) = (digits2_pos m + d)%positive.
Proof.
  induction d as [|d IH] using Pos.peano_ind.
  - cbn; lia.
  - rewrite Pos.iter_succ; cbn [digits2_pos]; rewrite IH; lia.
Qed.

Lemma iter_xO_value (m d : positive) :
  Zpos (Pos.iter xO m d) = Zpos m * 2 ^ Zpos d.
Proof.
  induction d as [|d IH] using Pos.peano_ind.
  - cbn; lia.
  - rewrite Pos.iter_succ, Pos2Z.inj_xO, IH, Pos2Z.inj_succ, Z.pow_succ_r by lia.
    ring.
Qed.

Lemma shl_align_bounds (mx : positive) (ex ex' : Z) :
  let '(mz, ez) := shl_align mx ex ex' in
  Zpos (digits2_pos mz) + ez = Zpos (digits2_pos mx) + ex /\
  ez = Z.min ex ex' /\
  Zpos mz = Zpos mx * 2 ^ (ex - ez).
Proof.
  unfold shl_align; destruct (ex' - ex) as [|d|d] eqn:Hd.
  - replace (ex - ex) with 0 by lia; cbn; lia.
  - replace (ex - ex) with 0 by lia; cbn; lia.
  - rewrite iter_xO_digits, iter_xO_value.
    replace (ex - ex') with (Zpos d) by lia; lia.
Qed.

Lemma small_weaken (K K' : Z) (x : spec_float) :
  K <= K' -> small K x -> small K' x.
Proof. destruct x; cbn; lia. Qed.

Lemma rounded_small (sx : bool) (K : Z) (x : spec_float) :
  rounded prec sx K x -> small K x /\ narrow prec x.
Proof. destruct x; cbn; tauto. Qed.

Lemma binary_round_bounds (sx : bool) (mx : positive) (ex K : Z) :
  Zpos (digits2_pos mx) + ex <= K ->
  emin prec emax <= K -> K < emax -> ex <= emax - prec ->
  rounded prec sx (K + 1) (binary_round prec emax sx mx ex).
Proof.
  intros HK Hemin HKmax Hex; unfold binary_round.
  pose proof (shl_align_bounds mx ex
                (fexp prec emax (Zpos (digits2_pos mx) + ex))) as Hs.
  destruct (shl_align mx ex _) as [mz ez]; destruct Hs as [Hd [He _]].
  pose proof (Pos2Z.is_pos (digits2_pos mz)).
  apply binary_round_aux_bounds; cbn [Zdigits2]; lia.
Qed.

Lemma binary_normalize_bounds (m e K : Z) (szero : bool) :
  Zdigits2 m + e <= K ->
  emin prec emax <= K -> K < emax -> e <= emax - prec ->
  small (K + 1) (binary_normalize prec emax m e szero) /\
  narrow prec (binary_normalize prec emax m e szero).
Proof.
  intros HK Hemin HKmax He; destruct m as [|m|m]; cbn [binary_normalize].
  - cbn; tauto.
  - apply (rounded_small false), binary_round_bounds; assumption.
  - apply (rounded_small true), binary_round_bounds; assumption.
Qed.

(** ** The operations *)

Lemma Zdigits2_opp (x : Z) : Zdigits2 (- x) = Zdigits2 x.
Proof. destruct x; reflexivity. Qed.

Lemma Zdigits2_abs (x : Z) : Zdigits2 x = Zdigits2 (Z.abs x).
Proof. destruct x; reflexivity. Qed.

(** The sum or difference of two aligned mantissas. *)
Lemma aligned_sum_digits (mx my : positive) (ex ey K z : Z) :
  Zpos (digits2_pos mx) + ex <= K -> Zpos (digits2_pos my) + ey <= K ->
  Z.abs z <= Zpos (fst (shl_align mx ex (Z.min ex ey)))
             + Zpos (fst (shl_align my ey (Z.min ex ey))) ->
  Zdigits2 z + Z.min ex ey <= K + 1.
Proof.
  intros Hx Hy Hz.
  pose proof (shl_align_bounds mx ex (Z.min ex ey)) as Hsx.
  pose proof (shl_align_bounds my ey (Z.min ex ey)) as Hsy.
  destruct (shl_align mx ex _) as [mx' ex'], (shl_align my ey _) as [my' ey'].
  cbn [fst] in Hz; destruct Hsx as [Hdx [Hex _]], Hsy as [Hdy [Hey _]].
  pose proof (digits2_upper mx') as Hux; pose proof (digits2_upper my') as Huy.
  assert (Hex' : ex' = Z.min ex ey) by lia.
  assert (Hey' : ey' = Z.min ex ey) by lia.
  set (k := K - Z.min ex ey) in *.
  pose proof (Pos2Z.is_pos (digits2_pos mx')).
  assert (Hk : 0 <= k) by lia.
  assert (Hpx : 2 ^ Zpos (digits2_pos mx') <= 2 ^ k) by (apply Z.pow_le_mono_r; lia).
  assert (Hpy : 2 ^ Zpos (digits2_pos my') <= 2 ^ k) by (apply Z.pow_le_mono_r; lia).
  rewrite Zdigits2_abs.
  assert (Zdigits2 (Z.abs z) <= k + 1); [|lia].
  apply Zdigits2_le; [lia|]; split; [lia|].
  rewrite Z.pow_add_r by lia; lia.
Qed.

Lemma SFadd_small (x y : spec_float) (K : Z) :
  small K x -> small K y ->
  emin prec emax <= K + 1 -> K + 1 < emax -> K <= emax - prec ->
  small (K + 2) (SFadd prec emax x y).
Proof.
  intros Hx Hy Hemin HKmax HKp.
  destruct x as [sx|sx| |sx mx ex], y as [sy|sy| |sy my ey];
    cbn [small] in Hx, Hy; try contradiction; cbn [SFadd].
  - destruct sx, sy; exact I.
  - cbn [small]; lia.
  - cbn [small]; lia.
  - pose proof (Pos2Z.is_pos (digits2_pos mx)).
    pose proof (Pos2Z.is_pos (digits2_pos my)).
    replace (K + 2) with (K + 1 + 1) by lia.
    apply binary_normalize_bounds; try lia.
    apply (aligned_sum_digits mx my ex ey K); try assumption.
    change IntDef.Z.min with Z.min; unfold cond_Zopp; destruct sx, sy; lia.
Qed.

Lemma SFsub_small (x y : spec_float) (K : Z) :
  small K x -> small K y ->
  emin prec emax <= K + 1 -> K + 1 < emax -> K <= emax - prec ->
  small (K + 2) (SFsub prec emax x y).
Proof.
  intros Hx Hy Hemin HKmax HKp.
  destruct x as [sx|sx| |sx mx ex], y as [sy|sy| |sy my ey];
    cbn [small] in Hx, Hy; try contradiction; cbn [SFsub].
  - destruct sx, sy; exact I.
  - cbn [small]; lia.
  - cbn [small]; lia.
  - pose proof (Pos2Z.is_pos (digits2_pos mx)).
    pose proof (Pos2Z.is_pos (digits2_pos my)).
    replace (K + 2) with (K + 1 + 1) by lia.
    apply binary_normalize_bounds; try lia.
    apply (aligned_sum_digits mx my ex ey K); try assumption.
    change IntDef.Z.min with Z.min; unfold cond_Zopp; destruct sx, sy; lia.
Qed.

Lemma SFmul_small (x y : spec_float) (Kx Ky : Z) :
  small Kx x -> small Ky y ->
  emin prec emax <= Kx + Ky -> Kx + Ky < emax -> Kx + Ky - 2 <= emax - prec ->
  small (Kx + Ky + 1) (SFmul prec emax x y).
Proof.
  intros Hx Hy Hemin HKmax HKp.
  destruct x as [sx|sx| |sx mx ex], y as [sy|sy| |sy my ey];
    cbn [small] in Hx, Hy; try contradiction; cbn [SFmul]; try exact I.
  pose proof (Pos2Z.is_pos (digits2_pos mx)).
  pose proof (Pos2Z.is_pos (digits2_pos my)).
  apply (rounded_small (xorb sx sy)), binary_round_aux_bounds; try lia.
  assert (Zdigits2 (Zpos (mx * my))
          <= Zpos (digits2_pos mx) + Zpos (digits2_pos my)); [|lia].
  apply Zdigits2_le; [lia|]; split; [lia|].
  rewrite Pos2Z.inj_mul, Z.pow_add_r by lia.
  pose proof (digits2_upper mx); pose proof (digits2_upper my).
  apply Z.mul_lt_mono_nonneg; lia.
Qed.

(** The quotient of a mantissa shifted by [s] by another mantissa. *)
Lemma quotient_digits (mx my : positive) (s : Z) :
  0 <= s ->
  0 <= Zpos mx * 2 ^ s / Zpos my /\
  Zdigits2 (Zpos mx * 2 ^ s / Zpos my)
  <= Z.max 0 (Zpos (digits2_pos mx) + s - Zpos (digits2_pos my) + 1).
Proof.
  intros Hs.
  pose proof (digits2_upper mx) as Hux; pose proof (digits2_lower my) as Hly.
  pose proof (Pos2Z.is_pos (digits2_pos mx)) as Hdx.
  pose proof (Pos2Z.is_pos (digits2_pos my)) as Hdy.
  set (d1 := Zpos (digits2_pos mx)) in *; set (d2 := Zpos (digits2_pos my)) in *.
  assert (Hp : 0 < 2 ^ s) by (apply Z.pow_pos_nonneg; lia).
  assert (Hn : 0 <= Zpos mx * 2 ^ s) by lia.
  assert (Hm : Zpos mx * 2 ^ s < 2 ^ (d1 + s))
    by (rewrite Z.pow_add_r by lia; apply Z.mul_lt_mono_pos_r; lia).
  assert (Hy : 2 ^ (d2 - 1) <= Zpos my).
  { replace d2 with (1 + (d2 - 1)) in Hly by lia.
    rewrite Z.pow_add_r in Hly by lia; lia. }
  split; [apply Z.div_pos; lia|].
  destruct (Z.le_gt_cases (d1 + s - d2 + 1) 0) as [Hk|Hk].
  - rewrite Z.div_small; [cbn; lia|].
    split; [exact Hn|].
    apply Z.lt_le_trans with (1 := Hm), Z.le_trans with (2 := Hy).
    apply Z.pow_le_mono_r; lia.
  - rewrite Z.max_r by lia.
    apply Zdigits2_le; [lia|]; split; [apply Z.div_pos; lia|].
    apply Z.div_lt_upper_bound; [lia|].
    apply Z.lt_le_trans with (1 := Hm).
    assert (E : 2 ^ (d1 + s) = 2 ^ (d2 - 1) * 2 ^ (d1 + s - d2 + 1))
      by (rewrite <- Z.pow_add_r by lia; f_equal; lia).
    rewrite E.
    apply Z.mul_le_mono_nonneg_r; [apply Z.pow_nonneg; lia | exact Hy].
Qed.

Lemma SFdiv_small (x : spec_float) (sy : bool) (my : positive) (ey K L : Z) :
  small K x -> L <= Zpos (digits2_pos my) + ey ->
  emin prec emax <= K - L + 1 -> K - L + 1 < emax ->
  small (K - L + 2) (SFdiv prec emax x (S754_finite sy my ey)).
Proof.
  intros Hx HL Hemin HKmax.
  destruct x as [sx|sx| |sx mx ex]; cbn [small] in Hx; try contradiction;
    cbn [SFdiv]; [exact I|].
  unfold SFdiv_core_binary; cbn [Zdigits2].
  set (d1 := Zpos (digits2_pos mx)) in *; set (d2 := Zpos (digits2_pos my)) in *.
  set (e' := Z.min (fexp prec emax (d1 + ex - (d2 + ey))) (ex - ey)).
  set (m' := match ex - ey - e' with
             | 0 => Zpos mx
             | Zpos _ => Z.shiftl (Zpos mx) (ex - ey - e')
             | Zneg _ => 0
             end).
  assert (Hs : 0 <= ex - ey - e') by lia.
  assert (Hm' : m' = Zpos mx * 2 ^ (ex - ey - e')).
  { unfold m'; destruct (ex - ey - e') as [|p|p] eqn:E; [cbn; lia | | lia].
    apply Z.shiftl_mul_pow2; lia. }
  pose proof (quotient_digits mx my (ex - ey - e') Hs) as [Hq Hd].
  fold d1 d2 in Hd; rewrite <- Hm' in Hq, Hd.
  change (Z.div_eucl m' (Zpos my)) with (Z.div_eucl m' (Zpos my)).
  assert (Hdiv : fst (Z.div_eucl m' (Zpos my)) = m' / Zpos my) by reflexivity.
  destruct (Z.div_eucl m' (Zpos my)) as [q r]; cbn [fst] in Hdiv; subst q.
  pose proof (fexp_le (d1 + ex - (d2 + ey)) (K - L + 1) ltac:(lia) Hemin) as Hf.
  assert (Hemin' : emin prec emax <= emax - prec) by (unfold emin; lia).
  pose proof (fexp_le (d1 + ex - (d2 + ey)) (emax - prec) ltac:(lia) Hemin') as Hg.
  replace (K - L + 2) with (K - L + 1 + 1) by lia.
  apply (rounded_small (xorb sx sy)), binary_round_aux_bounds; lia.
Qed.

(** ** Numbers that are rounded to themselves *)

(** The number of digits of a mantissa between two powers of 2. *)
Lemma digits2_between (m : positive) (k : Z) :
  2 ^ (k - 1) <= Zpos m < 2 ^ k -> Zpos (digits2_pos m) = k.
Proof.
  intros [Hlo Hhi].
  pose proof (digits2_upper m) as Hu; pose proof (digits2_lower m) as Hl.
  pose proof (Pos2Z.is_pos (digits2_pos m)) as Hd.
  assert (Hk : 0 < k).
  { destruct (Z.lt_ge_cases 0 k) as [H|H]; [exact H | exfalso].
    assert (2 ^ k <= 2 ^ 0) by (apply Z.pow_le_mono_r; lia).
    change (2 ^ 0) with 1 in *; lia. }
  destruct (Z.lt_trichotomy (Zpos (digits2_pos m)) k) as [H|[H|H]];
    [exfalso | exact H | exfalso].
  - assert (2 ^ Zpos (digits2_pos m) <= 2 ^ (k - 1))
      by (apply Z.pow_le_mono_r; lia).
    assert (E : 2 ^ k = 2 * 2 ^ (k - 1))
      by (replace k with (1 + (k - 1)) at 1 by lia;
          rewrite Z.pow_add_r by lia; reflexivity).
    assert (E' : 2 ^ Zpos (digits2_pos m) = 2 * 2 ^ (Zpos (digits2_pos m) - 1))
      by (replace (Zpos (digits2_pos m)) with (1 + (Zpos (digits2_pos m) - 1))
            at 1 by lia; rewrite Z.pow_add_r by lia; reflexivity).
    assert (2 ^ (Zpos (digits2_pos m) - 1) <= 2 ^ (k - 2))
      by (apply Z.pow_le_mono_r; lia).
    assert (E'' : 2 ^ (k - 1) = 2 * 2 ^ (k - 2) \/ k = 1).
    { destruct (Z.eq_dec k 1) as [->|Hk1]; [right; reflexivity | left].
      replace (k - 1) with (1 + (k - 2)) by lia.
      rewrite Z.pow_add_r by lia; reflexivity. }
    destruct E'' as [E''|E'']; [lia | subst k; lia].
  - assert (2 ^ (k + 1) <= 2 ^ Zpos (digits2_pos m))
      by (apply Z.pow_le_mono_r; lia).
    rewrite Z.pow_add_r in * by lia; lia.
Qed.

(** Shifting right a mantissa that ends with enough zeros loses
    nothing. *)
Lemma iter_pos_shr_exact (p : positive) (c : positive) (k : Z) :
  Zpos p <= k ->
  iter_pos shr_1 p (Build_shr_record (Zpos c * 2 ^ k) false false)
  = Build_shr_record (Zpos c * 2 ^ (k - Zpos p)) false false.
Proof.
  assert (Hstep : forall k, 1 <= k ->
            shr_1 (Build_shr_record (Zpos c * 2 ^ k) false false)
            = Build_shr_record (Zpos c * 2 ^ (k - 1)) false false).
  { intros j Hj.
    assert (E : Zpos c * 2 ^ j = 2 * (Zpos c * 2 ^ (j - 1))).
    { replace j with (1 + (j - 1)) at 1 by lia.
      rewrite Z.pow_add_r by lia; change (2 ^ 1) with 2; ring. }
    assert (Hpos : 0 < Zpos c * 2 ^ (j - 1))
      by (apply Z.mul_pos_pos; [lia | apply Z.pow_pos_nonneg; lia]).
    rewrite E; destruct (Zpos c * 2 ^ (j - 1)) as [|q|q]; [lia | | lia].
    reflexivity. }
  revert k; induction p as [p IH|p IH|]; intros k Hk; cbn [iter_pos].
  - rewrite Hstep, IH, IH by lia; do 2 f_equal; f_equal; lia.
  - rewrite IH, IH by lia; do 2 f_equal; f_equal; lia.
  - apply Hstep; lia.
Qed.

(** Rounding a number that has a canonical representation [(c, E)],
    with the [prec] digits of a normal number, returns it: whatever the
    representation [(m, e)] it is given in. *)
Lemma binary_round_aux_exact (s : bool) (m c : positive) (e E : Z) :
  Zpos (digits2_pos c) = prec ->
  emin prec emax <= E -> E <= emax - prec ->
  e <= E -> Zpos m = Zpos c * 2 ^ (E - e) ->
  binary_round_aux prec emax s (Zpos m) e loc_Exact = S754_finite s c E.
Proof.
  intros Hc Hmin Hmax He Hm.
  assert (Hdm : Zpos (digits2_pos m) = prec + (E - e)).
  { apply digits2_between.
    pose proof (digits2_upper c) as Hu; pose proof (digits2_lower c) as Hl.
    rewrite Hc in Hu, Hl.
    assert (E1 : 2 ^ (prec + (E - e)) = 2 ^ prec * 2 ^ (E - e))
      by (apply Z.pow_add_r; lia).
    assert (E2 : 2 * 2 ^ (prec + (E - e) - 1) = 2 ^ (prec + (E - e))).
    { replace (prec + (E - e)) with (1 + (prec + (E - e) - 1)) at 2 by lia.
      rewrite Z.pow_add_r by lia; reflexivity. }
    assert (Hp : 0 < 2 ^ (E - e)) by (apply Z.pow_pos_nonneg; lia).
    rewrite Hm; nia. }
  assert (Hf : forall d, d = prec + E -> fexp prec emax d = E)
    by (intros d ->; unfold fexp; lia).
  unfold binary_round_aux.
  assert (H1 : shr_fexp prec emax (Zpos m) e loc_Exact
               = (Build_shr_record (Zpos c) false false, E)).
  { unfold shr_fexp; cbn [Zdigits2 shr_record_of_loc].
    rewrite (Hf (Zpos (digits2_pos m) + e)) by lia.
    unfold shr; destruct (E - e) as [|p|p] eqn:Hp; [| |lia].
    - rewrite Z.mul_1_r in Hm; injection Hm as ->.
      f_equal; lia.
    - rewrite Hm, iter_pos_shr_exact by lia.
      rewrite Z.sub_diag, Z.mul_1_r; f_equal; lia. }
  rewrite H1; cbn [shr_m loc_of_shr_record round_nearest_even].
  assert (H2 : shr_fexp prec emax (Zpos c) E loc_Exact
               = (Build_shr_record (Zpos c) false false, E)).
  { unfold shr_fexp; cbn [Zdigits2 shr_record_of_loc].
    rewrite (Hf (Zpos (digits2_pos c) + E)) by lia.
    rewrite Z.sub_diag; reflexivity. }
  rewrite H2; cbn [shr_m].
  apply Z.leb_le in Hmax; rewrite Hmax; reflexivity.
Qed.

Lemma binary_round_exact (s : bool) (m c : positive) (e E : Z) :
  Zpos (digits2_pos c) = prec ->
  emin prec emax <= E -> E <= emax - prec ->
  Zpos m * 2 ^ (e - Z.min e E) = Zpos c * 2 ^ (E - Z.min e E) ->
  binary_round prec emax s m e = S754_finite s c E.
Proof.
  intros Hc Hmin Hmax Hv.
  assert (Hd : Zpos (digits2_pos m) + e = prec + E).
  { pose proof (digits2_upper c) as Hu; pose proof (digits2_lower c) as Hl.
    rewrite Hc in Hu, Hl.
    destruct (Z.le_ge_cases e E) as [He|He].
    - rewrite Z.min_l, Z.sub_diag, Z.mul_1_r in Hv by lia.
      assert (Zpos (digits2_pos m) = prec + (E - e)); [|lia].
      apply digits2_between.
      assert (E1 : 2 ^ (prec + (E - e)) = 2 ^ prec * 2 ^ (E - e))
        by (apply Z.pow_add_r; lia).
      assert (E2 : 2 * 2 ^ (prec + (E - e) - 1) = 2 ^ (prec + (E - e))).
      { replace (prec + (E - e)) with (1 + (prec + (E - e) - 1)) at 2 by lia.
        rewrite Z.pow_add_r by lia; reflexivity. }
      assert (Hp : 0 < 2 ^ (E - e)) by (apply Z.pow_pos_nonneg; lia).
      rewrite Hv; nia.
    - rewrite Z.min_r, Z.sub_diag, Z.mul_1_r in Hv by lia.
      pose proof (digits2_upper m) as Hu'; pose proof (digits2_lower m) as Hl'.
      set (d := Zpos (digits2_pos m)) in *.
      assert (Hd0 : 0 < d) by apply Pos2Z.is_pos.
      assert (Hp : 0 < 2 ^ (e - E)) by (apply Z.pow_pos_nonneg; lia).
      destruct (Z.lt_trichotomy (d + (e - E)) prec) as [H|[H|H]];
        [exfalso | lia | exfalso].
      + assert (2 ^ (d + (e - E)) <= 2 ^ (prec - 1))
          by (apply Z.pow_le_mono_r; lia).
        rewrite Z.pow_add_r in * by lia.
        assert (2 * 2 ^ (prec - 1) = 2 ^ prec).
        { replace prec with (1 + (prec - 1)) at 2 by lia.
          rewrite Z.pow_add_r by lia; reflexivity. }
        nia.
      + assert (2 ^ (prec + 1) <= 2 ^ (d + (e - E)))
          by (apply Z.pow_le_mono_r; lia).
        rewrite !Z.pow_add_r in * by lia; change (2 ^ 1) with 2 in *.
        nia. }
  unfold binary_round.
  assert (Hf : fexp prec emax (Zpos (digits2_pos m) + e) = E)
    by (rewrite Hd; unfold fexp; lia).
  rewrite Hf.
  pose proof (shl_align_bounds m e E) as Hs.
  destruct (shl_align m e E) as [mz ez]; destruct Hs as [_ [Hez Hmz]].
  apply binary_round_aux_exact; try assumption; [lia|].
  subst ez; rewrite Hmz; exact Hv.
Qed.

(** ** The value of a rounded number *)

Lemma pow2_pos (k : Z) : 0 <= k -> 0 < 2 ^ k.
Proof. intros; apply Z.pow_pos_nonneg; lia. Qed.

Lemma pow2_succ (k : Z) : 0 <= k -> 2 ^ (k + 1) = 2 * 2 ^ k.
Proof. intros; rewrite Z.pow_add_r by lia; change (2 ^ 1) with 2; ring. Qed.

Lemma pow2_split (a b : Z) : 0 <= b <= a -> 2 ^ a = 2 ^ (a - b) * 2 ^ b.
Proof.
  intros; rewrite <- Z.pow_add_r by lia; f_equal; lia.
Qed.

(** The round bit after a shift by [p] is the bit of weight
    [2 ^ (p - 1)]. *)
Lemma shr_1_r (mrs : shr_record) :
  0 <= shr_m mrs -> shr_r (shr_1 mrs) = Z.odd (shr_m mrs).
Proof.
  destruct mrs as [m r s]; cbn [shr_m]; intros H.
  destruct m as [|p|p]; [reflexivity | | lia].
  destruct p; reflexivity.
Qed.

Lemma iter_pos_shr_r (p : positive) (mrs : shr_record) :
  0 <= shr_m mrs ->
  shr_r (iter_pos shr_1 p mrs) = Z.odd (shr_m mrs / 2 ^ (Zpos p - 1)).
Proof.
  revert mrs; induction p as [p IH|p IH|]; intros mrs H; cbn [iter_pos].
  - assert (H1 : 0 <= shr_m (shr_1 mrs))
      by (rewrite shr_1_m by exact H; apply Z.div_pos; lia).
    assert (H2 : 0 <= shr_m (iter_pos shr_1 p (shr_1 mrs)))
      by (rewrite iter_pos_shr_m by exact H1; apply Z.div_pos; lia).
    rewrite IH, iter_pos_shr_m, shr_1_m by assumption.
    rewrite !Z.div_div by lia; f_equal; f_equal.
    replace (Zpos p~1 - 1) with (1 + Zpos p + (Zpos p - 1)) by lia.
    rewrite !Z.pow_add_r by lia; change (2 ^ 1) with 2; ring.
  - assert (H2 : 0 <= shr_m (iter_pos shr_1 p mrs))
      by (rewrite iter_pos_shr_m by exact H; apply Z.div_pos; lia).
    rewrite IH, iter_pos_shr_m by assumption.
    rewrite Z.div_div by lia; f_equal; f_equal.
    replace (Zpos p~0 - 1) with (Zpos p + (Zpos p - 1)) by lia.
    rewrite Z.pow_add_r by lia; ring.
  - rewrite shr_1_r by exact H; change (2 ^ (1 - 1)) with 1.
    rewrite Z.div_1_r; reflexivity.
Qed.

(** Without the round bit the mantissa is not rounded up. *)
Lemma round_down (mrs : shr_record) :
  shr_r mrs = false ->
  round_nearest_even (shr_m mrs) (loc_of_shr_record mrs) = shr_m mrs.
Proof. destruct mrs as [m [|] [|]]; cbn; congruence. Qed.

(** The number of digits after a shift to the right. *)
Lemma Zdigits2_between (x k : Z) :
  2 ^ (k - 1) <= x < 2 ^ k -> 0 < k -> Zdigits2 x = k.
Proof.
  intros [Hlo Hhi] Hk.
  assert (Hx : 0 < x) by (pose proof (pow2_pos (k - 1)); lia).
  destruct x as [|m|m]; [lia | | lia].
  cbn [Zdigits2]; apply digits2_between; split; assumption.
Qed.

Lemma Zdigits2_lower (x : Z) : 0 < x -> 2 ^ (Zdigits2 x - 1) <= x.
Proof.
  intros Hx; destruct x as [|m|m]; [lia | | lia]; cbn [Zdigits2].
  pose proof (digits2_lower m) as Hl.
  pose proof (Pos2Z.is_pos (digits2_pos m)) as Hd.
  rewrite (pow2_split (Zpos (digits2_pos m)) 1) in Hl by lia.
  change (2 ^ 1) with 2 in Hl; lia.
Qed.

Lemma Zdigits2_shr (m p : Z) :
  0 < p < Zdigits2 m -> 0 < m -> Zdigits2 (m / 2 ^ p) = Zdigits2 m - p.
Proof.
  intros Hp Hm.
  pose proof (Zdigits2_upper m ltac:(lia)) as Hu.
  pose proof (Zdigits2_lower m Hm) as Hl.
  pose proof (pow2_pos p ltac:(lia)) as Hpp.
  apply Zdigits2_between; [|lia]; split.
  - apply Z.div_le_lower_bound; [lia|].
    rewrite Z.mul_comm, <- Z.pow_add_r by lia.
    replace (Zdigits2 m - p - 1 + p) with (Zdigits2 m - 1) by lia; exact Hl.
  - apply Z.div_lt_upper_bound; [lia|].
    rewrite <- Z.pow_add_r by lia.
    replace (p + (Zdigits2 m - p)) with (Zdigits2 m) by lia; exact Hu.
Qed.

(** What [shr_fexp] returns: the exponent and the mantissa. *)
Lemma shr_fexp_m (m e : Z) (l : location) :
  0 <= m ->
  let '(mrs, e') := shr_fexp prec emax m e l in
  e' = Z.max e (fexp prec emax (Zdigits2 m + e)) /\
  shr_m mrs = m / 2 ^ (e' - e).
Proof.
  intros Hm; unfold shr_fexp, shr.
  destruct (fexp prec emax (Zdigits2 m + e) - e) as [|p|p] eqn:Hn.
  - rewrite shr_m_of_loc; split; [lia|].
    rewrite Z.sub_diag, Z.div_1_r; reflexivity.
  - rewrite iter_pos_shr_m, shr_m_of_loc by (rewrite shr_m_of_loc; exact Hm).
    split; [lia | f_equal; f_equal; lia].
  - rewrite shr_m_of_loc; split; [lia|].
    rewrite Z.sub_diag, Z.div_1_r; reflexivity.
Qed.

(** The location after a shift of an exact mantissa: exact when the
    bits shifted out are zeros, and with the round bit of weight half the
    new unit. *)
Lemma shr_fexp_loc (m : positive) (e : Z) :
  let '(mrs, e') := shr_fexp prec emax (Zpos m) e loc_Exact in
  (Zpos m mod 2 ^ (e' - e) = 0 -> loc_of_shr_record mrs = loc_Exact) /\
  (e < e' -> shr_r mrs = Z.odd (Zpos m / 2 ^ (e' - e - 1))).
Proof.
  unfold shr_fexp, shr; cbn [Zdigits2 shr_record_of_loc].
  destruct (fexp prec emax (Zpos (digits2_pos m) + e) - e) as [|p|p] eqn:Hn.
  - split; [reflexivity | lia].
  - replace (e + Zpos p - e) with (Zpos p) by lia; split.
    + intros Hmod.
      assert (Hq : Zpos m = Zpos m / 2 ^ Zpos p * 2 ^ Zpos p).
      { pose proof (Z.div_mod (Zpos m) (2 ^ Zpos p)
                      ltac:(pose proof (pow2_pos (Zpos p)); lia)); lia. }
      pose proof (pow2_pos (Zpos p) ltac:(lia)) as Hpp.
      destruct (Zpos m / 2 ^ Zpos p) as [|c|c] eqn:Hc; [lia | | lia].
      rewrite Hq, iter_pos_shr_exact by lia; reflexivity.
    + intros _; rewrite iter_pos_shr_r by (cbn; lia); reflexivity.
  - split; [reflexivity | lia].
Qed.

(** Rounding of a positive number [m * 2 ^ e], given exactly.  With [E]
    the exponent of its format and [m'] its mantissa truncated to that
    exponent, the result is [m1 * 2 ^ E] with [m1] either [m'] or
    [m' + 1]; it is [m'] when the truncation is exact, and when the first
    bit that is cut off is 0.  The result is a zero or a number in
    canonical form. *)
Lemma binary_round_aux_spec (m : positive) (e : Z) :
  let E := fexp prec emax (Zpos (digits2_pos m) + e) in
  let m' := Zpos m / 2 ^ (E - e) in
  e <= E -> E + 1 <= emax - prec ->
  exists m1 : Z,
    m' <= m1 <= m' + 1 /\
    (Zpos m mod 2 ^ (E - e) = 0 -> m1 = m') /\
    (e < E -> Z.odd (Zpos m / 2 ^ (E - e - 1)) = false -> m1 = m') /\
    match binary_round_aux prec emax false (Zpos m) e loc_Exact with
    | S754_zero s => s = false /\ m1 = 0
    | S754_finite s mx ex =>
        s = false /\ E <= ex /\ Zpos mx * 2 ^ (ex - E) = m1 /\
        ex = fexp prec emax (Zpos (digits2_pos mx) + ex) /\
        ex <= emax - prec
    | _ => False
    end.
Proof.
  intros E m' HeE Hmax; unfold binary_round_aux.
  pose proof (shr_fexp_m (Zpos m) e loc_Exact ltac:(lia)) as H1.
  pose proof (shr_fexp_loc m e) as L1.
  destruct (shr_fexp prec emax (Zpos m) e loc_Exact) as [mrs1 e1].
  cbn [Zdigits2] in H1; fold E in H1.
  destruct H1 as [He1 Hm1]; rewrite Z.max_r in He1 by exact HeE; subst e1.
  fold m' in Hm1; destruct L1 as [Lex Lr].
  pose proof (round_nearest_even_bounds (shr_m mrs1) (loc_of_shr_record mrs1))
    as Hr.
  set (m1 := round_nearest_even (shr_m mrs1) (loc_of_shr_record mrs1)) in *.
  rewrite Hm1 in Hr.
  assert (Hm'0 : 0 <= m')
    by (apply Z.div_pos; [lia | apply pow2_pos; lia]).
  exists m1; split; [exact Hr|]; split; [|split].
  - intros Hmod; unfold m1; rewrite (Lex Hmod), Hm1; reflexivity.
  - intros Hlt Hodd; unfold m1; rewrite round_down, Hm1;
      [reflexivity | rewrite (Lr Hlt); exact Hodd].
  - pose proof (shr_fexp_m m1 E loc_Exact ltac:(lia)) as H2.
    destruct (shr_fexp prec emax m1 E loc_Exact) as [mrs2 e2].
    destruct H2 as [He2 Hm2].
    pose proof (Pos2Z.is_pos (digits2_pos m)) as Hd.
    set (d := Zpos (digits2_pos m)) in *.
    pose proof (digits2_upper m) as Hu; fold d in Hu.
    pose proof (Zdigits2_lower (Zpos m) ltac:(lia)) as Hl.
    cbn [Zdigits2] in Hl; fold d in Hl.
    pose proof (pow2_pos (E - e) ltac:(lia)) as Hpn.
    destruct (Z.eq_dec m1 0) as [Hz|Hnz].
    { (* the result is a zero *)
      rewrite Hz in Hm2; rewrite Z.div_0_l in Hm2
        by (pose proof (pow2_pos (e2 - E) ltac:(lia)); lia).
      rewrite Hm2; auto. }
    assert (Hm1pos : 0 < m1) by lia.
    (* the digits of the rounded mantissa *)
    assert (Hcanon : (fexp prec emax (Zdigits2 m1 + E) = E /\ e2 = E)
                     \/ (m1 = 2 ^ (d + e - E) /\ 0 < d + e - E)).
    { destruct (Z.eq_dec m' 0) as [Hm'z|Hm'nz].
      - (* everything was shifted out: the least subnormal number *)
        left.
        assert (Hm11 : m1 = 1) by lia.
        assert (Hsmall : Zpos m < 2 ^ (E - e)).
        { destruct (Z.lt_ge_cases (Zpos m) (2 ^ (E - e))) as [H|H]; [exact H|].
          assert (1 <= m') by (apply Z.div_le_lower_bound; lia).
          lia. }
        assert (HdE : d + e <= E).
        { destruct (Z.le_gt_cases (d + e) E) as [H|H]; [exact H | exfalso].
          assert (2 ^ (E - e) <= 2 ^ (d - 1)) by (apply Z.pow_le_mono_r; lia).
          lia. }
        assert (HEmin : E = emin prec emax) by (unfold E, fexp in *; lia).
        rewrite Hm11 in *; cbn [Zdigits2 digits2_pos] in *.
        assert (fexp prec emax (1 + E) = E) by (unfold fexp; lia).
        replace (Zpos 1 + E) with (1 + E) in He2 by lia.
        split; lia.
      - assert (Hm'pos : 0 < m') by lia.
        assert (Hnd : E - e < d).
        { destruct (Z.lt_ge_cases (E - e) d) as [H|H]; [exact H | exfalso].
          assert (2 ^ d <= 2 ^ (E - e)) by (apply Z.pow_le_mono_r; lia).
          assert (m' = 0) by (apply Z.div_small; lia).
          lia. }
        assert (Hdm' : Zdigits2 m' = d - (E - e)).
        { destruct (Z.eq_dec (E - e) 0) as [H0|H0].
          - unfold m'; rewrite H0; change (2 ^ 0) with 1.
            rewrite Z.div_1_r; cbn [Zdigits2]; fold d; lia.
          - unfold m'; rewrite Zdigits2_shr; cbn [Zdigits2]; fold d; lia. }
        pose proof (Zdigits2_upper m' ltac:(lia)) as Hu'.
        rewrite Hdm' in Hu'.
        destruct (Z.lt_ge_cases m1 (2 ^ (d - (E - e)))) as [Hlt|Hge].
        + left.
          assert (Hdm1 : Zdigits2 m1 = d - (E - e)).
          { apply Zdigits2_between; [|lia]; split; [|exact Hlt].
            pose proof (Zdigits2_lower m' Hm'pos) as Hl'.
            rewrite Hdm' in Hl'; lia. }
          rewrite Hdm1 in *.
          replace (d - (E - e) + E) with (d + e) in * by lia.
          fold E in He2; fold E; split; lia.
        + right; split; [|lia].
          replace (d + e - E) with (d - (E - e)) by lia; lia. }
    destruct Hcanon as [[Hdig He2E]|[Hpow Hk]].
    + (* no second shift *)
      rewrite He2E in *; rewrite Z.sub_diag, Z.div_1_r in Hm2.
      rewrite Hm2; destruct m1 as [|mx|mx]; [lia | | lia].
      replace (E <=? emax - prec) with true by (symmetry; apply Z.leb_le; lia).
      cbn [Zdigits2] in Hdig.
      split; [reflexivity|]; split; [lia|]; split;
        [rewrite Z.sub_diag; lia|]; split; [|lia].
      symmetry; exact Hdig.
    + (* the mantissa was rounded up to a power of 2 *)
      set (k := d + e - E) in *.
      assert (Hdm1 : Zdigits2 m1 = k + 1).
      { apply Zdigits2_between; [|lia]; split.
        - replace (k + 1 - 1) with k by lia; lia.
        - rewrite Hpow, pow2_succ by lia.
          pose proof (pow2_pos k ltac:(lia)); lia. }
      rewrite Hdm1 in He2.
      assert (Hf : fexp prec emax (k + 1 + E) = E
                   \/ fexp prec emax (k + 1 + E) = E + 1)
        by (unfold E, fexp, k in *; lia).
      destruct Hf as [Hf|Hf]; rewrite Hf in He2.
      * rewrite Z.max_l in He2 by lia; rewrite He2 in *.
        rewrite Z.sub_diag, Z.div_1_r in Hm2.
        rewrite Hm2; destruct m1 as [|mx|mx]; [lia | | lia].
        replace (E <=? emax - prec) with true
          by (symmetry; apply Z.leb_le; lia).
        cbn [Zdigits2] in Hdm1.
        split; [reflexivity|]; split; [lia|]; split;
          [rewrite Z.sub_diag; lia|]; split; [|lia].
        rewrite Hdm1; symmetry; exact Hf.
      * rewrite Z.max_r in He2 by lia; rewrite He2 in *.
        replace (E + 1 - E) with 1 in Hm2 by lia.
        change (2 ^ 1) with 2 in Hm2.
        assert (Hhalf : m1 / 2 = 2 ^ (k - 1)).
        { rewrite Hpow, (pow2_split k 1) by lia; change (2 ^ 1) with 2.
          apply Z.div_mul; lia. }
        rewrite Hhalf in Hm2; rewrite Hm2.
        pose proof (pow2_pos (k - 1) ltac:(lia)) as Hkp.
        destruct (2 ^ (k - 1)) as [|mx|mx] eqn:Hmx; [lia | | lia].
        replace (E + 1 <=? emax - prec) with true
          by (symmetry; apply Z.leb_le; lia).
        assert (Hdmx : Zpos (digits2_pos mx) = k).
        { apply digits2_between; rewrite <- Hmx; split; [lia|].
          rewrite (pow2_split k 1) by lia; change (2 ^ 1) with 2; lia. }
        split; [reflexivity|]; split; [lia|]; split; [|split; [|lia]].
        -- replace (E + 1 - E) with 1 by lia; change (2 ^ 1) with 2.
           rewrite Hpow, (pow2_split k 1) by lia; change (2 ^ 1) with 2.
           lia.
        -- rewrite Hdmx; replace (k + (E + 1)) with (k + 1 + E) by lia.
           symmetry; exact Hf.
Qed.

(** ** Rounding is monotone *)

(** A number of larger value has at least as many digits above the
    binary point. *)
Lemma magnitude_le (c m : positive) (Ec e k : Z) :
  k <= Ec -> k <= e ->
  Zpos c * 2 ^ (Ec - k) <= Zpos m * 2 ^ (e - k) ->
  Zpos (digits2_pos c) + Ec <= Zpos (digits2_pos m) + e.
Proof.
  intros HkE Hke Hle.
  pose proof (Pos2Z.is_pos (digits2_pos c)) as Hdc.
  pose proof (Pos2Z.is_pos (digits2_pos m)) as Hdm.
  pose proof (Zdigits2_lower (Zpos c) ltac:(lia)) as Hl.
  pose proof (digits2_upper m) as Hu; cbn [Zdigits2] in Hl.
  set (dc := Zpos (digits2_pos c)) in *; set (d := Zpos (digits2_pos m)) in *.
  destruct (Z.le_gt_cases (dc + Ec) (d + e)) as [H|H]; [exact H | exfalso].
  assert (H1 : 2 ^ (d + e - k) <= 2 ^ (dc - 1 + (Ec - k)))
    by (apply Z.pow_le_mono_r; lia).
  rewrite Z.pow_add_r in H1 by lia.
  replace (d + e - k) with (d + (e - k)) in H1 by lia.
  rewrite Z.pow_add_r in H1 by lia.
  pose proof (pow2_pos (Ec - k) ltac:(lia)).
  pose proof (pow2_pos (e - k) ltac:(lia)).
  nia.
Qed.

Lemma fexp_mono (a b : Z) : a <= b -> fexp prec emax a <= fexp prec emax b.
Proof. unfold fexp; lia. Qed.

(** The rounding of a number is not below a number of the format
    that is not above it. *)
Lemma binary_round_aux_ge (m c : positive) (e Ec k : Z) :
  let E := fexp prec emax (Zpos (digits2_pos m) + e) in
  e <= E -> E + 1 <= emax - prec ->
  Ec = fexp prec emax (Zpos (digits2_pos c) + Ec) ->
  k <= Ec -> k <= e ->
  Zpos c * 2 ^ (Ec - k) <= Zpos m * 2 ^ (e - k) ->
  match binary_round_aux prec emax false (Zpos m) e loc_Exact with
  | S754_finite s mx ex =>
      s = false /\ k <= ex /\
      Zpos c * 2 ^ (Ec - k) <= Zpos mx * 2 ^ (ex - k) /\
      ex = fexp prec emax (Zpos (digits2_pos mx) + ex) /\
      ex <= emax - prec
  | _ => False
  end.
Proof.
  intros E HeE Hmax Hcan HkE Hke Hle.
  destruct (binary_round_aux_spec m e HeE Hmax) as [m1 [Hm1 [_ [_ Hres]]]].
  fold E in Hm1, Hres.
  pose proof (magnitude_le c m Ec e k HkE Hke Hle) as HD.
  pose proof (fexp_mono _ _ HD) as HEE; rewrite <- Hcan in HEE; fold E in HEE.
  pose proof (Pos2Z.is_pos (digits2_pos c)) as Hdc.
  pose proof (Pos2Z.is_pos (digits2_pos m)) as Hdm.
  set (dc := Zpos (digits2_pos c)) in *; set (d := Zpos (digits2_pos m)) in *.
  pose proof (pow2_pos (E - e) ltac:(lia)) as Hpn.
  pose proof (pow2_pos (e - k) ltac:(lia)) as Hpe.
  pose proof (pow2_pos (Ec - k) ltac:(lia)) as Hpc.
  pose proof (pow2_pos (E - k) ltac:(lia)) as HpE.
  assert (HEk : 2 ^ (E - k) = 2 ^ (E - e) * 2 ^ (e - k))
    by (rewrite <- Z.pow_add_r by lia; f_equal; lia).
  (* the truncated mantissa is not below the reference *)
  assert (Hfloor : Zpos c * 2 ^ (Ec - k) <= Zpos m / 2 ^ (E - e) * 2 ^ (E - k)).
  { destruct (Z.eq_dec Ec E) as [HE|HE].
    - rewrite HE in *.
      assert (Zpos c <= Zpos m / 2 ^ (E - e)); [|nia].
      apply Z.div_le_lower_bound; [lia|].
      rewrite HEk in Hle; nia.
    - assert (HEc : Ec < E) by lia.
      assert (Hmin : emin prec emax <= Ec) by (rewrite Hcan; unfold fexp; lia).
      assert (HE' : E = d + e - prec) by (unfold E, fexp in *; lia).
      assert (HDlt : dc + Ec < d + e).
      { destruct (Z.lt_ge_cases (dc + Ec) (d + e)) as [H|H]; [exact H|].
        assert (H0 : dc + Ec = d + e) by lia.
        rewrite Hcan in HEc; unfold E in HEc; rewrite H0 in HEc; lia. }
      pose proof (digits2_upper c) as Huc; fold dc in Huc.
      pose proof (Zdigits2_lower (Zpos m) ltac:(lia)) as Hlm.
      cbn [Zdigits2] in Hlm; fold d in Hlm.
      assert (Hm' : 2 ^ (d - 1 - (E - e)) <= Zpos m / 2 ^ (E - e)).
      { apply Z.div_le_lower_bound; [lia|].
        rewrite Z.mul_comm, <- Z.pow_add_r by lia.
        replace (d - 1 - (E - e) + (E - e)) with (d - 1) by lia; exact Hlm. }
      assert (H1 : Zpos c * 2 ^ (Ec - k) < 2 ^ (dc + (Ec - k)))
        by (rewrite Z.pow_add_r by lia; nia).
      assert (H2 : 2 ^ (dc + (Ec - k)) <= 2 ^ (d - 1 - (E - e) + (E - k)))
        by (apply Z.pow_le_mono_r; lia).
      rewrite (Z.pow_add_r 2 (d - 1 - (E - e)) (E - k)) in H2 by lia.
      assert (H3 : 2 ^ (d - 1 - (E - e)) * 2 ^ (E - k)
                   <= Zpos m / 2 ^ (E - e) * 2 ^ (E - k))
        by (apply Z.mul_le_mono_nonneg_r; lia).
      lia. }
  destruct (binary_round_aux prec emax false (Zpos m) e loc_Exact)
    as [s|s| |s mx ex]; try contradiction.
  - destruct Hres as [_ Hz]; exfalso.
    rewrite Hz in Hm1.
    assert (Zpos m / 2 ^ (E - e) = 0)
      by (pose proof (Z.div_pos (Zpos m) (2 ^ (E - e)) ltac:(lia) ltac:(lia)); lia).
    nia.
  - destruct Hres as [Hs [Hex [Hv [Hc He]]]].
    split; [exact Hs|]; split; [lia|]; split; [|split; assumption].
    assert (Hx : Zpos mx * 2 ^ (ex - k) = m1 * 2 ^ (E - k)).
    { rewrite <- Hv, <- Z.mul_assoc, <- Z.pow_add_r by lia.
      f_equal; f_equal; lia. }
    rewrite Hx; nia.
Qed.

(** The rounding of a number is not above a number of the format
    that is not below it. *)
Lemma binary_round_aux_le (m c : positive) (e Ec k : Z) :
  let E := fexp prec emax (Zpos (digits2_pos m) + e) in
  e <= E -> E + 1 <= emax - prec ->
  Ec = fexp prec emax (Zpos (digits2_pos c) + Ec) ->
  k <= Ec -> k <= e ->
  Zpos m * 2 ^ (e - k) <= Zpos c * 2 ^ (Ec - k) ->
  match binary_round_aux prec emax false (Zpos m) e loc_Exact with
  | S754_zero s => s = false
  | S754_finite s mx ex =>
      s = false /\ k <= ex /\
      Zpos mx * 2 ^ (ex - k) <= Zpos c * 2 ^ (Ec - k) /\
      ex = fexp prec emax (Zpos (digits2_pos mx) + ex) /\
      ex <= emax - prec
  | _ => False
  end.
Proof.
  intros E HeE Hmax Hcan HkE Hke Hle.
  destruct (binary_round_aux_spec m e HeE Hmax) as [m1 [Hm1 [Hex [_ Hres]]]].
  fold E in Hm1, Hex, Hres.
  pose proof (magnitude_le m c e Ec k Hke HkE Hle) as HD.
  pose proof (fexp_mono _ _ HD) as HEE; rewrite <- Hcan in HEE; fold E in HEE.
  pose proof (pow2_pos (E - e) ltac:(lia)) as Hpn.
  pose proof (pow2_pos (e - k) ltac:(lia)) as Hpe.
  pose proof (pow2_pos (Ec - E) ltac:(lia)) as Hpc.
  pose proof (pow2_pos (E - k) ltac:(lia)) as HpE.
  assert (HEk : 2 ^ (E - k) = 2 ^ (E - e) * 2 ^ (e - k))
    by (rewrite <- Z.pow_add_r by lia; f_equal; lia).
  assert (HEck : 2 ^ (Ec - k) = 2 ^ (Ec - E) * 2 ^ (E - k))
    by (rewrite <- Z.pow_add_r by lia; f_equal; lia).
  assert (Hup : m1 * 2 ^ (E - k) <= Zpos c * 2 ^ (Ec - k)).
  { pose proof (Z.div_mod (Zpos m) (2 ^ (E - e)) ltac:(lia)) as Hdm.
    pose proof (Z.mod_pos_bound (Zpos m) (2 ^ (E - e)) ltac:(lia)) as Hmod.
    destruct (Z.eq_dec (Zpos m mod 2 ^ (E - e)) 0) as [H0|H0].
    - rewrite (Hex H0); rewrite H0 in Hdm.
      rewrite HEk, HEck in *; nia.
    - rewrite HEck, HEk in *.
      set (a := Zpos c * 2 ^ (Ec - E)) in *.
      assert (Zpos m / 2 ^ (E - e) < a) by nia.
      nia. }
  destruct (binary_round_aux prec emax false (Zpos m) e loc_Exact)
    as [s|s| |s mx ex]; try contradiction.
  - apply Hres.
  - destruct Hres as [Hs [Hex' [Hv [Hc He]]]].
    split; [exact Hs|]; split; [lia|]; split; [|split; assumption].
    assert (Hx : Zpos mx * 2 ^ (ex - k) = m1 * 2 ^ (E - k)).
    { rewrite <- Hv, <- Z.mul_assoc, <- Z.pow_add_r by lia.
      f_equal; f_equal; lia. }
    rewrite Hx; exact Hup.
Qed.

(** When the first bit that is cut off is 0, rounding truncates. *)
Lemma binary_round_aux_floor (m : positive) (e : Z) :
  let E := fexp prec emax (Zpos (digits2_pos m) + e) in
  e < E -> E + 1 <= emax - prec ->
  Z.odd (Zpos m / 2 ^ (E - e - 1)) = false ->
  match binary_round_aux prec emax false (Zpos m) e loc_Exact with
  | S754_zero s => s = false /\ Zpos m / 2 ^ (E - e) = 0
  | S754_finite s mx ex =>
      s = false /\ E <= ex /\
      Zpos mx * 2 ^ (ex - E) = Zpos m / 2 ^ (E - e) /\
      ex = fexp prec emax (Zpos (digits2_pos mx) + ex) /\
      ex <= emax - prec
  | _ => False
  end.
Proof.
  intros E HeE Hmax Hodd.
  destruct (binary_round_aux_spec m e ltac:(fold E; lia) Hmax)
    as [m1 [_ [_ [Hfl Hres]]]].
  fold E in Hfl, Hres; rewrite (Hfl HeE Hodd) in Hres.
  destruct (binary_round_aux prec emax false (Zpos m) e loc_Exact)
    as [s|s| |s mx ex]; try contradiction.
  - exact Hres.
  - exact Hres.
Qed.

(** The same for [binary_round], which first aligns the mantissa on
    the exponent of the format. *)
Lemma binary_round_ge (m c : positive) (e Ec k : Z) :
  fexp prec emax (Zpos (digits2_pos m) + e) + 1 <= emax - prec ->
  Ec = fexp prec emax (Zpos (digits2_pos c) + Ec) ->
  k <= emin prec emax -> k <= e ->
  Zpos c * 2 ^ (Ec - k) <= Zpos m * 2 ^ (e - k) ->
  match binary_round prec emax false m e with
  | S754_finite s mx ex =>
      s = false /\ k <= ex /\
      Zpos c * 2 ^ (Ec - k) <= Zpos mx * 2 ^ (ex - k) /\
      ex = fexp prec emax (Zpos (digits2_pos mx) + ex) /\
      ex <= emax - prec
  | _ => False
  end.
Proof.
  intros Hmax Hcan Hk Hke Hle; unfold binary_round.
  pose proof (shl_align_bounds m e (fexp prec emax (Zpos (digits2_pos m) + e)))
    as Hs.
  destruct (shl_align m e _) as [mz ez]; destruct Hs as [Hd [Hez Hmz]].
  pose proof (fexp_ge (Zpos (digits2_pos m) + e)) as [_ Hmin].
  assert (HkE : k <= Ec) by (rewrite Hcan; unfold fexp; lia).
  apply binary_round_aux_ge; rewrite ?Hd; try assumption; try lia.
  rewrite Hmz, <- Z.mul_assoc, <- Z.pow_add_r by lia.
  replace (e - ez + (ez - k)) with (e - k) by lia; exact Hle.
Qed.

Lemma binary_round_le (m c : positive) (e Ec k : Z) :
  fexp prec emax (Zpos (digits2_pos m) + e) + 1 <= emax - prec ->
  Ec = fexp prec emax (Zpos (digits2_pos c) + Ec) ->
  k <= emin prec emax -> k <= e ->
  Zpos m * 2 ^ (e - k) <= Zpos c * 2 ^ (Ec - k) ->
  match binary_round prec emax false m e with
  | S754_zero s => s = false
  | S754_finite s mx ex =>
      s = false /\ k <= ex /\
      Zpos mx * 2 ^ (ex - k) <= Zpos c * 2 ^ (Ec - k) /\
      ex = fexp prec emax (Zpos (digits2_pos mx) + ex) /\
      ex <= emax - prec
  | _ => False
  end.
Proof.
  intros Hmax Hcan Hk Hke Hle; unfold binary_round.
  pose proof (shl_align_bounds m e (fexp prec emax (Zpos (digits2_pos m) + e)))
    as Hs.
  destruct (shl_align m e _) as [mz ez]; destruct Hs as [Hd [Hez Hmz]].
  pose proof (fexp_ge (Zpos (digits2_pos m) + e)) as [_ Hmin].
  assert (HkE : k <= Ec) by (rewrite Hcan; unfold fexp; lia).
  apply binary_round_aux_le; rewrite ?Hd; try assumption; try lia.
  rewrite Hmz, <- Z.mul_assoc, <- Z.pow_add_r by lia.
  replace (e - ez + (ez - k)) with (e - k) by lia; exact Hle.
Qed.

Lemma binary_round_floor (m : positive) (e : Z) :
  let E := fexp prec emax (Zpos (digits2_pos m) + e) in
  e < E -> E + 1 <= emax - prec ->
  Z.odd (Zpos m / 2 ^ (E - e - 1)) = false ->
  match binary_round prec emax false m e with
  | S754_zero s => s = false /\ Zpos m / 2 ^ (E - e) = 0
  | S754_finite s mx ex =>
      s = false /\ E <= ex /\
      Zpos mx * 2 ^ (ex - E) = Zpos m / 2 ^ (E - e) /\
      ex = fexp prec emax (Zpos (digits2_pos mx) + ex) /\
      ex <= emax - prec
  | _ => False
  end.
Proof.
  intros E HeE Hmax Hodd.
  assert (Hsh : shl_align m e E = (m, e))
    by (unfold shl_align; destruct (E - e) eqn:Hp; try reflexivity; lia).
  unfold binary_round; fold E; rewrite Hsh.
  apply binary_round_aux_floor; assumption.
Qed.

(** The exponent of a result of [binary_round_aux] is not below
    [emin]. *)
Lemma binary_round_aux_exponent (s : bool) (m e : Z) (l : location) :
  0 <= m ->
  match binary_round_aux prec emax s m e l with
  | S754_finite _ _ ex => emin prec emax <= ex
  | _ => True
  end.
Proof.
  intros Hm; unfold binary_round_aux.
  pose proof (shr_fexp_bounds m e l Hm) as H1.
  destruct (shr_fexp prec emax m e l) as [mrs1 e1].
  destruct H1 as [He1 [[Hm1 _] _]].
  pose proof (round_nearest_even_bounds (shr_m mrs1) (loc_of_shr_record mrs1))
    as Hr.
  set (m2 := round_nearest_even (shr_m mrs1) (loc_of_shr_record mrs1)) in *.
  pose proof (shr_fexp_bounds m2 e1 loc_Exact ltac:(lia)) as H2.
  destruct (shr_fexp prec emax m2 e1 loc_Exact) as [mrs2 e2].
  destruct H2 as [He2 _].
  pose proof (fexp_ge (Zdigits2 m2 + e1)) as [_ Hmin].
  destruct (shr_m mrs2); trivial.
  destruct (e2 <=? emax - prec); trivial; lia.
Qed.

(** The sign of a result of [binary_round_aux] is the one it is given,
    and the result is not a NaN. *)
Lemma binary_round_aux_sign (s : bool) (m e : Z) (l : location) :
  0 <= m ->
  match binary_round_aux prec emax s m e l with
  | S754_zero s' | S754_infinity s' | S754_finite s' _ _ => s' = s
  | S754_nan => False
  end.
Proof.
  intros Hm; unfold binary_round_aux.
  pose proof (shr_fexp_bounds m e l Hm) as H1.
  destruct (shr_fexp prec emax m e l) as [mrs1 e1].
  destruct H1 as [He1 [[Hm1 _] _]].
  pose proof (round_nearest_even_bounds (shr_m mrs1) (loc_of_shr_record mrs1))
    as Hr.
  set (m2 := round_nearest_even (shr_m mrs1) (loc_of_shr_record mrs1)) in *.
  pose proof (shr_fexp_bounds m2 e1 loc_Exact ltac:(lia)) as H2.
  destruct (shr_fexp prec emax m2 e1 loc_Exact) as [mrs2 e2].
  destruct H2 as [_ [[Hm3 _] _]].
  destruct (shr_m mrs2); [reflexivity | | lia].
  destruct (e2 <=? emax - prec); reflexivity.
Qed.

(** ** The sum of two positive numbers *)

(** The number of digits of a mantissa below a power of 2. *)
Lemma digits2_below (m : positive) (e K k : Z) :
  k <= e -> Zpos m * 2 ^ (e - k) < 2 ^ (K - k) ->
  Zpos (digits2_pos m) + e <= K.
Proof.
  intros Hke Hlt.
  pose proof (Zdigits2_lower (Zpos m) ltac:(lia)) as Hl; cbn [Zdigits2] in Hl.
  pose proof (Pos2Z.is_pos (digits2_pos m)) as Hd.
  set (d := Zpos (digits2_pos m)) in *.
  destruct (Z.le_gt_cases (d + e) K) as [H|H]; [exact H | exfalso].
  pose proof (pow2_pos (e - k) ltac:(lia)) as Hp.
  destruct (Z.le_gt_cases k K) as [HK|HK].
  - assert (H1 : 2 ^ (K - k) <= 2 ^ (d - 1 + (e - k)))
      by (apply Z.pow_le_mono_r; lia).
    rewrite Z.pow_add_r in H1 by lia.
    assert (H2 : 2 ^ (d - 1) * 2 ^ (e - k) <= Zpos m * 2 ^ (e - k))
      by (apply Z.mul_le_mono_nonneg_r; lia).
    lia.
  - rewrite (Z.pow_neg_r 2 (K - k)) in Hlt by lia.
    assert (0 < Zpos m * 2 ^ (e - k)) by (apply Z.mul_pos_pos; lia).
    lia.
Qed.

(** The sum of two positive numbers is the rounding of the exact
    sum: it is not below a number of the format that is not above the
    exact sum, and not above one that is not below it. *)
Lemma SFadd_ge (mx my c : positive) (ex ey Ec k K : Z) :
  k <= emin prec emax -> k <= ex -> k <= ey ->
  Zpos mx * 2 ^ (ex - k) + Zpos my * 2 ^ (ey - k) < 2 ^ (K - k) ->
  emin prec emax <= K - prec -> K + 1 <= emax ->
  Ec = fexp prec emax (Zpos (digits2_pos c) + Ec) ->
  Zpos c * 2 ^ (Ec - k) <= Zpos mx * 2 ^ (ex - k) + Zpos my * 2 ^ (ey - k) ->
  match SFadd prec emax (S754_finite false mx ex) (S754_finite false my ey) with
  | S754_finite s mz ez =>
      s = false /\ k <= ez /\
      Zpos c * 2 ^ (Ec - k) <= Zpos mz * 2 ^ (ez - k) /\
      ez = fexp prec emax (Zpos (digits2_pos mz) + ez) /\
      ez <= emax - prec
  | _ => False
  end.
Proof.
  intros Hk Hkx Hky HK Hmin Hmax Hcan Hle; cbn [SFadd cond_Zopp].
  set (e := Z.min ex ey).
  pose proof (shl_align_bounds mx ex e) as Sx.
  pose proof (shl_align_bounds my ey e) as Sy.
  destruct (shl_align mx ex e) as [ax ex']; destruct (shl_align my ey e) as [ay ey'].
  destruct Sx as [_ [Hex Hax]]; destruct Sy as [_ [Hey Hay]]; cbn [fst].
  assert (Ex : ex' = e) by (unfold e in *; lia).
  assert (Ey : ey' = e) by (unfold e in *; lia).
  rewrite Ex in Hax; rewrite Ey in Hay.
  change (Zpos ax + Zpos ay) with (Zpos (ax + ay)); cbn [binary_normalize].
  assert (Hke : k <= e) by (unfold e; lia).
  assert (Hsum : Zpos (ax + ay) * 2 ^ (e - k)
                 = Zpos mx * 2 ^ (ex - k) + Zpos my * 2 ^ (ey - k)).
  { rewrite Pos2Z.inj_add, Hax, Hay, Z.mul_add_distr_r.
    rewrite <- !Z.mul_assoc, <- !Z.pow_add_r by (unfold e; lia).
    f_equal; f_equal; f_equal; lia. }
  assert (HD : Zpos (digits2_pos (ax + ay)) + e <= K)
    by (apply (digits2_below _ _ _ k); [exact Hke | rewrite Hsum; exact HK]).
  apply binary_round_ge; try assumption.
  - pose proof (fexp_le (Zpos (digits2_pos (ax + ay)) + e) (K - prec)
                  ltac:(lia) Hmin); lia.
  - rewrite Hsum; exact Hle.
Qed.

Lemma SFadd_le (mx my c : positive) (ex ey Ec k K : Z) :
  k <= emin prec emax -> k <= ex -> k <= ey ->
  Zpos mx * 2 ^ (ex - k) + Zpos my * 2 ^ (ey - k) < 2 ^ (K - k) ->
  emin prec emax <= K - prec -> K + 1 <= emax ->
  Ec = fexp prec emax (Zpos (digits2_pos c) + Ec) ->
  Zpos mx * 2 ^ (ex - k) + Zpos my * 2 ^ (ey - k) <= Zpos c * 2 ^ (Ec - k) ->
  match SFadd prec emax (S754_finite false mx ex) (S754_finite false my ey) with
  | S754_zero s => s = false
  | S754_finite s mz ez =>
      s = false /\ k <= ez /\
      Zpos mz * 2 ^ (ez - k) <= Zpos c * 2 ^ (Ec - k) /\
      ez = fexp prec emax (Zpos (digits2_pos mz) + ez) /\
      ez <= emax - prec
  | _ => False
  end.
Proof.
  intros Hk Hkx Hky HK Hmin Hmax Hcan Hle; cbn [SFadd cond_Zopp].
  set (e := Z.min ex ey).
  pose proof (shl_align_bounds mx ex e) as Sx.
  pose proof (shl_align_bounds my ey e) as Sy.
  destruct (shl_align mx ex e) as [ax ex']; destruct (shl_align my ey e) as [ay ey'].
  destruct Sx as [_ [Hex Hax]]; destruct Sy as [_ [Hey Hay]]; cbn [fst].
  assert (Ex : ex' = e) by (unfold e in *; lia).
  assert (Ey : ey' = e) by (unfold e in *; lia).
  rewrite Ex in Hax; rewrite Ey in Hay.
  change (Zpos ax + Zpos ay) with (Zpos (ax + ay)); cbn [binary_normalize].
  assert (Hke : k <= e) by (unfold e; lia).
  assert (Hsum : Zpos (ax + ay) * 2 ^ (e - k)
                 = Zpos mx * 2 ^ (ex - k) + Zpos my * 2 ^ (ey - k)).
  { rewrite Pos2Z.inj_add, Hax, Hay, Z.mul_add_distr_r.
    rewrite <- !Z.mul_assoc, <- !Z.pow_add_r by (unfold e; lia).
    f_equal; f_equal; f_equal; lia. }
  assert (HD : Zpos (digits2_pos (ax + ay)) + e <= K)
    by (apply (digits2_below _ _ _ k); [exact Hke | rewrite Hsum; exact HK]).
  apply binary_round_le; try assumption.
  - pose proof (fexp_le (Zpos (digits2_pos (ax + ay)) + e) (K - prec)
                  ltac:(lia) Hmin); lia.
  - rewrite Hsum; exact Hle.
Qed.

(** ** Products and quotients of positive numbers *)

(** A product or a quotient of numbers that are not negative is not
    negative, and its exponent is not below the least one. *)
Lemma SFmul_positive (x : spec_float) (my : positive) (ey : Z) :
  match x with
  | S754_zero _ => True
  | S754_finite s _ _ => s = false
  | _ => False
  end ->
  match SFmul prec emax x (S754_finite false my ey) with
  | S754_zero _ | S754_infinity _ => True
  | S754_finite s _ e => s = false /\ emin prec emax <= e
  | S754_nan => False
  end.
Proof.
  destruct x as [sx|sx| |sx mx ex]; try contradiction; cbn [SFmul];
    [intros _; exact I | intros ->].
  pose proof (binary_round_aux_sign (xorb false false) (Zpos (mx * my))
                (ex + ey) loc_Exact ltac:(lia)) as H1.
  pose proof (binary_round_aux_exponent (xorb false false) (Zpos (mx * my))
                (ex + ey) loc_Exact ltac:(lia)) as H2.
  destruct (binary_round_aux _ _ _ _ _ _); try exact I; [exact H1|].
  split; [exact H1 | exact H2].
Qed.

Lemma SFdiv_positive (x : spec_float) (my : positive) (ey : Z) :
  match x with
  | S754_zero _ => True
  | S754_finite s _ _ => s = false
  | _ => False
  end ->
  match SFdiv prec emax x (S754_finite false my ey) with
  | S754_zero _ | S754_infinity _ => True
  | S754_finite s _ e => s = false /\ emin prec emax <= e
  | S754_nan => False
  end.
Proof.
  destruct x as [sx|sx| |sx mx ex]; try contradiction; cbn [SFdiv];
    [intros _; exact I | intros ->].
  unfold SFdiv_core_binary; cbn [Zdigits2].
  set (e' := Z.min _ _).
  set (m' := match ex - ey - e' with
             | 0 => Zpos mx
             | Zpos _ => Z.shiftl (Zpos mx) (ex - ey - e')
             | Zneg _ => 0
             end).
  assert (Hm' : 0 <= m').
  { unfold m'; destruct (ex - ey - e') as [|p|p] eqn:E; [lia | | lia].
    apply Z.shiftl_nonneg; lia. }
  assert (Hdiv : fst (Z.div_eucl m' (Zpos my)) = m' / Zpos my) by reflexivity.
  destruct (Z.div_eucl m' (Zpos my)) as [q r]; cbn [fst] in Hdiv; subst q.
  assert (Hq : 0 <= m' / Zpos my) by (apply Z.div_pos; lia).
  pose proof (binary_round_aux_sign (xorb false false) (m' / Zpos my) e'
                (new_location (Zpos my) r) Hq) as H1.
  pose proof (binary_round_aux_exponent (xorb false false) (m' / Zpos my) e'
                (new_location (Zpos my) r) Hq) as H2.
  destruct (binary_round_aux _ _ _ _ _ _); try exact I; [exact H1|].
  split; [exact H1 | exact H2].
Qed.

(** The value of a number of magnitude below [2 ^ K]. *)
Lemma scaled_small (x : spec_float) (K k : Z) :
  small K x -> k <= K ->
  match x with S754_finite _ _ e => k <= e | _ => True end ->
  0 <= scaled k x < 2 ^ (K - k).
Proof.
  destruct x as [sx|sx| |sx mx ex]; cbn [small scaled]; try contradiction;
    intros Hs HK He; try (split; [lia | apply pow2_pos; lia]).
  pose proof (digits2_upper mx) as Hu.
  pose proof (Pos2Z.is_pos (digits2_pos mx)) as Hd.
  pose proof (pow2_pos (ex - k) ltac:(lia)) as Hp.
  split; [apply Z.mul_nonneg_nonneg; lia|].
  apply Z.lt_le_trans with (2 ^ Zpos (digits2_pos mx) * 2 ^ (ex - k)).
  - apply Z.mul_lt_mono_pos_r; assumption.
  - rewrite <- Z.pow_add_r by lia; apply Z.pow_le_mono_r; lia.
Qed.

End Magnitude.

(** * The speed bounds on the target's arithmetic *)

Section IEEESpeed.

Existing Instance IEEE.arith.
Local Open Scope arith_scope.

Lemma round_to_small (prec emax : Z) (x : spec_float) (K : Z) :
  0 < prec -> 2 <= emax ->
  small K x -> emin prec emax <= K -> K < emax -> K - 1 <= emax - prec ->
  small (K + 1) (IEEE.round_to prec emax x) /\
  narrow prec (IEEE.round_to prec emax x).
Proof.
  intros Hp He Hx Hemin HK HKp.
  destruct x as [s|s| |s m e]; cbn [small] in Hx; try contradiction;
    cbn [IEEE.round_to]; [cbn; tauto|].
  pose proof (Pos2Z.is_pos (digits2_pos m)).
  apply (rounded_small prec s), binary_round_bounds; lia.
Qed.

(** The operations of the two formats, for magnitudes far from the
    overflow threshold. *)
Lemma fadd_small (x y : flt) (K : Z) :
  small K x -> small K y -> -100 <= K <= 100 -> small (K + 2) (x +f y).
Proof.
  intros Hx Hy HK; apply SFadd_small; try assumption;
    unfold emin, IEEE.prec32, IEEE.emax32; lia.
Qed.

Lemma fsub_small (x y : flt) (K : Z) :
  small K x -> small K y -> -100 <= K <= 100 -> small (K + 2) (x -f y).
Proof.
  intros Hx Hy HK; apply SFsub_small; try assumption;
    unfold emin, IEEE.prec32, IEEE.emax32; lia.
Qed.

Lemma dadd_small (x y : dbl) (K : Z) :
  small K x -> small K y -> -100 <= K <= 100 -> small (K + 2) (x +d y).
Proof.
  intros Hx Hy HK; apply SFadd_small; try assumption;
    unfold emin, IEEE.prec64, IEEE.emax64; lia.
Qed.

Lemma dsub_small (x y : dbl) (K : Z) :
  small K x -> small K y -> -100 <= K <= 100 -> small (K + 2) (x -d y).
Proof.
  intros Hx Hy HK; apply SFsub_small; try assumption;
    unfold emin, IEEE.prec64, IEEE.emax64; lia.
Qed.

Lemma dmul_small (x y : dbl) (Kx Ky : Z) :
  small Kx x -> small Ky y -> -100 <= Kx <= 100 -> -100 <= Ky <= 100 ->
  small (Kx + Ky + 1) (x *d y).
Proof.
  intros Hx Hy HKx HKy; apply SFmul_small; try assumption;
    unfold emin, IEEE.prec64, IEEE.emax64; lia.
Qed.

Lemma f2d_small (x : flt) (K : Z) :
  small K x -> -100 <= K <= 100 -> small (K + 1) (f2d x).
Proof.
  intros Hx HK; apply round_to_small; try assumption;
    unfold emin, IEEE.prec64, IEEE.emax64; lia.
Qed.

Lemma d2f_small (x : dbl) (K : Z) :
  small K x -> -100 <= K <= 100 ->
  small (K + 1) (d2f x) /\ narrow IEEE.prec32 (d2f x).
Proof.
  intros Hx HK; apply round_to_small; try assumption;
    unfold emin, IEEE.prec32, IEEE.emax32; lia.
Qed.

Lemma fdiv_cruise_speed_small (x : flt) (K : Z) :
  small K x -> -100 <= K <= 100 -> small (K - 5) (x /f int2f CRUISE_SPEED).
Proof.
  intros Hx HK.
  change (int2f CRUISE_SPEED) with (S754_finite false 10485760 (-17)).
  replace (K - 5) with (K - 7 + 2) by lia.
  apply SFdiv_small; try assumption;
    unfold emin, IEEE.prec32, IEEE.emax32; cbn; lia.
Qed.

Lemma clamp_ok (x : flt) (K : Z) :
  small K x -> narrow IEEE.prec32 x -> speed_ok (clamp x).
Proof.
  intros Hx Hn; unfold clamp.
  destruct x as [s|s| |s m e]; cbn [small] in Hx; try contradiction.
  - destruct s; exact I.
  - destruct s; [exact I|].
    change (@fltb IEEE.arith (S754_finite false m e) (int2f MIN_SPEED))
      with false; cbv iota.
    destruct (@fltb IEEE.arith (int2f MAX_SPEED) (S754_finite false m e)) eqn:Hlt.
    + cbn; repeat split; reflexivity.
    + cbn [speed_ok]; repeat split; assumption.
Qed.

Lemma speed_ok_exponent (m : positive) (e : Z) :
  @fltb IEEE.arith (int2f MAX_SPEED) (S754_finite false m e) = false ->
  e < -15 \/ (e = -15 /\ Zpos m <= 9830400).
Proof.
  change (int2f MAX_SPEED) with (S754_finite false 9830400 (-15)).
  cbn [fltb IEEE.arith SFltb SFcompare].
  destruct (Z.compare_spec (-15) e) as [He|He|He]; [|discriminate|lia].
  subst e; intros H; right; split; [reflexivity|].
  change (Pos.compare_cont Eq 9830400 m) with (Pos.compare 9830400 m) in H.
  destruct (Pos.compare_spec 9830400 m) as [Hm|Hm|Hm]; [|discriminate|].
  - rewrite <- Hm; apply Z.le_refl.
  - apply Z.lt_le_incl, Pos2Z.pos_lt_pos, Hm.
Qed.

Lemma speed_ok_small (c : flt) : speed_ok c -> small 9 c.
Proof.
  destruct c as [s|s| |s m e]; cbn [speed_ok small]; try tauto.
  intros [Hs [Hm Hlt]]; subst s; apply speed_ok_exponent in Hlt.
  assert (Zdigits2 (Zpos m) <= IEEE.prec32)
    by (apply Zdigits2_le; unfold IEEE.prec32 in *; lia).
  cbn [Zdigits2] in *; unfold IEEE.prec32 in *; lia.
Qed.

Lemma speed_ok_in_range (c : flt) :
  speed_ok c ->
  match fval c with
  | Some v => (inject_Z MIN_SPEED <= v <= inject_Z MAX_SPEED)%Q
  | None => False
  end.
Proof.
  destruct c as [s|s| |s m e]; cbn [speed_ok]; try tauto.
  - intros _; cbn; split; discriminate.
  - intros [Hs [Hm Hlt]]; subst s; apply speed_ok_exponent in Hlt.
    unfold IEEE.prec32 in Hm.
    destruct e as [|p|p]; [lia | lia |].
    cbn [fval IEEE.arith IEEE.to_Q cond_Zopp].
    unfold Qle, MIN_SPEED, MAX_SPEED; cbn [Qnum Qden inject_Z].
    rewrite Pos2Z.inj_pow; split; [lia|].
    destruct Hlt as [Hp|[Hp Hm']].
    + assert (2 ^ 16 <= 2 ^ Zpos p) by (apply Z.pow_le_mono_r; lia).
      change (2 ^ 16) with 65536 in *; change (2 ^ 24) with 16777216 in *.
      lia.
    + injection Hp as Hp; subst p.
      change (2 ^ Zpos 15) with 32768; lia.
Qed.

Lemma cruise_command_small (x y : flt) :
  small 9 x -> small 9 y ->
  small 12 (d2f (f2d ((x -f y) /f int2f CRUISE_SPEED) +d lit CRUISE_BIAS)).
Proof.
  intros Hx Hy.
  assert (Hbias : small 7 (lit CRUISE_BIAS)) by (vm_compute; discriminate).
  pose proof (fsub_small x y 9 Hx Hy ltac:(lia)) as H1.
  pose proof (fdiv_cruise_speed_small _ _ H1 ltac:(lia)) as H2.
  pose proof (f2d_small _ _ H2 ltac:(lia)) as H3.
  pose proof (dadd_small _ _ 7 H3 Hbias ltac:(lia)) as H4.
  pose proof (d2f_small _ _ H4 ltac:(lia)) as [H5 _].
  apply small_weaken with (2 := H5); lia.
Qed.

Lemma cruise_commands_small (c : flt) :
  small 9 c ->
  small 12 (fst (cruise_commands c)) /\ small 12 (snd (cruise_commands c)).
Proof.
  intros Hc.
  assert (H80 : small 9 (int2f CRUISE_SPEED)) by (vm_compute; discriminate).
  assert (H0 : small 12 (int2f 0)) by exact I.
  pose proof (cruise_command_small c _ Hc H80) as Hbrake.
  pose proof (cruise_command_small _ c H80 Hc) as Haccel.
  unfold cruise_commands.
  destruct (_ <d f2d c); [split; assumption|].
  destruct (f2d c <d _); split; assumption.
Qed.

Lemma pedal_speed_small (s : state) :
  small 12 (accel s) -> small 12 (brakes s) -> small 9 (current_speed s) ->
  small 19 (pedal_speed s).
Proof.
  intros Ha Hb Hc; unfold pedal_speed.
  destruct (ignition s).
  - pose proof (fsub_small _ _ 12 Ha Hb ltac:(lia)) as H1.
    pose proof (small_weaken 9 14 _ ltac:(lia) Hc) as Hc'.
    pose proof (fadd_small _ _ 14 Hc' H1 ltac:(lia)) as H2.
    apply small_weaken with (2 := H2); lia.
  - assert (Hhalf : small 0 (lit (5 # 10))) by (vm_compute; discriminate).
    pose proof (f2d_small _ _ Hb ltac:(lia)) as H1.
    pose proof (dmul_small _ _ 0 13 Hhalf H1 ltac:(lia) ltac:(lia)) as H2.
    assert (H0 : small 14 (f2d (int2f 0))) by exact I.
    pose proof (dsub_small _ _ 14 H0 H2 ltac:(lia)) as H3.
    pose proof (f2d_small _ _ Hc ltac:(lia)) as H4.
    pose proof (small_weaken (9 + 1) 16 _ ltac:(lia) H4) as H4'.
    pose proof (dadd_small _ _ 16 H4' H3 ltac:(lia)) as H5.
    pose proof (d2f_small _ _ H5 ltac:(lia)) as [H6 _].
    exact H6.
Qed.

Lemma drag_small (c : flt) :
  small 19 c -> small 23 (drag c) /\ narrow IEEE.prec32 (drag c).
Proof.
  intros Hc; unfold drag.
  assert (Hf : small (-9) (lit FRICTION)) by (vm_compute; discriminate).
  pose proof (f2d_small _ _ Hc ltac:(lia)) as H1.
  pose proof (dmul_small _ _ (-9) 20 Hf H1 ltac:(lia) ltac:(lia)) as H2.
  pose proof (small_weaken (-9 + 20 + 1) 20 _ ltac:(lia) H2) as H2'.
  pose proof (dsub_small _ _ 20 H1 H2' ltac:(lia)) as H3.
  exact (d2f_small _ _ H3 ltac:(lia)).
Qed.

Lemma next_speed_ok (s : state) :
  small 12 (accel s) -> small 12 (brakes s) -> speed_ok (current_speed s) ->
  speed_ok (next_speed s).
Proof.
  intros Ha Hb Hc; unfold next_speed.
  destruct (drag_small (pedal_speed s)) as [Hs Hn].
  - apply pedal_speed_small; [assumption | assumption |].
    apply speed_ok_small, Hc.
  - apply clamp_ok with (K := 23); assumption.
Qed.

Lemma tame_init : tame init.
Proof. split; exact I. Qed.

Lemma tame_simulateCar (s : state) : tame s -> tame (exec simulateCar s).
Proof.
  intros [Ha Hb Hc]; rewrite exec_simulateCar.
  split; cbn [accel brakes current_speed].
  - destruct (ignition s); [assumption | exact I].
  - assumption.
  - apply next_speed_ok; assumption.
Qed.

Lemma tame_body (c : cycle) (s : state) : tame s -> tame (exec (body c) s).
Proof.
  destruct c; cbn [body]; [| | | |apply tame_simulateCar]; intros [Ha Hb Hc].
  - rewrite exec_readInputs; split; cbn [accel brakes current_speed];
      try assumption; destruct (cruise_mode s); try assumption.
    + destruct accel_sw; vm_compute; trivial; discriminate.
    + destruct brakes_sw; vm_compute; trivial; discriminate.
  - rewrite exec_calcAverageSpeed; split; assumption.
  - rewrite exec_displayToLCD; split; assumption.
  - rewrite exec_cruiseControl; cbv zeta.
    destruct (cruise_commands_small (current_speed s)) as [Ha' Hb'];
      [apply speed_ok_small, Hc|].
    split; cbn [accel brakes current_speed]; try assumption;
      destruct (cc_sw && ignition s); assumption.
Qed.

Lemma tame_run (cs : list cycle) (s : state) : tame s -> tame (run cs s).
Proof.
  revert s; induction cs as [|c r IH]; intros s Hs; [exact Hs|].
  apply (IH (exec (body c) s)), tame_body, Hs.
Qed.

(** C1.  On the arithmetic of the target, after any run from the
    initial state, whatever the switches read in each cycle, the speed
    is a number between [MIN_SPEED] and [MAX_SPEED]; in particular it is
    after every integrator cycle. *)
Theorem speed_always_in_range (cs : list cycle) :
  speed_in_range (run cs init) /\
  speed_in_range (exec simulateCar (run cs init)).
Proof.
  pose proof (tame_run cs init tame_init) as Hs.
  split; apply speed_ok_in_range.
  - apply Hs.
  - apply tame_simulateCar, Hs.
Qed.

(** ** No NaN in the commands, the speed and the window *)


Lemma small_is_number (K : Z) (x : flt) : small K x -> fval x <> None.
Proof. destruct x; cbn; try contradiction; discriminate. Qed.

Lemma speed_ok_to_int (c : flt) : speed_ok c -> 0 <= f2int c <= 300.
Proof.
  destruct c as [s|s| |s m e]; cbn [speed_ok]; try tauto.
  - intros _; cbn; lia.
  - intros [Hs [Hm Hlt]]; subst s; apply speed_ok_exponent in Hlt.
    unfold IEEE.prec32 in Hm.
    destruct e as [|p|p]; [lia | lia |].
    cbn [f2int IEEE.arith IEEE.to_int cond_Zopp].
    rewrite Z.shiftr_div_pow2 by lia.
    assert (Ht : 0 <= Zpos m / 2 ^ Zpos p <= 300).
    { split; [apply Z.div_pos; lia|].
      apply Z.lt_succ_r, Z.div_lt_upper_bound; [lia|].
      destruct Hlt as [Hp|[Hp Hm']].
      - assert (2 ^ 16 <= 2 ^ Zpos p) by (apply Z.pow_le_mono_r; lia).
        change (2 ^ 16) with 65536 in *; change (2 ^ 24) with 16777216 in *.
        lia.
      - injection Hp as Hp; subst p.
        change (2 ^ Zpos 15) with 32768; lia. }
    unfold IEEE.INT_MIN, IEEE.INT_MAX; change (2 ^ 31) with 2147483648; lia.
Qed.

Lemma int2f_small (x : Z) : 0 <= x <= 300 -> small 10 (int2f x).
Proof.
  intros Hx; cbn [int2f IEEE.arith]; unfold IEEE.of_Z.
  assert (Hd : Zdigits2 x <= 9)
    by (apply Zdigits2_le; [lia | change (2 ^ 9) with 512; lia]).
  destruct (binary_normalize_bounds IEEE.prec32 IEEE.emax32
              ltac:(reflexivity) ltac:(discriminate) x 0 9 false) as [H _];
    unfold IEEE.prec32, IEEE.emax32, emin; try lia.
  exact H.
Qed.

Lemma queue_sum_small (q : list Z) (acc : flt) (K : Z) :
  Forall (fun x => 0 <= x <= 300) q ->
  small K acc -> 10 <= K -> K + 2 * Z.of_nat (length q) <= 100 ->
  small (K + 2 * Z.of_nat (length q))
        (fold_left (fun sum x => sum +f int2f x) q acc).
Proof.
  intros Hq; revert acc K; induction Hq as [|x r Hx _ IH]; intros acc K Ha HK Hl.
  - cbn [length fold_left]; apply small_weaken with (2 := Ha); lia.
  - cbn [length fold_left] in *; rewrite Nat2Z.inj_succ in *.
    replace (K + 2 * Z.succ (Z.of_nat (length r)))
      with ((K + 2) + 2 * Z.of_nat (length r)) by lia.
    apply IH; try lia.
    apply fadd_small; [exact Ha | | lia].
    apply small_weaken with (2 := int2f_small x Hx); lia.
Qed.

Lemma average_small (q : list Z) :
  q <> [] -> (length q <= 4)%nat ->
  Forall (fun x => 0 <= x <= 300) q ->
  small 20 (queue_sum q /f int2f (Z.of_nat (length q))).
Proof.
  intros Hne Hl Hq.
  assert (Hs : small 18 (queue_sum q)).
  { pose proof (queue_sum_small q (int2f 0) 10 Hq I ltac:(lia) ltac:(lia)) as H.
    apply small_weaken with (2 := H); lia. }
  assert (Hn : exists my ey,
             int2f (Z.of_nat (length q)) = S754_finite false my ey /\
  0 <= Zpos (digits2_pos my) + ey).
  { destruct q as [|x1 [|x2 [|x3 [|x4 [|x5 r]]]]];
      [contradiction | | | | | cbn [length] in Hl; lia];
      eexists; eexists; (split; [vm_compute; reflexivity | vm_compute; discriminate]). }
  destruct Hn as [my [ey [E HL]]]; rewrite E.
  pose proof (SFdiv_small IEEE.prec32 IEEE.emax32 ltac:(reflexivity)
                ltac:(discriminate) (queue_sum q) false my ey 18 0 Hs HL) as H.
  apply H; unfold IEEE.prec32, IEEE.emax32, emin; lia.
Qed.

Lemma windowed_init : windowed init.
Proof. split; [apply tame_init | cbn; lia | constructor]. Qed.

Lemma windowed_body (c : cycle) (s : state) :
  windowed s -> windowed (exec (body c) s).
Proof.
  intros [Ht Hl Hq]; split; [apply tame_body, Ht | |];
    rewrite queue_of_body; destruct c; try assumption.
  - unfold enqueue; rewrite length_app; cbn [length].
    destruct (3 <? length (avg_speed_queue s))%nat eqn:E.
    + destruct (avg_speed_queue s); cbn [tl length] in *; lia.
    + apply Nat.ltb_ge in E; lia.
  - apply enqueue_Forall; [exact Hq|].
    apply speed_ok_to_int, tame_body, Ht.
Qed.

Lemma windowed_run (cs : list cycle) (s : state) :
  windowed s -> windowed (run cs s).
Proof.
  revert s; induction cs as [|c r IH]; intros s Hs; [exact Hs|].
  apply (IH (exec (body c) s)), windowed_body, Hs.
Qed.

(** X22.  On the arithmetic of the target, after any run from the
    initial state the pedal commands and the speed are numbers (no NaN,
    no infinity), every entry of the window is between 0 and 300, and on
    a non-empty window an iteration of the averager sets [average_speed]
    to a number: a NaN or an infinity can only come from the averager on
    the empty window. *)
Theorem no_nan_in_commands_speed_and_window (cs : list cycle) :
  let s := run cs init in
  fval (accel s) <> None /\ fval (brakes s) <> None /\
  fval (current_speed s) <> None /\
  Forall (fun x => 0 <= x <= 300) (avg_speed_queue s) /\
  (avg_speed_queue s <> [] ->
   fval (average_speed (exec calcAverageSpeed s)) <> None).
Proof.
  intros s; destruct (windowed_run cs init windowed_init) as [[Ha Hb Hc] Hl Hq].
  fold s in Ha, Hb, Hc, Hl, Hq.
  split; [exact (small_is_number _ _ Ha)|].
  split; [exact (small_is_number _ _ Hb)|].
  split; [exact (small_is_number _ _ (speed_ok_small _ Hc))|].
  split; [exact Hq|].
  intros Hne; rewrite exec_calcAverageSpeed; cbv zeta; cbn [average_speed].
  exact (small_is_number _ _ (average_small _ Hne Hl Hq)).
Qed.

(** ** Full throttle and full braking on the target *)

Lemma throttle_on_target (n : nat) :
  Nat.iter (n + 357) (manual_step true true false) (int2f 0) = int2f MAX_SPEED.
Proof.
  induction n as [|n IH]; [vm_compute; reflexivity|].
  change (S n + 357)%nat with (S (n + 357)).
  rewrite Nat.iter_succ, IH; vm_compute; reflexivity.
Qed.

Lemma braking_on_target (n : nat) :
  Nat.iter (n + 263) (manual_step true false true) (int2f MAX_SPEED)
  = int2f MIN_SPEED.
Proof.
  induction n as [|n IH]; [vm_compute; reflexivity|].
  change (S n + 263)%nat with (S (n + 263)).
  rewrite Nat.iter_succ, IH; vm_compute; reflexivity.
Qed.

(** X23.  On the arithmetic of the target, with the cruise mode off
    and the ignition on: from rest, with the accelerator switch held on,
    after any run with at least 357 integrator cycles the speed is
    exactly [MAX_SPEED]; from [MAX_SPEED], with the brake switch held on,
    after any run with at least 263 integrator cycles the speed is
    exactly [MIN_SPEED]. *)
Theorem throttle_then_brake_on_target :
  (forall cs : list cycle,
      forallb (holding true true false) cs = true ->
      (357 <= integrations cs)%nat ->
      current_speed (run (ReadInputs true true false :: cs) init)
      = int2f MAX_SPEED) /\
  (forall (cs : list cycle) (s : state),
      cruise_mode s = false -> current_speed s = int2f MAX_SPEED ->
      forallb (holding true false true) cs = true ->
      (263 <= integrations cs)%nat ->
      current_speed (run (ReadInputs true false true :: cs) s)
      = int2f MIN_SPEED).
Proof.
  split.
  - intros cs Hcs Hn.
    rewrite (manual_run_speed true true false cs init eq_refl Hcs).
    replace (integrations cs) with ((integrations cs - 357) + 357)%nat by lia.
    apply throttle_on_target.
  - intros cs s Hm Hs Hcs Hn.
    rewrite (manual_run_speed true false true cs s Hm Hcs), Hs.
    replace (integrations cs) with ((integrations cs - 263) + 263)%nat by lia.
    apply braking_on_target.
Qed.

(** ** The average on the target *)

(** ** Integers in binary32 *)

Lemma int2f_form (z : Z) :
  0 < z < 2 ^ 24 ->
  exists c E,
    int2f z = S754_finite false c E /\
    Zpos (digits2_pos c) = 24 /\ -23 <= E <= 0 /\
    Zpos c = z * 2 ^ (- E).
Proof.
  intros [H0 H1]; destruct z as [|p|p]; [lia | | lia].
  pose proof (digits2_upper p) as Hu; pose proof (digits2_lower p) as Hl.
  pose proof (Pos2Z.is_pos (digits2_pos p)) as Hd.
  set (d := Zpos (digits2_pos p)) in *.
  assert (Hd24 : d <= 24).
  { destruct (Z.le_gt_cases d 24) as [H|H]; [exact H | exfalso].
    assert (2 ^ 25 <= 2 ^ d) by (apply Z.pow_le_mono_r; lia).
    change (2 ^ 25) with (2 * 2 ^ 24) in *; lia. }
  assert (Hk : 0 < 2 ^ (24 - d)) by (apply Z.pow_pos_nonneg; lia).
  assert (Hpos : 0 < Zpos p * 2 ^ (24 - d)) by lia.
  destruct (Zpos p * 2 ^ (24 - d)) as [|c|c] eqn:Ec; [lia | | lia].
  assert (E24 : 2 ^ 24 = 2 ^ d * 2 ^ (24 - d))
    by (rewrite <- Z.pow_add_r by lia; f_equal; lia).
  assert (Hc : Zpos (digits2_pos c) = 24).
  { apply digits2_between; change (2 ^ (24 - 1)) with (2 ^ 24 / 2).
    split; [|nia].
    apply Z.div_le_upper_bound; [lia|]; nia. }
  exists c, (d - 24); split; [|split; [exact Hc | split; [lia|]]].
  - cbn [int2f IEEE.arith]; unfold IEEE.of_Z; cbn [binary_normalize].
    apply binary_round_exact; unfold IEEE.prec32, IEEE.emax32, emin;
      try assumption; try lia.
    rewrite Z.min_r, Z.sub_diag, Z.mul_1_r by lia.
    rewrite <- Ec; f_equal; f_equal; lia.
  - rewrite <- Ec; f_equal; f_equal; lia.
Qed.

(** The sum of two integers that fits in 24 bits is computed exactly. *)
Lemma fadd_int2f (a b : Z) :
  0 <= a -> 0 <= b -> a + b < 2 ^ 24 ->
  int2f a +f int2f b = int2f (a + b).
Proof.
  intros Ha Hb Hs.
  destruct (Z.eq_dec a 0) as [->|Ha0].
  { destruct (Z.eq_dec b 0) as [->|Hb0]; [reflexivity|].
    destruct (int2f_form b ltac:(lia)) as [c [E [F _]]].
    rewrite Z.add_0_l, F; reflexivity. }
  destruct (Z.eq_dec b 0) as [->|Hb0].
  { destruct (int2f_form a ltac:(lia)) as [c [E [F _]]].
    rewrite Z.add_0_r, F; reflexivity. }
  destruct (int2f_form a ltac:(lia)) as [ca [Ea [Fa [Da [Ra Va]]]]].
  destruct (int2f_form b ltac:(lia)) as [cb [Eb [Fb [Db [Rb Vb]]]]].
  destruct (int2f_form (a + b) ltac:(lia)) as [c [E [F [D [R V]]]]].
  rewrite Fa, Fb, F; cbn [fadd IEEE.arith SFadd cond_Zopp].
  set (ez := Z.min Ea Eb).
  pose proof (shl_align_bounds ca Ea ez) as Sa.
  pose proof (shl_align_bounds cb Eb ez) as Sb.
  destruct (shl_align ca Ea ez) as [ma ea]; destruct (shl_align cb Eb ez) as [mb eb].
  destruct Sa as [_ [Hea Hma]]; destruct Sb as [_ [Heb Hmb]]; cbn [fst].
  assert (Hea' : ea = ez) by (unfold ez in *; lia).
  assert (Heb' : eb = ez) by (unfold ez in *; lia).
  subst ea eb.
  assert (P : forall x y, 0 <= x -> 0 <= y -> 2 ^ (x + y) = 2 ^ x * 2 ^ y)
    by (intros; apply Z.pow_add_r; assumption).
  assert (Hva : Zpos ma = a * 2 ^ (- ez)).
  { rewrite Hma, Va, <- Z.mul_assoc, <- P by (unfold ez; lia).
    f_equal; f_equal; lia. }
  assert (Hvb : Zpos mb = b * 2 ^ (- ez)).
  { rewrite Hmb, Vb, <- Z.mul_assoc, <- P by (unfold ez; lia).
    f_equal; f_equal; lia. }
  change (Zpos ma + Zpos mb) with (Zpos (ma + mb)).
  cbn [binary_normalize].
  apply binary_round_exact; unfold IEEE.prec32, IEEE.emax32, emin;
    try assumption; try lia.
  rewrite Pos2Z.inj_add, Hva, Hvb, V.
  assert (Hez : -23 <= ez <= 0) by (unfold ez; lia).
  rewrite <- Z.mul_add_distr_r, <- !Z.mul_assoc, <- !P by lia.
  f_equal; f_equal; lia.
Qed.

Lemma queue_sum_from_int (q : list Z) (acc : Z) :
  Forall (fun x => 0 <= x) q -> 0 <= acc ->
  acc + fold_right Z.add 0 q < 2 ^ 24 ->
  fold_left (fun sum x => sum +f int2f x) q (int2f acc)
  = int2f (acc + fold_right Z.add 0 q).
Proof.
  intros Hq; revert acc; induction Hq as [|x r Hx Hr IH]; intros acc Ha Hs.
  - cbn; rewrite Z.add_0_r; reflexivity.
  - cbn [fold_left fold_right] in *.
    assert (Hsum : 0 <= fold_right Z.add 0 r)
      by (clear -Hr; induction Hr; cbn; lia).
    rewrite fadd_int2f, IH by lia.
    f_equal; lia.
Qed.

Lemma queue_sum_int (q : list Z) :
  Forall (fun x => 0 <= x) q -> fold_right Z.add 0 q < 2 ^ 24 ->
  queue_sum q = int2f (fold_right Z.add 0 q).
Proof.
  intros Hq Hs; unfold queue_sum.
  rewrite queue_sum_from_int; [reflexivity | exact Hq | lia | lia].
Qed.

(** Every quotient the averager can compute on a window of one to four
    entries between 0 and 300, checked one by one. *)
Lemma average_table :
  forallb (fun n => forallb (average_ok n) (sums_up_to n)) [1; 2; 3; 4] = true.
Proof. vm_compute; reflexivity. Qed.

Lemma average_ok_all (n sum : Z) :
  1 <= n <= 4 -> 0 <= sum <= 300 * n -> average_ok n sum = true.
Proof.
  intros Hn Hs.
  pose proof average_table as T; rewrite forallb_forall in T.
  assert (Hin : In n [1; 2; 3; 4]) by (cbn; lia).
  specialize (T n Hin); rewrite forallb_forall in T; apply T.
  unfold sums_up_to; apply in_map_iff; exists (Z.to_nat sum); split; [lia|].
  apply in_seq; lia.
Qed.

Lemma average_rounded_mean (q : list Z) (s : state) :
  avg_speed_queue s = q -> q <> [] -> (length q <= 4)%nat ->
  Forall (fun x => 0 <= x <= 300) q ->
  let s' := exec calcAverageSpeed s in
  exists v,
    fval (average_speed s') = Some v /\
    (0 <= v <= 300)%Q /\
    (Qabs (v - mean q) <= 1 # 65536)%Q /\
    (speeding_indicator s' = true <-> (inject_Z LEGAL_SPEED < mean q)%Q).
Proof.
  intros Eq Hne Hl Hq s'; subst s'.
  rewrite exec_calcAverageSpeed; cbv zeta; cbn [average_speed speeding_indicator].
  rewrite Eq.
  pose proof (sum_bounds 300 q Hq) as Hs.
  assert (Hn : 1 <= Z.of_nat (length q) <= 4)
    by (destruct q; [contradiction | cbn [length] in *; lia]).
  rewrite queue_sum_int;
    [| apply Forall_impl with (2 := Hq); intros; lia
     | change (2 ^ 24) with 16777216; lia].
  pose proof (average_ok_all _ _ Hn Hs) as Hok; unfold average_ok in Hok.
  destruct (fval (int2f (fold_right Z.add 0 q) /f int2f (Z.of_nat (length q))))
    as [v|]; [|discriminate].
  apply andb_true_iff in Hok; destruct Hok as [Hok H4].
  apply andb_true_iff in Hok; destruct Hok as [Hok H3].
  apply andb_true_iff in Hok; destruct Hok as [H1 H2].
  apply Qle_bool_iff in H1, H2, H3; apply eqb_prop in H4.
  exists v; split; [reflexivity | split; [split; assumption | split]].
  - exact H3.
  - rewrite H4, Z.ltb_lt; unfold mean.
    assert (Hpos : (0 < inject_Z (Z.of_nat (length q)))%Q)
      by (rewrite <- (Zlt_Qlt 0); lia).
    split; intros H.
    + apply Qlt_shift_div_l; [exact Hpos|].
      rewrite <- inject_Z_mult, <- Zlt_Qlt; exact H.
    + destruct (Z.lt_ge_cases (LEGAL_SPEED * Z.of_nat (length q))
                  (fold_right Z.add 0 q)) as [Hlt|Hge]; [exact Hlt | exfalso].
      assert (Hle : (inject_Z (fold_right Z.add 0%Z q)
                     / inject_Z (Z.of_nat (length q)) <= inject_Z LEGAL_SPEED)%Q).
      { apply Qle_shift_div_r; [exact Hpos|].
        rewrite <- inject_Z_mult, <- Zle_Qle; exact Hge. }
      apply (Qlt_irrefl (inject_Z LEGAL_SPEED)), (Qlt_le_trans _ _ _ H Hle).
Qed.

(** X24.  On the arithmetic of the target, once the integrator has run,
    the window holds one to four entries between 0 and 300, the additions
    of the averager are exact, and an iteration of the averager sets
    [average_speed] to a number between 0 and 300 within [2 ^ -16] of the
    arithmetic mean of the entries, and the speeding indicator to whether
    that mean is greater than [LEGAL_SPEED]. *)
Theorem average_on_target_is_the_rounded_mean (cs1 cs2 : list cycle) :
  let s := run (cs1 ++ SimulateCar :: cs2) init in
  let q := avg_speed_queue s in
  let s' := exec calcAverageSpeed s in
  (1 <= length q <= 4)%nat /\
  Forall (fun x => 0 <= x <= 300) q /\
  queue_sum q = int2f (fold_right Z.add 0 q) /\
  exists v,
    fval (average_speed s') = Some v /\
    (0 <= v <= 300)%Q /\
    (Qabs (v - mean q) <= 1 # 65536)%Q /\
    (speeding_indicator s' = true <-> (inject_Z LEGAL_SPEED < mean q)%Q).
Proof.
  intros s q s'.
  destruct (windowed_run (cs1 ++ SimulateCar :: cs2) init windowed_init)
    as [_ Hl Hq].
  fold s in Hl, Hq; fold q in Hl, Hq.
  assert (Hne : q <> []) by apply window_filled.
  split; [destruct q; [contradiction | cbn [length] in *; lia]|].
  split; [exact Hq|].
  split.
  - apply queue_sum_int; [apply Forall_impl with (2 := Hq); intros; lia|].
    pose proof (sum_bounds 300 q Hq); change (2 ^ 24) with 16777216; lia.
  - apply (average_rounded_mean q s); trivial.
Qed.

(** ** The average and the mean *)

Lemma average_exact_table :
  forallb (fun n => forallb (average_exact_ok n) (sums_up_to n)) [1; 2; 3; 4]
  = true.
Proof. vm_compute; reflexivity. Qed.

Lemma average_exact_ok_all (n sum : Z) :
  1 <= n <= 4 -> 0 <= sum <= 300 * n -> average_exact_ok n sum = true.
Proof.
  intros Hn Hs.
  pose proof average_exact_table as T; rewrite forallb_forall in T.
  assert (Hin : In n [1; 2; 3; 4]) by (cbn; lia).
  specialize (T n Hin); rewrite forallb_forall in T; apply T.
  unfold sums_up_to; apply in_map_iff; exists (Z.to_nat sum); split; [lia|].
  apply in_seq; lia.
Qed.

(** C5, amended.  On the arithmetic of the target, on a window of one to
    four entries between 0 and 300, an iteration of the averager sets
    [average_speed] to the arithmetic mean of the entries rounded to
    [float]: a number within [2 ^ -16] of the mean, and the mean itself
    when the window does not hold three entries or their sum is a
    multiple of 3.  The speeding indicator is on exactly when that number
    is greater than [LEGAL_SPEED]. *)
Theorem average_is_the_rounded_mean (s : state) :
  avg_speed_queue s <> [] -> (length (avg_speed_queue s) <= 4)%nat ->
  Forall (fun x => 0 <= x <= 300) (avg_speed_queue s) ->
  let q := avg_speed_queue s in
  let s' := exec calcAverageSpeed s in
  exists v,
    fval (average_speed s') = Some v /\
    (Qabs (v - mean q) <= 1 # 65536)%Q /\
    (length q <> 3%nat \/ fold_right Z.add 0 q mod 3 = 0 -> (v == mean q)%Q) /\
    (speeding_indicator s' = true <-> (inject_Z LEGAL_SPEED < v)%Q).
Proof.
  intros Hne Hl Hq; cbv zeta.
  remember (avg_speed_queue s) as q eqn:Eq; symmetry in Eq.
  destruct (average_rounded_mean q s Eq Hne Hl Hq) as [v [Hv [_ [Hd _]]]].
  exists v; split; [exact Hv|]; split; [exact Hd|].
  revert Hv.
  rewrite exec_calcAverageSpeed; cbv zeta; cbn [average_speed speeding_indicator].
  rewrite Eq; intros Hv.
  pose proof (sum_bounds 300 q Hq) as Hs.
  assert (Hn : 1 <= Z.of_nat (length q) <= 4)
    by (destruct q; [contradiction | cbn [length] in *; lia]).
  rewrite queue_sum_int in Hv |- *;
    [| apply Forall_impl with (2 := Hq); intros; lia
     | change (2 ^ 24) with 16777216; lia
     | apply Forall_impl with (2 := Hq); intros; lia
     | change (2 ^ 24) with 16777216; lia].
  pose proof (average_exact_ok_all _ _ Hn Hs) as Hok.
  unfold average_exact_ok in Hok; rewrite Hv in Hok.
  apply andb_true_iff in Hok; destruct Hok as [H1 H2].
  apply eqb_prop in H2; split.
  - intros Hrep.
    assert (Hb : negb (Z.of_nat (length q) =? 3)
                 || (fold_right Z.add 0 q mod 3 =? 0) = true).
    { destruct Hrep as [Hrep|Hrep].
      - apply orb_true_iff; left; apply negb_true_iff, Z.eqb_neq; lia.
      - apply orb_true_iff; right; apply Z.eqb_eq, Hrep. }
    rewrite Hb in H1; apply Qeq_bool_iff in H1; exact H1.
  - rewrite H2; apply Qltb_true.
Qed.

(** ** Speeds between 142 and 143 *)

Lemma belowb_sound (k : Q) (c : flt) : belowb k c = true -> below k c.
Proof.
  unfold belowb, below; destruct (fval c) as [v|]; [|discriminate].
  intros H; exists v; split; [reflexivity | apply Qltb_true, H].
Qed.

Lemma to_int_below (c : flt) (k : Z) :
  speed_ok c -> 0 <= k -> below (inject_Z (k + 1)) c -> f2int c <= k.
Proof.
  intros Hc Hk [v [Hv Hlt]].
  destruct c as [s|s| |s m e]; cbn [speed_ok] in Hc; try contradiction;
    [cbn; lia|].
  destruct Hc as [-> [_ Hc]]; apply speed_ok_exponent in Hc.
  destruct e as [|p|p]; [lia | lia |].
  cbn [fval IEEE.arith IEEE.to_Q cond_Zopp] in Hv; injection Hv as Hv; subst v.
  unfold Qlt in Hlt; cbn [Qnum Qden inject_Z] in Hlt.
  rewrite Z.mul_1_r, Pos2Z.inj_pow in Hlt.
  cbn [f2int IEEE.arith IEEE.to_int cond_Zopp].
  rewrite Z.shiftr_div_pow2 by lia.
  assert (Hp : 0 < 2 ^ Zpos p) by (apply Z.pow_pos_nonneg; lia).
  assert (Ht : 0 <= Zpos m / 2 ^ Zpos p <= k).
  { split; [apply Z.div_pos; lia|].
    apply Z.lt_succ_r, Z.div_lt_upper_bound; [exact Hp | lia]. }
  unfold IEEE.INT_MIN, IEEE.INT_MAX; change (2 ^ 31) with 2147483648; lia.
Qed.

Lemma slow_window_run (cs : list cycle) (s : state) :
  tame s ->
  Forall (fun x => x <= 142) (avg_speed_queue s) ->
  Forall (below 143) (samples cs s) ->
  Forall (fun x => x <= 142) (avg_speed_queue (run cs s)).
Proof.
  revert s; induction cs as [|c r IH]; intros s Ht Hq Hs; [exact Hq|].
  change (run (c :: r) s) with (run r (exec (body c) s)).
  cbn [samples] in Hs.
  apply IH.
  - apply tame_body, Ht.
  - rewrite queue_of_body; destruct c; try exact Hq.
    inversion Hs as [|x l Hx _]; subst.
    apply enqueue_Forall; [exact Hq|].
    apply to_int_below; [apply (tame_body SimulateCar), Ht | lia | exact Hx].
  - destruct c; try exact Hs.
    inversion Hs; assumption.
Qed.

(** X20.  On the arithmetic of the target, the integer conversion of the
    window hides the excess of a speed between 142 and 143: if every
    speed the integrator leaves in a run from the initial state is below
    143, an iteration of the averager after the run leaves the speeding
    indicator off. *)
Theorem truncation_hides_speeding (cs : list cycle) :
  Forall (below 143) (samples cs init) ->
  speeding_indicator (exec calcAverageSpeed (run cs init)) = false.
Proof.
  intros Hs.
  pose proof (slow_window_run cs init tame_init (Forall_nil _) Hs) as Hw.
  destruct (windowed_run cs init windowed_init) as [_ Hl Hq].
  destruct (avg_speed_queue (run cs init)) as [|x r] eqn:E.
  - rewrite exec_calcAverageSpeed; cbv zeta; cbn [speeding_indicator].
    rewrite E; reflexivity.
  - assert (Hne : x :: r <> []) by discriminate.
    destruct (average_rounded_mean (x :: r) (run cs init) E Hne Hl Hq)
      as [v [_ [_ [_ Hi]]]].
    apply not_true_is_false; intros Ht; apply Hi in Ht.
    pose proof (mean_le 142 _ Hne (sum_upper 142 _ Hw)) as Hle.
    unfold LEGAL_SPEED in Ht.
    apply (Qlt_irrefl 142), (Qlt_le_trans _ _ _ Ht Hle).
Qed.

(** ** The odometer on the target *)

Section Odometer.

Variable k : Z.
Hypothesis Hk : k <= -1074.

Lemma regular_exponent (prec emax : Z) (x : spec_float) :
  k <= emin prec emax -> regular prec emax x -> positive_above k x.
Proof.
  intros He; destruct x as [s|s| |s m e]; cbn [regular positive_above];
    try tauto.
  intros [-> [H _]]; split; [reflexivity|].
  pose proof (fexp_ge prec emax (Zpos (digits2_pos m) + e)); lia.
Qed.

(** The conversion of a [float] to [double] is exact. *)
Lemma f2d_regular (o : flt) :
  regular IEEE.prec32 IEEE.emax32 o ->
  regular IEEE.prec64 IEEE.emax64 (f2d o) /\ scaled k (f2d o) = scaled k o.
Proof.
  destruct o as [s|s| |s m e]; cbn [regular]; try contradiction;
    [intros _; split; [exact I | reflexivity]|].
  intros [-> [He Hmax]]; cbn [f2d IEEE.arith IEEE.round_to].
  pose proof (digits2_upper m) as Hu; pose proof (digits2_lower m) as Hl.
  pose proof (Pos2Z.is_pos (digits2_pos m)) as Hd.
  set (d := Zpos (digits2_pos m)) in *.
  unfold IEEE.prec32, IEEE.emax32, IEEE.prec64, IEEE.emax64 in *.
  assert (Hd24 : d <= 24) by (unfold fexp in He; lia).
  assert (He149 : -149 <= e) by (unfold fexp, emin in He; lia).
  pose proof (pow2_pos (53 - d) ltac:(lia)) as Hp.
  assert (Hc : 0 < Zpos m * 2 ^ (53 - d)) by (apply Z.mul_pos_pos; lia).
  destruct (Zpos m * 2 ^ (53 - d)) as [|c|c] eqn:Ec; [lia | | lia].
  assert (Hdc : Zpos (digits2_pos c) = 53).
  { apply digits2_between; rewrite <- Ec.
    assert (E1 : 2 ^ 53 = 2 ^ d * 2 ^ (53 - d))
      by (rewrite <- Z.pow_add_r by lia; f_equal; lia).
    assert (E2 : 2 ^ (53 - 1) * 2 = 2 ^ 53) by reflexivity.
    rewrite E1 in E2 |- *; nia. }
  rewrite (binary_round_exact 53 1024 ltac:(lia) ltac:(lia) false m c e (e - (53 - d)));
    try assumption; try (unfold emin; lia).
  - cbn [regular scaled]; split.
    + split; [reflexivity|]; rewrite Hdc; unfold fexp, emin; lia.
    + rewrite <- Ec, <- Z.mul_assoc, <- Z.pow_add_r by lia.
      f_equal; f_equal; lia.
  - rewrite Z.min_r, Z.sub_diag, Z.mul_1_r by lia.
    rewrite <- Ec; f_equal; f_equal; lia.
Qed.

Lemma scaled_nonneg (x : spec_float) : positive_above k x -> 0 <= scaled k x.
Proof.
  destruct x as [s|s| |s m e]; cbn [positive_above scaled]; lia.
Qed.

(** The distance covered in one period is not negative and below
    [2 ^ 9]. *)
Lemma increment_positive (c : flt) :
  speed_ok c ->
  positive_above k (f2d c *d lit 1 /d lit 25) /\
  small 9 (f2d c *d lit 1 /d lit 25).
Proof.
  intros Hc.
  assert (L1 : lit 1 = S754_finite false 4503599627370496 (-52))
    by reflexivity.
  assert (L25 : lit 25 = S754_finite false 7036874417766400 (-48))
    by reflexivity.
  assert (S1 : small 10 (f2d c))
    by (apply (f2d_small c 9); [apply speed_ok_small, Hc | lia]).
  assert (P1 : match f2d c with
               | S754_zero _ => True
               | S754_finite s _ _ => s = false
               | _ => False
               end).
  { destruct c as [s|s| |s m e]; cbn [speed_ok] in Hc; try contradiction;
      [exact I|].
    destruct Hc as [-> _]; cbn [f2d IEEE.arith IEEE.round_to] in *.
    pose proof (binary_round_aux_sign IEEE.prec64 IEEE.emax64 ltac:(reflexivity)
                  false) as Hs.
    unfold binary_round in S1 |- *.
    destruct (shl_align m e _) as [mz ez].
    specialize (Hs (Zpos mz) ez loc_Exact ltac:(lia)).
    destruct (binary_round_aux _ _ _ _ _ _); cbn [small] in S1;
      try contradiction; [exact I | exact Hs]. }
  assert (S2 : small 12 (f2d c *d lit 1))
    by (rewrite L1; apply (dmul_small _ _ 10 1); [exact S1 | cbn; lia | lia | lia]).
  assert (P2 : match f2d c *d lit 1 with
               | S754_zero _ => True
               | S754_finite s _ _ => s = false
               | _ => False
               end).
  { pose proof (SFmul_positive IEEE.prec64 IEEE.emax64 ltac:(reflexivity)
                  (f2d c) 4503599627370496 (-52) P1) as H.
    rewrite L1; cbn [dmul IEEE.arith] in S2 |- *; rewrite L1 in S2.
    destruct (SFmul _ _ _ _); cbn [small] in S2; try contradiction;
      [exact I | apply H]. }
  assert (S3 : small 9 (f2d c *d lit 1 /d lit 25)).
  { rewrite L25; cbn [ddiv IEEE.arith].
    apply (SFdiv_small IEEE.prec64 IEEE.emax64 ltac:(reflexivity)
             ltac:(discriminate) _ false _ _ 12 5);
      [exact S2 | cbn; lia | unfold emin, IEEE.prec64, IEEE.emax64; lia
       | unfold IEEE.emax64; lia]. }
  split; [|exact S3].
  pose proof (SFdiv_positive IEEE.prec64 IEEE.emax64 ltac:(reflexivity)
                (f2d c *d lit 1) 7036874417766400 (-48) P2) as H.
  rewrite L25 in S3 |- *; cbn [ddiv IEEE.arith] in S3 |- *.
  destruct (SFdiv _ _ _ _); cbn [small positive_above] in *;
    try contradiction; [exact I|].
  destruct H as [H1 H2]; split; [exact H1|].
  unfold emin, IEEE.prec64, IEEE.emax64 in H2; lia.
Qed.

Lemma pow2_sum (a b : Z) : 0 <= a -> 0 <= b -> 2 ^ a * 2 ^ b = 2 ^ (a + b).
Proof. intros; rewrite Z.pow_add_r by assumption; reflexivity. Qed.

(** The sum of the odometer and of the distance covered in one period:
    not below the odometer, and not above [2 ^ 34 + 2 ^ 9]. *)
Lemma dadd_positive (a i : dbl) :
  regular IEEE.prec64 IEEE.emax64 a -> scaled k a <= 2 ^ (34 - k) ->
  positive_above k i -> small 9 i ->
  positive_above k (a +d i) /\
  scaled k a <= scaled k (a +d i) /\
  (scaled k (a +d i) <= 2 ^ (34 - k) \/
   (regular IEEE.prec64 IEEE.emax64 (a +d i) /\
    scaled k (a +d i) <= 2 ^ (34 - k) + 2 ^ (9 - k))).
Proof.
  intros Ra Ba Pi Si.
  assert (Pa : positive_above k a)
    by (apply (regular_exponent IEEE.prec64 IEEE.emax64);
        [unfold emin, IEEE.prec64, IEEE.emax64; lia | exact Ra]).
  pose proof (scaled_small i 9 k Si ltac:(lia)) as Bi.
  pose proof (pow2_pos (34 - k) ltac:(lia)) as P34.
  assert (P9 : 2 ^ (9 - k) <= 2 ^ (34 - k)) by (apply Z.pow_le_mono_r; lia).
  destruct a as [sa|sa| |sa ma ea]; try contradiction;
    destruct i as [si|si| |si mi ei]; try contradiction;
    cbn [dadd IEEE.arith].
  - destruct sa, si; cbn [SFadd positive_above scaled]; repeat split; lia.
  - cbn [SFadd positive_above scaled] in *.
    specialize (Bi ltac:(tauto)); repeat split; try tauto; lia.
  - cbn [SFadd positive_above scaled] in *; repeat split; try tauto; lia.
  - destruct Pa as [-> Hea]; destruct Pi as [-> Hei].
    destruct Ra as [_ [Ca Ma]]; cbn [scaled] in Ba, Bi.
    specialize (Bi Hei).
    assert (H36 : 2 ^ (34 - k) + 2 ^ (9 - k) < 2 ^ (36 - k)).
    { replace (36 - k) with (34 - k + 2) by lia.
      rewrite Z.pow_add_r by lia; change (2 ^ 2) with 4; lia. }
    assert (Href : Zpos 4503599761588224 * 2 ^ (-18 - k)
                   = 2 ^ (34 - k) + 2 ^ (9 - k)).
    { change (Zpos 4503599761588224) with (2 ^ 52 + 2 ^ 27).
      rewrite Z.mul_add_distr_r, !pow2_sum by lia.
      f_equal; f_equal; lia. }
    pose proof (SFadd_ge IEEE.prec64 IEEE.emax64 ltac:(reflexivity)
                  ltac:(discriminate) ma mi ma ea ei ea k 36
                  ltac:(unfold emin, IEEE.prec64, IEEE.emax64; lia) Hea Hei
                  ltac:(lia)
                  ltac:(unfold emin, IEEE.prec64, IEEE.emax64; lia)
                  ltac:(unfold IEEE.emax64; lia) Ca ltac:(lia)) as Hge.
    pose proof (SFadd_le IEEE.prec64 IEEE.emax64 ltac:(reflexivity)
                  ltac:(discriminate) ma mi 4503599761588224 ea ei (-18) k 36
                  ltac:(unfold emin, IEEE.prec64, IEEE.emax64; lia) Hea Hei
                  ltac:(lia)
                  ltac:(unfold emin, IEEE.prec64, IEEE.emax64; lia)
                  ltac:(unfold IEEE.emax64; lia) ltac:(reflexivity)
                  ltac:(rewrite Href; lia)) as Hle.
    destruct (SFadd _ _ _ _) as [s|s| |s my ey]; try contradiction.
    destruct Hge as [-> [Hey [Hge [Cy My]]]].
    destruct Hle as [_ [_ [Hle _]]]; rewrite Href in Hle.
    cbn [positive_above scaled regular]; repeat split; try assumption.
    right; repeat split; assumption.
Qed.

(** The conversion of the sum to [float]: not below the odometer, and
    not above [2 ^ 34]. *)
Lemma d2f_positive (o : flt) (y : dbl) :
  regular IEEE.prec32 IEEE.emax32 o -> scaled k o <= 2 ^ (34 - k) ->
  positive_above k y -> scaled k o <= scaled k y ->
  (scaled k y <= 2 ^ (34 - k) \/
   (regular IEEE.prec64 IEEE.emax64 y /\
    scaled k y <= 2 ^ (34 - k) + 2 ^ (9 - k))) ->
  regular IEEE.prec32 IEEE.emax32 (d2f y) /\
  scaled k o <= scaled k (d2f y) <= 2 ^ (34 - k).
Proof.
  intros Ro Bo Py Hoy Hy.
  pose proof (pow2_pos (34 - k) ltac:(lia)) as P34.
  assert (P9 : 2 ^ (9 - k) < 2 ^ (34 - k)) by (apply Z.pow_lt_mono_r; lia).
  assert (H35 : 2 ^ (34 - k) + 2 ^ (9 - k) < 2 ^ (35 - k)).
  { replace (35 - k) with (34 - k + 1) by lia.
    rewrite Z.pow_add_r by lia; change (2 ^ 1) with 2; lia. }
  destruct y as [sy|sy| |sy my ey]; try contradiction;
    cbn [d2f IEEE.arith IEEE.round_to].
  - cbn [regular scaled] in *; repeat split; lia.
  - destruct Py as [-> Hey]; cbn [scaled] in Hoy, Hy.
    assert (By : Zpos my * 2 ^ (ey - k) < 2 ^ (35 - k)) by lia.
    pose proof (digits2_below my ey 35 k Hey By) as Dy.
    assert (Hov : fexp IEEE.prec32 IEEE.emax32 (Zpos (digits2_pos my) + ey) + 1
                  <= IEEE.emax32 - IEEE.prec32).
    { pose proof (fexp_le IEEE.prec32 IEEE.emax32
                    (Zpos (digits2_pos my) + ey) 11) as H.
      unfold emin, IEEE.prec32, IEEE.emax32 in *; lia. }
    assert (Hk32 : k <= emin IEEE.prec32 IEEE.emax32)
      by (unfold emin, IEEE.prec32, IEEE.emax32; lia).
    assert (Href : Zpos 8388608 * 2 ^ (11 - k) = 2 ^ (34 - k)).
    { change (Zpos 8388608) with (2 ^ 23).
      rewrite pow2_sum by lia; f_equal; lia. }
    destruct (Z.le_gt_cases (Zpos my * 2 ^ (ey - k)) (2 ^ (34 - k)))
      as [Hlow|Hhigh].
    + pose proof (binary_round_le IEEE.prec32 IEEE.emax32 ltac:(reflexivity)
                    ltac:(discriminate) my 8388608 ey 11 k Hov
                    ltac:(reflexivity) Hk32 Hey ltac:(rewrite Href; exact Hlow))
        as Hle.
      destruct o as [so|so| |so mo eo]; try contradiction.
      * cbn [scaled] in *.
        destruct (binary_round _ _ _ _ _) as [s|s| |s mx ex];
          try contradiction; cbn [regular scaled]; [repeat split; lia|].
        destruct Hle as [-> [Hex [Hle [Cx Mx]]]]; rewrite Href in Hle.
        repeat split; try assumption; lia.
      * destruct Ro as [-> [Co Mo]]; cbn [scaled] in *.
        pose proof (binary_round_ge IEEE.prec32 IEEE.emax32 ltac:(reflexivity)
                      ltac:(discriminate) my mo ey eo k Hov Co Hk32 Hey Hoy)
          as Hge.
        destruct (binary_round _ _ _ _ _) as [s|s| |s mx ex];
          try contradiction; cbn [regular scaled].
        destruct Hle as [-> [Hex [Hle [Cx Mx]]]]; rewrite Href in Hle.
        destruct Hge as [_ [_ [Hge _]]].
        repeat split; try assumption; reflexivity.
    + destruct Hy as [Hy|[[_ [Cy My]] Hy]]; [lia|].
      (* the sum is above 2^34: its exponent is -18 and it is rounded down *)
      assert (Dy' : 35 <= Zpos (digits2_pos my) + ey).
      { pose proof (magnitude_le 1 my 34 ey k ltac:(lia) Hey) as H.
        change (Zpos (digits2_pos 1)) with 1 in H.
        rewrite Z.mul_1_l in H; lia. }
      assert (D35 : Zpos (digits2_pos my) + ey = 35) by lia.
      assert (Ey : ey = -18)
        by (rewrite D35 in Cy;
            unfold fexp, emin, IEEE.prec64, IEEE.emax64 in Cy; lia).
      subst ey.
      assert (Hmy : 2 ^ 52 < Zpos my <= 2 ^ 52 + 2 ^ 27).
      { pose proof (pow2_pos (-18 - k) ltac:(lia)) as Hp.
        assert (E1 : 2 ^ (34 - k) = 2 ^ 52 * 2 ^ (-18 - k))
          by (rewrite pow2_sum by lia; f_equal; lia).
        assert (E2 : 2 ^ (9 - k) = 2 ^ 27 * 2 ^ (-18 - k))
          by (rewrite pow2_sum by lia; f_equal; lia).
        rewrite E1 in Hhigh, Hy; rewrite E2 in Hy.
        rewrite <- Z.mul_add_distr_r in Hy.
        split.
        - apply (Z.mul_lt_mono_pos_r (2 ^ (-18 - k))); assumption.
        - apply (Z.mul_le_mono_pos_r _ _ (2 ^ (-18 - k))); assumption. }
      pose proof (binary_round_floor IEEE.prec32 IEEE.emax32
                    ltac:(reflexivity) my (-18)) as Hfl.
      cbv zeta in Hfl; rewrite D35 in Hfl.
      change (fexp IEEE.prec32 IEEE.emax32 35) with 11 in Hfl.
      change (11 - -18 - 1) with 28 in Hfl; change (11 - -18) with 29 in Hfl.
      change (2 ^ 52) with 4503599627370496 in Hmy.
      change (2 ^ 27) with 134217728 in Hmy.
      assert (Q28 : Zpos my / 2 ^ 28 = 16777216)
        by (change (2 ^ 28) with 268435456; symmetry;
            apply Z.div_unique with (Zpos my - 16777216 * 268435456); lia).
      assert (Q29 : Zpos my / 2 ^ 29 = 8388608)
        by (change (2 ^ 29) with 536870912; symmetry;
            apply Z.div_unique with (Zpos my - 8388608 * 536870912); lia).
      rewrite Q28, Q29 in Hfl.
      specialize (Hfl ltac:(lia) ltac:(unfold IEEE.emax32, IEEE.prec32; lia)
                    ltac:(reflexivity)).
      destruct (binary_round _ _ _ _ _) as [s|s| |s mx ex];
        try contradiction; [destruct Hfl; discriminate|].
      destruct Hfl as [-> [Hex [Hv [Cx Mx]]]]; cbn [regular scaled].
      assert (Hval : Zpos mx * 2 ^ (ex - k) = 2 ^ (34 - k)).
      { replace (ex - k) with ((ex - 11) + (11 - k)) by lia.
        rewrite <- pow2_sum, Z.mul_assoc, Hv by lia; exact Href. }
      rewrite Hval; repeat split; try assumption; lia.
Qed.

(** One step of the odometer. *)
Lemma next_odometry_positive (o c : flt) :
  regular IEEE.prec32 IEEE.emax32 o -> scaled k o <= 2 ^ (34 - k) ->
  speed_ok c ->
  regular IEEE.prec32 IEEE.emax32 (next_odometry o c) /\
  scaled k o <= scaled k (next_odometry o c) <= 2 ^ (34 - k).
Proof.
  intros Ro Bo Hc; unfold next_odometry.
  destruct (f2d_regular o Ro) as [Ra Va].
  destruct (increment_positive c Hc) as [Pi Si].
  destruct (dadd_positive (f2d o) (f2d c *d lit 1 /d lit 25) Ra
              ltac:(rewrite Va; exact Bo) Pi Si) as [Py [Hge Hle]].
  rewrite Va in Hge.
  apply d2f_positive; assumption.
Qed.

(** The number a positive float denotes, from its value in units of
    [2 ^ k]. *)
Lemma scaled_value (x : flt) :
  positive_above k x ->
  exists v, fval x = Some v /\
            (v * inject_Z (2 ^ (- k)) == inject_Z (scaled k x))%Q.
Proof.
  destruct x as [s|s| |s m e]; cbn [positive_above]; try contradiction.
  - intros _; exists 0%Q; split; [reflexivity | cbn [scaled]; ring].
  - intros [-> He]; cbn [fval IEEE.arith IEEE.to_Q scaled cond_Zopp].
    eexists; split; [reflexivity|].
    destruct e as [|p|p].
    + rewrite <- inject_Z_mult.
      replace (0 - k) with (0 + - k) by lia.
      rewrite <- pow2_sum, Z.mul_assoc by lia; reflexivity.
    + rewrite <- inject_Z_mult.
      replace (Zpos p - k) with (Zpos p + - k) by lia.
      rewrite <- pow2_sum, Z.mul_assoc by lia; reflexivity.
    + unfold Qeq; cbn [Qnum Qden Qmult inject_Z].
      rewrite Pos.mul_1_r, Z.mul_1_r, Pos2Z.inj_pow, <- Z.mul_assoc.
      rewrite pow2_sum by lia.
      f_equal; f_equal; lia.
Qed.

End Odometer.

Lemma metered_init : metered init.
Proof.
  split; [apply tame_init|]; split; [exact I|].
  cbn [scaled odometry init int2f IEEE.arith].
  apply Z.lt_le_incl, Z.pow_pos_nonneg; [lia | unfold unit_exp, emin; cbn; lia].
Qed.

Lemma metered_body (c : cycle) (s : state) :
  metered s -> metered (exec (body c) s).
Proof.
  intros [Ht [Ho Hb]]; split; [apply tame_body, Ht|].
  assert (Hk : unit_exp <= -1074)
    by (unfold unit_exp, emin, IEEE.prec64, IEEE.emax64; lia).
  destruct c; cbn [body];
    rewrite ?exec_readInputs, ?exec_calcAverageSpeed, ?exec_displayToLCD,
      ?exec_cruiseControl, ?exec_simulateCar; cbv zeta; cbn [odometry];
    try (split; assumption).
  pose proof (tame_speed _ (tame_simulateCar s Ht)) as Hc.
  rewrite exec_simulateCar in Hc; cbn [current_speed] in Hc.
  destruct (next_odometry_positive unit_exp Hk (odometry s) (next_speed s)
              Ho Hb Hc) as [H1 [_ H2]].
  split; assumption.
Qed.

Lemma metered_run (cs : list cycle) (s : state) :
  metered s -> metered (run cs s).
Proof.
  revert s; induction cs as [|c r IH]; intros s Hs; [exact Hs|].
  apply (IH (exec (body c) s)), metered_body, Hs.
Qed.

(** One integrator cycle from a state that [metered] describes. *)
Lemma odometer_step (s : state) :
  metered s ->
  let s' := exec simulateCar s in
  exists o o',
    fval (odometry s) = Some o /\ fval (odometry s') = Some o' /\
    (0 <= o)%Q /\ (o <= o')%Q /\ (o' <= 17179869184)%Q.
Proof.
  intros [Ht [Ho Hb]] s'.
  assert (Hk : unit_exp <= -1074)
    by (unfold unit_exp, emin, IEEE.prec64, IEEE.emax64; lia).
  assert (Hk32 : unit_exp <= emin IEEE.prec32 IEEE.emax32)
    by (unfold unit_exp, emin, IEEE.prec32, IEEE.emax32, IEEE.prec64,
          IEEE.emax64; lia).
  pose proof (tame_speed _ (tame_simulateCar s Ht)) as Hc.
  rewrite exec_simulateCar in Hc; cbn [current_speed] in Hc.
  destruct (next_odometry_positive unit_exp Hk (odometry s) (next_speed s)
              Ho Hb Hc) as [Ro' [Hge Hle]].
  destruct (scaled_value unit_exp Hk (odometry s)
              (regular_exponent unit_exp _ _ _ Hk32 Ho)) as [o [Eo Vo]].
  destruct (scaled_value unit_exp Hk (next_odometry (odometry s) (next_speed s))
              (regular_exponent unit_exp _ _ _ Hk32 Ro')) as [o' [Eo' Vo']].
  exists o, o'; subst s'; rewrite exec_simulateCar; cbn [odometry].
  split; [exact Eo|]; split; [exact Eo'|].
  pose proof (pow2_pos (- unit_exp) ltac:(lia)) as HP.
  assert (HPQ : (0 < inject_Z (2 ^ (- unit_exp)))%Q)
    by (change 0%Q with (inject_Z 0); rewrite <- Zlt_Qlt; exact HP).
  pose proof (scaled_nonneg unit_exp _
                (regular_exponent unit_exp _ _ _ Hk32 Ho)) as H0.
  split; [|split].
  - apply (Qmult_le_r _ _ _ HPQ); rewrite Vo, Qmult_0_l.
    change 0%Q with (inject_Z 0); rewrite <- Zle_Qle; exact H0.
  - apply (Qmult_le_r _ _ _ HPQ); rewrite Vo, Vo', <- Zle_Qle; exact Hge.
  - apply (Qmult_le_r _ _ _ HPQ); rewrite Vo'.
    change 17179869184%Q with (inject_Z (2 ^ 34)).
    rewrite <- inject_Z_mult, <- Zle_Qle, pow2_sum by lia.
    replace (34 + - unit_exp) with (34 - unit_exp) by lia; exact Hle.
Qed.

(** X25.  On the arithmetic of the target, after any run from the
    initial state the odometer is a number that is not negative, and an
    iteration of the integrator sets it to a number that is not below
    it and not above [2 ^ 34]: it never decreases, and it never
    overflows nor becomes a NaN. *)
Theorem odometer_on_target (cs : list cycle) :
  let s := run cs init in
  let s' := exec simulateCar s in
  exists o o',
    fval (odometry s) = Some o /\ fval (odometry s') = Some o' /\
    (0 <= o)%Q /\ (o <= o')%Q /\ (o' <= 17179869184)%Q.
Proof. exact (odometer_step _ (metered_run cs init metered_init)). Qed.

(** C8, amended.  On the arithmetic of the target an integrator cycle
    sets the odometer to its old value plus the speed left by that cycle
    times 1.0 / 25.0, computed in [double] and rounded to [float]; after
    any run from the initial state the odometer is a number, and an
    integrator cycle does not decrease it. *)
Theorem odometry_never_decreases :
  (forall s : state,
      let s' := exec simulateCar s in
      odometry s' =
      d2f (f2d (odometry s) +d f2d (current_speed s') *d lit 1 /d lit 25)) /\
  (forall cs : list cycle,
      let s := run cs init in
      let s' := exec simulateCar s in
      exists o o',
        fval (odometry s) = Some o /\ fval (odometry s') = Some o' /\
        (o <= o')%Q).
Proof.
  split.
  - intros s; cbv zeta; rewrite exec_simulateCar; reflexivity.
  - intros cs.
    destruct (odometer_step _ (metered_run cs init metered_init))
      as [o [o' [Ho [Ho' [_ [Hle _]]]]]].
    exists o, o'; repeat split; assumption.
Qed.

(** ** The theorems with a hypothesis, at concrete runs *)

(** The cruise switch is on, the ignition is off and the brake command
    is 0; the brake switch is then pressed. *)
Lemma brake_switch_ignored_when_pressed :
  brakes (run [ReadInputs false false true; CruiseControl true;
               SimulateCar; ReadInputs false false true]
              (mkState false true (int2f 0) (int2f 0) (int2f 50) (int2f 0)
                 (int2f 0) [] false false false None))
  = int2f 0.
Proof.
  destruct (brake_switch_ignored
              [ReadInputs false false true; CruiseControl true;
               SimulateCar; ReadInputs false false true]
              (mkState false true (int2f 0) (int2f 0) (int2f 50) (int2f 0)
                 (int2f 0) [] false false false None)
              eq_refl eq_refl eq_refl) as [H _].
  exact H.
Defined.

(** The accelerator switch held on from the initial state, through two
    integrator cycles and an iteration of the averager. *)
Lemma held_switches_drive_the_speed_from_rest :
  current_speed (run [ReadInputs true true false; SimulateCar;
                      CalcAverageSpeed; SimulateCar] init)
  = Nat.iter 2 (manual_step true true false) (int2f 0).
Proof.
  destruct (held_switches_drive_the_speed true true false
              [SimulateCar; CalcAverageSpeed; SimulateCar] init
              eq_refl eq_refl eq_refl) as [H _].
  exact H.
Defined.

(** The window 141, 143, 143, 143: the average is 142.5, the mean, and
    the speeding indicator is on. *)
Lemma average_is_the_rounded_mean_at_142_5 :
  exists v,
    fval (average_speed
            (exec calcAverageSpeed
               (mkState true false (int2f 0) (int2f 0) (int2f 143) (int2f 0)
                  (int2f 0) [141; 143; 143; 143] true false false None)))
    = Some v /\
    (v == 285 # 2)%Q /\
    speeding_indicator
      (exec calcAverageSpeed
         (mkState true false (int2f 0) (int2f 0) (int2f 143) (int2f 0)
            (int2f 0) [141; 143; 143; 143] true false false None))
    = true.
Proof.
  destruct (average_is_the_rounded_mean
              (mkState true false (int2f 0) (int2f 0) (int2f 143) (int2f 0)
                 (int2f 0) [141; 143; 143; 143] true false false None))
    as [v [Hv [_ [He Hi]]]].
  - discriminate.
  - cbn [avg_speed_queue length]; lia.
  - cbn [avg_speed_queue]; repeat (constructor; [lia|]); constructor.
  - cbn [avg_speed_queue] in He.
    assert (Hm : (v == 285 # 2)%Q)
      by (rewrite He; [reflexivity | left; discriminate]).
    exists v; split; [exact Hv|]; split; [exact Hm|].
    apply Hi; rewrite Hm; reflexivity.
Defined.

(** Full throttle from rest for 154 integrator cycles, then coasting for
    three: the last four speeds are above 142 (the last is about 142.22),
    the window holds 142 four times and the speeding indicator stays
    off. *)
Lemma truncation_hides_speeding_after_throttle :
  avg_speed_queue
    (run (ReadInputs true true false :: repeat SimulateCar 154
          ++ [ReadInputs true false false;
              SimulateCar; SimulateCar; SimulateCar]) init)
  = [142; 142; 142; 142] /\
  forallb (fun c => match fval c with
                    | Some v => Qltb 142 v
                    | None => false
                    end)
    (lastn 4 (samples (ReadInputs true true false :: repeat SimulateCar 154
                       ++ [ReadInputs true false false;
                           SimulateCar; SimulateCar; SimulateCar]) init))
  = true /\
  speeding_indicator
    (exec calcAverageSpeed
       (run (ReadInputs true true false :: repeat SimulateCar 154
             ++ [ReadInputs true false false;
                 SimulateCar; SimulateCar; SimulateCar]) init))
  = false.
Proof.
  split; [vm_compute; reflexivity|].
  split; [vm_compute; reflexivity|].
  apply truncation_hides_speeding.
  apply Forall_forall; intros c Hc; apply belowb_sound.
  revert c Hc; apply forallb_forall; vm_compute; reflexivity.
Defined.

End IEEESpeed.
